(** * Prototype-based similarity partitioning: a shallow embedding

    The development embeds [classify.py]: the function [makeSimMat] and
    the class [simClassMap] with its methods [__init__], [reassign],
    [sort], [truncate], [print] and [augment].  [PSP_minimal.py] is not
    embedded: as shipped, the docstring of its function [PSP] is not
    indented under the [def], so the module does not compile and [PSP]
    cannot be called; the lines of its body are those of the greedy pass
    of [__init__].

    Modelling conventions.
    - A NumPy vector is a [list]; a two-dimensional array is a list of rows.
    - Similarity values are finite floats; they are embedded as the
      rationals [Q] that they denote, and comparisons between cells of one
      matrix ([argmax]) are exact.  NaN is not modelled.
    - The threshold is a Python float, the matrix has a dtype of its own:
      [simmat >= thresh] compares in the dtype of the matrix, so the
      threshold is converted to it first.  The conversion is a parameter
      [cast] of the creation; it is the identity [to_float64] for a
      [float64] matrix and the rounding to [float32] for a matrix built
      by [makeSimMat].  In the statements [cast t] is the threshold as it
      is compared; a rounding to nearest is monotone and keeps 1, so a
      threshold of at most 1 stays at most 1 ([cast_le_one]).
    - Python integers and the [int64] results of [argmax], [sum] and
      [np.max] are [Z] or [nat] (positions).  The [int16] vector
      [classAssigned] of the greedy pass is written with a range check: a
      class number above 32767 raises [OverflowError], as NumPy (2.0 and
      later) does for an out-of-bounds Python integer.
    - Exceptions are values of [exn]; a method of the object is a function
      from the object to an outcome and the object as the exception or the
      return leaves it.
    - The [while] loop of the greedy pass takes fuel; the theorems show how
      much is enough.
    - [verbose] printing and the optional [checkinputs] tests are left
      out: [__init__] is embedded with both flags at their default
      [False].  The opaque [data] arrays are kept as their first
      dimension only. *)

From Stdlib Require Import String Ascii DecimalString.
From Stdlib Require Import List ZArith QArith Lia Bool Arith PeanoNat.
From Stdlib Require Import Permutation Sorted.
Import ListNotations.

Close Scope Q_scope.
Local Open Scope nat_scope.

Set Implicit Arguments.

(** ** Outcomes *)

Inductive exn : Type :=
| ValueError
| IndexError
| OverflowError
| ZeroDivisionError
| Exception (msg : string).

Inductive res (A : Type) : Type :=
| Ok (a : A)
| Raise (e : exn)
| OutOfFuel.

Arguments Ok {A} a.
Arguments Raise {A} e.
Arguments OutOfFuel {A}.

Definition bind {A B : Type} (r : res A) (k : A -> res B) : res B :=
  match r with
  | Ok a => k a
  | Raise e => Raise e
  | OutOfFuel => OutOfFuel
  end.

Definition of_option {A : Type} (e : exn) (o : option A) : res A :=
  match o with
  | Some a => Ok a
  | None => Raise e
  end.

Declare Scope res_scope.
Delimit Scope res_scope with res.
Notation "x <- c ;; k" := (bind c (fun x => k))
  (at level 61, c at next level, right associativity) : res_scope.
Local Open Scope res_scope.

(** ** NumPy primitives *)

Module Np.

Section Argmax.
Variable A : Type.
Variable ltb : A -> A -> bool.

(** [np.argmax]: the position of the first occurrence of the maximum. *)
Fixpoint argmax_from (bi : nat) (b : A) (i : nat) (l : list A) : nat :=
  match l with
  | [] => bi
  | x :: r => if ltb b x then argmax_from i x (S i) r
              else argmax_from bi b (S i) r
  end.

Definition argmax (l : list A) : option nat :=
  match l with
  | [] => None
  | x :: r => Some (argmax_from 0 x 1 r)
  end.
End Argmax.

Definition Qltb (x y : Q) : bool := negb (Qle_bool y x).

Definition argmaxZ : list Z -> option nat := argmax Z.ltb.
Definition argmaxQ : list Q -> option nat := argmax Qltb.

(** [v.sum()] of an integer vector. *)
Definition sum (v : list Z) : Z := fold_right Z.add 0%Z v.

(** [m.sum(axis=1)]. *)
Definition sum_axis1 (m : list (list Z)) : list Z := List.map sum m.

(** [np.max] of an integer vector; empty input raises. *)
Definition max (v : list Z) : option Z :=
  match v with
  | [] => None
  | x :: r => Some (fold_left Z.max r x)
  end.

(** [np.nonzero(v)[0]]: the positions of the non-zero entries. *)
Fixpoint nonzero_from (k : nat) (v : list Z) : list nat :=
  match v with
  | [] => []
  | x :: r => if (x =? 0)%Z then nonzero_from (S k) r
              else k :: nonzero_from (S k) r
  end.

Definition nonzero (v : list Z) : list nat := nonzero_from 0 v.

(** [np.where(v == c)[0]]. *)
Fixpoint where_eq_from (k : nat) (v : list Z) (c : Z) : list nat :=
  match v with
  | [] => []
  | x :: r => if (x =? c)%Z then k :: where_eq_from (S k) r c
              else where_eq_from (S k) r c
  end.

Definition where_eq (v : list Z) (c : Z) : list nat := where_eq_from 0 v c.

(** [v[idx]] with an index vector; a position out of range raises. *)
Fixpoint take {A : Type} (v : list A) (idx : list nat) : option (list A) :=
  match idx with
  | [] => Some []
  | i :: r =>
      match nth_error v i, take v r with
      | Some x, Some xs => Some (x :: xs)
      | _, _ => None
      end
  end.

(** [np.delete(v, idx)]: drop the positions listed in [idx]; a position
    out of range raises. *)
Fixpoint delete_from {A : Type} (k : nat) (v : list A) (idx : list nat)
  : list A :=
  match v with
  | [] => []
  | x :: r => if existsb (Nat.eqb k) idx then delete_from (S k) r idx
              else x :: delete_from (S k) r idx
  end.

Definition delete {A : Type} (v : list A) (idx : list nat)
  : option (list A) :=
  if forallb (fun i => i <? length v) idx
  then Some (delete_from 0 v idx) else None.

(** [np.delete(m, idx, axis=1)]. *)
Fixpoint delete_axis1 {A : Type} (m : list (list A)) (idx : list nat)
  : option (list (list A)) :=
  match m with
  | [] => Some []
  | row :: r =>
      match delete row idx, delete_axis1 r idx with
      | Some row', Some r' => Some (row' :: r')
      | _, _ => None
      end
  end.

(** [v[idx] = c] with an index vector; a position out of range raises and
    leaves [v] as it was. *)
Fixpoint store_from (k : nat) (v : list Z) (idx : list nat) (c : Z)
  : list Z :=
  match v with
  | [] => []
  | x :: r => (if existsb (Nat.eqb k) idx then c else x)
              :: store_from (S k) r idx c
  end.

Definition store (v : list Z) (idx : list nat) (c : Z) : option (list Z) :=
  if forallb (fun i => i <? length v) idx
  then Some (store_from 0 v idx c) else None.

(** [np.zeros(n).astype(int)]. *)
Definition zeros (n : nat) : list Z := repeat 0%Z n.

(** [np.arange(n)]. *)
Definition arange (n : nat) : list nat := seq 0 n.

End Np.

(** ** Similarity matrices *)

Definition matrix : Type := list (list Q).

Definition get (m : matrix) (i j : nat) : Q := nth j (nth i m []) 0%Q.

Definition astype_int8 (b : bool) : Z := if b then 1%Z else 0%Z.

(** A Python float is a [float64]: against a [float64] matrix the
    conversion of the threshold is the identity. *)
Definition to_float64 (q : Q) : Q := q.

(** [(simmat >= thresh).astype('int8')].  NumPy compares in the dtype of
    the array: the Python float [thresh] is first converted to that dtype
    by [cast] ([to_float64] for a [float64] matrix, the rounding to
    [float32] for a matrix that [makeSimMat] built), and the cells are
    compared with the converted value. *)
Definition threshold_mask (cast : Q -> Q) (simmat : matrix) (thresh : Q)
  : list (list Z) :=
  List.map (List.map (fun v => astype_int8 (Qle_bool (cast thresh) v)))
           simmat.

(** The largest value an [int16] holds. *)
Definition int16_max : Z := 32767%Z.

(** ** The greedy pass of [simClassMap.__init__] *)

Record pass : Type := mkPass {
  classPrototypes : list nat;
  classMembers : list (list nat);
  classAssigned : list Z;
  indexMap : list nat;
  unclassified : Z;
  classno : Z;
  mask : list (list Z)
}.

Definition pass_start (cast : Q -> Q) (simmat : matrix) (thresh : Q)
  : pass :=
  let N := length simmat in
  mkPass [] [] (Np.zeros N) (Np.arange N) (Z.of_nat N) 0%Z
         (threshold_mask cast simmat thresh).

(** One execution of the body of the [while] loop. *)
Definition pass_body (s : pass) : res pass :=
  cp <- of_option ValueError (Np.argmaxZ (Np.sum_axis1 (mask s))) ;;
  proto <- of_option IndexError (nth_error (indexMap s) cp) ;;
  row <- of_option IndexError (nth_error (mask s) cp) ;;
  let m := Np.nonzero row in
  let unclassified' := (unclassified s - Z.of_nat (length m))%Z in
  members <- of_option IndexError (Np.take (indexMap s) m) ;;
  let classno' := (classno s + 1)%Z in
  assigned <- (if (classno' <=? int16_max)%Z
               then of_option IndexError
                      (Np.store (classAssigned s) members classno')
               else Raise OverflowError) ;;
  mask1 <- of_option IndexError (Np.delete (mask s) m) ;;
  mask2 <- of_option IndexError (Np.delete_axis1 mask1 m) ;;
  indexMap' <- of_option IndexError (Np.delete (indexMap s) m) ;;
  Ok (mkPass (classPrototypes s ++ [proto]) (classMembers s ++ [members])
             assigned indexMap' unclassified' classno' mask2).

(** [while unclassified > 0: body]. *)
Fixpoint pass_loop (fuel : nat) (s : pass) : res pass :=
  if (0 <? unclassified s)%Z then
    match fuel with
    | O => OutOfFuel
    | S fuel' => s' <- pass_body s ;; pass_loop fuel' s'
    end
  else Ok s.

(** ** The object *)

(** A dictionary of the class index.  [M] is what the key ['members'] holds:
    an index vector in [index], the tuple that [np.where] returns in
    [index2].  ['fraction'] is the float nearest to the quotient, kept here
    as the quotient itself. *)
Record entry (M : Type) : Type := mkEntry {
  entry_class : Z;
  entry_prototype : nat;
  entry_count : nat;
  entry_members : M;
  entry_fraction : Q
}.

(** The attributes of a [simClassMap].  Those with suffix 2 exist only once
    [augment] has assigned them. *)
Record simClassMap : Type := mkObj {
  thresh : Q;
  data : nat;
  simmat : matrix;
  prototypes : list nat;
  members : list (list nat);
  map : list Z;
  totalcount : nat;
  index : list (entry (list nat));
  data2 : option nat;
  simmat2 : option matrix;
  prototypes2 : option (list nat);
  map2 : option (list Z);
  totalcount2 : option nat;
  members2 : option (list (list (list nat)));
  index2 : option (list (entry (list (list nat))))
}.

Definition set_prototypes (self : simClassMap) (v : list nat) :=
  mkObj (thresh self) (data self) (simmat self) v (members self) (map self)
        (totalcount self) (index self) (data2 self) (simmat2 self)
        (prototypes2 self) (map2 self) (totalcount2 self) (members2 self)
        (index2 self).

Definition set_members (self : simClassMap) (v : list (list nat)) :=
  mkObj (thresh self) (data self) (simmat self) (prototypes self) v
        (map self) (totalcount self) (index self) (data2 self)
        (simmat2 self) (prototypes2 self) (map2 self) (totalcount2 self)
        (members2 self) (index2 self).

Definition set_map (self : simClassMap) (v : list Z) :=
  mkObj (thresh self) (data self) (simmat self) (prototypes self)
        (members self) v (totalcount self) (index self) (data2 self)
        (simmat2 self) (prototypes2 self) (map2 self) (totalcount2 self)
        (members2 self) (index2 self).

Definition set_index (self : simClassMap) (v : list (entry (list nat))) :=
  mkObj (thresh self) (data self) (simmat self) (prototypes self)
        (members self) (map self) (totalcount self) v (data2 self)
        (simmat2 self) (prototypes2 self) (map2 self) (totalcount2 self)
        (members2 self) (index2 self).

Inductive outcome : Type :=
| Returned
| Raised (e : exn).

(** The result of running a method: how it ended and the object then. *)
Definition effect : Type := (outcome * simClassMap)%type.

(** [count / total] of two Python integers. *)
Definition true_div (count total : nat) : option Q :=
  match total with
  | O => None
  | S _ => Some (inject_Z (Z.of_nat count) / inject_Z (Z.of_nat total))%Q
  end.

(** The loop that builds the class index,
    [for i in range(len(prototypes)): ... append({...})],
    from position [i] on; [protos] is what is left of the prototype vector.
    It returns the list as the loop left it and the exception, if any. *)
Fixpoint index_loop {M : Type} (protos : list nat) (i : nat)
    (membs : list (list M)) (total : nat) (acc : list (entry (list M)))
  : list (entry (list M)) * outcome :=
  match protos with
  | [] => (acc, Returned)
  | p :: rest =>
      match nth_error membs i with
      | None => (acc, Raised IndexError)
      | Some ms =>
          let count := length ms in
          match true_div count total with
          | None => (acc, Raised ZeroDivisionError)
          | Some f =>
              index_loop rest (S i) membs total
                (acc ++ [mkEntry (Z.of_nat i + 1) p count ms f])
          end
      end
  end.

(** [simClassMap(data, simmat, thresh)]; [cast] is the conversion of the
    threshold to the dtype of [simmat].  The object keeps [thresh] as it
    was given. *)
Definition __init__ (cast : Q -> Q) (fuel : nat) (data : nat)
    (simmat : matrix) (thresh : Q) : res simClassMap :=
  s <- pass_loop fuel (pass_start cast simmat thresh) ;;
  let totalcount := length (classAssigned s) in
  match index_loop (classPrototypes s) 0 (classMembers s) totalcount [] with
  | (classIndex, Returned) =>
      Ok (mkObj thresh data simmat (classPrototypes s) (classMembers s)
                (classAssigned s) totalcount classIndex
                None None None None None None None)
  | (_, Raised e) => Raise e
  end.

Definition option_map_all {A B : Type} (f : A -> option B)
  : list A -> option (list B) :=
  fix go l :=
    match l with
    | [] => Some []
    | x :: r =>
        match f x, go r with
        | Some y, Some ys => Some (y :: ys)
        | _, _ => None
        end
    end.

(** Column [j] of a matrix. *)
Definition column (m : matrix) (j : nat) : list Q :=
  List.map (fun row => nth j row 0%Q) m.

(** [np.argmax(m, axis=0)]: for each column the row of its first maximum;
    it raises when there is no row. *)
Definition argmax_axis0 (m : matrix) : option (list nat) :=
  match m with
  | [] => None
  | r :: _ =>
      option_map_all (fun j => Np.argmaxQ (column m j)) (seq 0 (length r))
  end.

(** [np.argmax(m, axis=1)]: for each row the column of its first maximum;
    it raises when a row is empty. *)
Definition argmax_axis1 (m : matrix) : option (list nat) :=
  option_map_all Np.argmaxQ m.

Definition plus_one (a : nat) : Z := (Z.of_nat a + 1)%Z.

(** [simClassMap.reassign].  An empty prototype vector raises:
    [ValueError] from [argmax] when it is an integer array (a slice of the
    prototypes), [IndexError] from the indexing when it is the float array
    that [np.array([])] gives after a creation or a [sort] of no class.
    The model does not carry the dtype of the vector and reports
    [ValueError] for both. *)
Definition reassign (self : simClassMap) : effect :=
  match Np.take (simmat self) (prototypes self) with
  | None => (Raised IndexError, self)
  | Some submat =>
      match argmax_axis0 submat with
      | None => (Raised ValueError, self)
      | Some am =>
          let self := set_map self (List.map plus_one am) in
          let self := set_members self [] in
          match Np.max (map self) with
          | None => (Raised ValueError, self)
          | Some top =>
              let self :=
                set_members self
                  (List.map (fun i => Np.where_eq (map self) (plus_one i))
                            (seq 0 (Z.to_nat top))) in
              let self := set_index self [] in
              let '(idx, out) :=
                index_loop (prototypes self) 0 (members self)
                           (totalcount self) [] in
              (out, set_index self idx)
          end
      end
  end.

(** [sorted(l, key=lambda c: c['count'], reverse=True)]: Python's sort is
    stable, also with [reverse=True]; insertion keeps an entry in front of
    the entries behind it that do not count more. *)
Fixpoint insert_desc {M : Type} (c : entry M) (l : list (entry M))
  : list (entry M) :=
  match l with
  | [] => [c]
  | d :: r => if entry_count c <? entry_count d then d :: insert_desc c r
              else c :: d :: r
  end.

Definition sorted_desc {M : Type} (l : list (entry M)) : list (entry M) :=
  fold_right insert_desc [] l.

(** [l[i]['class'] = v]. *)
Fixpoint set_class {M : Type} (i : nat) (v : Z) (l : list (entry M))
  : list (entry M) :=
  match l, i with
  | [], _ => []
  | c :: r, O =>
      mkEntry v (entry_prototype c) (entry_count c) (entry_members c)
              (entry_fraction c) :: r
  | c :: r, S i' => c :: set_class i' v r
  end.

(** The loop of [sort] from position [i] on; [cs] is what is left of the
    sorted index, [p] the local list of prototypes. *)
Fixpoint sort_loop (i : nat) (cs : list (entry (list nat))) (p : list nat)
    (self : simClassMap) : effect :=
  match cs with
  | [] => (Returned, set_prototypes self p)
  | c :: rest =>
      match nth_error (prototypes self) i with
      | None => (Raised IndexError, self)
      | Some q =>
          let iclass := plus_one i in
          let self := set_index self (set_class i iclass (index self)) in
          match Np.store (map self) (entry_members c) iclass with
          | None => (Raised IndexError, self)
          | Some mp =>
              let self := set_map self mp in
              let self := set_members self (members self ++ [entry_members c]) in
              sort_loop (S i) rest (p ++ [q]) self
          end
      end
  end.

(** [simClassMap.sort]. *)
Definition sort (self : simClassMap) : effect :=
  let self := set_index self (sorted_desc (index self)) in
  let self := set_map self (Np.zeros (length (map self))) in
  let self := set_members self [] in
  sort_loop 0 (index self) [] self.

(** [v[0:k]] for a Python integer [k]. *)
Definition slice_to {A : Type} (v : list A) (k : Z) : list A :=
  if (k <? 0)%Z then firstn (length v - Z.to_nat (- k)) v
  else firstn (Z.to_nat k) v.

(** [simClassMap.truncate]. *)
Definition truncate (maxclasses : Z) (self : simClassMap) : effect :=
  let self := set_prototypes self (slice_to (prototypes self) maxclasses) in
  match reassign self with
  | (Returned, self) => sort self
  | raised => raised
  end.

Definition decimal (n : nat) : string :=
  NilEmpty.string_of_uint (Nat.to_uint n).

(** The message of the exception of [augment]. *)
Definition shape_message (M M' : nat) : string :=
  ("First dimension " ++ decimal M
   ++ " of data array doesn't match first dimension " ++ decimal M'
   ++ " of similarity matrix")%string.

Definition set_secondary (self : simClassMap)
    (d : option nat) (s : option matrix) (p : option (list nat))
    (m : option (list Z)) (t : option nat)
    (ms : option (list (list (list nat))))
    (ix : option (list (entry (list (list nat))))) :=
  mkObj (thresh self) (data self) (simmat self) (prototypes self)
        (members self) (map self) (totalcount self) (index self)
        d s p m t ms ix.

(** [simClassMap.augment(datafull, simmat2)]; [datafull] is given by its
    first dimension.  [np.where(...)] is kept as the tuple it is: one index
    vector for the one dimension of [map2]. *)
Definition augment (datafull : nat) (simmat2' : matrix)
    (self : simClassMap) : effect :=
  let M := datafull in
  if negb (M =? length simmat2') then
    (Raised (Exception (shape_message M (length simmat2'))), self)
  else
    let self := set_secondary self (Some datafull) (Some simmat2')
                  (prototypes2 self) (map2 self) (totalcount2 self)
                  (members2 self) (index2 self) in
    match argmax_axis0 simmat2' with
    | None => (Raised ValueError, self)
    | Some p2 =>
        let self := set_secondary self (data2 self) (simmat2 self) (Some p2)
                      (map2 self) (totalcount2 self) (members2 self)
                      (index2 self) in
        match argmax_axis1 simmat2' with
        | None => (Raised ValueError, self)
        | Some am =>
            let m2 := List.map plus_one am in
            let self := set_secondary self (data2 self) (simmat2 self)
                          (prototypes2 self) (Some m2) (Some M)
                          (members2 self) (index2 self) in
            match Np.max m2 with
            | None => (Raised ValueError, self)
            | Some top =>
                let classMembers2 :=
                  List.map (fun i => [Np.where_eq m2 (plus_one i)])
                           (seq 0 (Z.to_nat top)) in
                let self := set_secondary self (data2 self) (simmat2 self)
                              (prototypes2 self) (map2 self)
                              (totalcount2 self) (Some classMembers2)
                              (index2 self) in
                match index_loop p2 0 classMembers2 M [] with
                | (classIndex, Returned) =>
                    (Returned,
                     set_secondary self (data2 self) (simmat2 self)
                       (prototypes2 self) (map2 self) (totalcount2 self)
                       (members2 self) (Some classIndex))
                | (_, raised) => (raised, self)
                end
            end
        end
    end.

(** * Properties of the primitives *)

(** A conversion that is monotone and keeps 1, as a rounding to nearest,
    keeps a threshold of at most 1 at most 1. *)
Lemma cast_le_one (cast : Q -> Q) (t : Q) :
  (forall a b, (a <= b)%Q -> (cast a <= cast b)%Q) ->
  (cast 1 == 1)%Q -> (t <= 1)%Q -> (cast t <= 1)%Q.
Proof.
  intros Hmono Hone Ht. rewrite <- Hone. apply Hmono. exact Ht.
Qed.

Unset Implicit Arguments.

Section ArgmaxSpec.
Variable A : Type.
Variable ltb : A -> A -> bool.
Hypothesis ltb_le_lt : forall a b c,
  ltb a b = false -> ltb a c = true -> ltb b c = true.
Hypothesis ltb_asym : forall a b, ltb a b = true -> ltb b a = false.

(** [a] is the position of the first maximum of [l]. *)
Definition first_max (l : list A) (a : nat) : Prop :=
  exists va, nth_error l a = Some va
    /\ (forall j v, nth_error l j = Some v -> ltb va v = false)
    /\ (forall j v, j < a -> nth_error l j = Some v -> ltb v va = true).

Lemma argmax_from_first_max (l : list A) : forall pre bi b,
  nth_error pre bi = Some b ->
  (forall j v, nth_error pre j = Some v -> ltb b v = false) ->
  (forall j v, j < bi -> nth_error pre j = Some v -> ltb v b = true) ->
  first_max (pre ++ l) (Np.argmax_from ltb bi b (length pre) l).
Proof.
  induction l as [|x r IH]; intros pre bi b Hb Hmax Hbefore; simpl.
  - rewrite app_nil_r. exists b. auto.
  - assert (Hlen : length (pre ++ [x]) = S (length pre))
      by (rewrite length_app; simpl; lia).
    replace (pre ++ x :: r) with ((pre ++ [x]) ++ r)
      by (rewrite <- app_assoc; reflexivity).
    rewrite <- Hlen.
    destruct (ltb b x) eqn:Hbx.
    + apply IH.
      * rewrite nth_error_app2 by lia.
        rewrite Nat.sub_diag. reflexivity.
      * intros j v Hj.
        destruct (Nat.lt_ge_cases j (length pre)) as [Hlt|Hge].
        -- rewrite nth_error_app1 in Hj by assumption.
           apply ltb_asym. apply (@ltb_le_lt b v x); [|assumption].
           eapply Hmax; eassumption.
        -- rewrite nth_error_app2 in Hj by assumption.
           destruct (j - length pre) as [|k]; simpl in Hj.
           ++ injection Hj as <-.
              destruct (ltb x x) eqn:Hxx; [|reflexivity].
              apply ltb_asym in Hxx as Hxx'. congruence.
           ++ destruct k; discriminate.
      * intros j v Hj Hv.
        rewrite nth_error_app1 in Hv by lia.
        apply (@ltb_le_lt b v x); [|assumption].
        eapply Hmax; eassumption.
    + apply IH.
      * rewrite nth_error_app1; [assumption|].
        apply nth_error_Some. congruence.
      * intros j v Hj.
        destruct (Nat.lt_ge_cases j (length pre)) as [Hlt|Hge].
        -- rewrite nth_error_app1 in Hj by assumption. eauto.
        -- rewrite nth_error_app2 in Hj by assumption.
           destruct (j - length pre) as [|k]; simpl in Hj.
           ++ injection Hj as <-. assumption.
           ++ destruct k; discriminate.
      * intros j v Hj Hv.
        assert (bi < length pre) by (apply nth_error_Some; congruence).
        rewrite nth_error_app1 in Hv by lia. eauto.
Qed.

Lemma argmax_first_max (l : list A) (a : nat) :
  Np.argmax ltb l = Some a -> first_max l a.
Proof.
  destruct l as [|x r]; simpl; [discriminate|].
  intros [= <-].
  apply (@argmax_from_first_max r [x] 0 x).
  - reflexivity.
  - intros [|[|j]] v; simpl; try discriminate.
    intros [= <-]. destruct (ltb x x) eqn:Hxx; [|reflexivity].
    apply ltb_asym in Hxx as Hxx'. congruence.
  - intros j v Hj. lia.
Qed.

Lemma argmax_some (l : list A) :
  l <> [] -> exists a, Np.argmax ltb l = Some a.
Proof. destruct l; [congruence|]. simpl. eauto. Qed.

Lemma first_max_lt (l : list A) (a : nat) : first_max l a -> a < length l.
Proof.
  intros (va & Ha & _). apply nth_error_Some. congruence.
Qed.

(** A position that holds a value above all earlier ones and not below
    any later one is the first maximum. *)
Lemma first_max_unique (l : list A) (a b : nat) :
  first_max l a -> first_max l b -> a = b.
Proof.
  intros (va & Ha & Hamax & Hafirst) (vb & Hb & Hbmax & Hbfirst).
  destruct (Nat.lt_trichotomy a b) as [Hlt|[Heq|Hgt]]; [|assumption|].
  - specialize (Hbfirst a va Hlt Ha). specialize (Hamax b vb Hb).
    apply ltb_asym in Hbfirst as H'. congruence.
  - specialize (Hafirst b vb Hgt Hb). specialize (Hbmax a va Ha).
    apply ltb_asym in Hafirst as H'. congruence.
Qed.
End ArgmaxSpec.

Arguments first_max {A} ltb l a.

Lemma Zltb_le_lt (a b c : Z) :
  (a <? b)%Z = false -> (a <? c)%Z = true -> (b <? c)%Z = true.
Proof. rewrite Z.ltb_ge, !Z.ltb_lt. lia. Qed.

Lemma Zltb_asym (a b : Z) : (a <? b)%Z = true -> (b <? a)%Z = false.
Proof. rewrite Z.ltb_ge, Z.ltb_lt. lia. Qed.

Lemma Qltb_lt (x y : Q) : Np.Qltb x y = true <-> (x < y)%Q.
Proof.
  unfold Np.Qltb. rewrite negb_true_iff.
  rewrite <- not_true_iff_false, Qle_bool_iff. split.
  - apply Qnot_le_lt.
  - apply Qlt_not_le.
Qed.

Lemma Qltb_ge (x y : Q) : Np.Qltb x y = false <-> (y <= x)%Q.
Proof.
  unfold Np.Qltb. rewrite negb_false_iff. apply Qle_bool_iff.
Qed.

Lemma Qltb_le_lt (a b c : Q) :
  Np.Qltb a b = false -> Np.Qltb a c = true -> Np.Qltb b c = true.
Proof.
  rewrite Qltb_ge, !Qltb_lt. intros. eapply Qle_lt_trans; eauto.
Qed.

Lemma Qltb_asym (a b : Q) : Np.Qltb a b = true -> Np.Qltb b a = false.
Proof. rewrite Qltb_ge, Qltb_lt. apply Qlt_le_weak. Qed.

(** ** Index vectors from [nonzero]: selection and deletion as filters *)

(** The entries of [xs] at the positions where [v] is non-zero. *)
Fixpoint keep {A : Type} (v : list Z) (xs : list A) : list A :=
  match v, xs with
  | x :: r, a :: s => if (x =? 0)%Z then keep r s else a :: keep r s
  | _, _ => []
  end.

(** The entries of [xs] at the positions where [v] is zero. *)
Fixpoint omit {A : Type} (v : list Z) (xs : list A) : list A :=
  match v, xs with
  | x :: r, a :: s => if (x =? 0)%Z then a :: omit r s else omit r s
  | _, _ => xs
  end.

Lemma nonzero_from_bounds (v : list Z) : forall k i,
  In i (Np.nonzero_from k v) -> k <= i < k + length v.
Proof.
  induction v as [|x r IH]; simpl; intros k i Hi; [contradiction|].
  destruct (x =? 0)%Z.
  - apply IH in Hi. lia.
  - destruct Hi as [<-|Hi]; [lia|]. apply IH in Hi. lia.
Qed.

Lemma existsb_nonzero_below (v : list Z) (k j : nat) :
  j < k -> existsb (Nat.eqb j) (Np.nonzero_from k v) = false.
Proof.
  intros Hj. apply not_true_iff_false. intros H.
  apply existsb_exists in H as (i & Hi & Heq).
  apply Nat.eqb_eq in Heq. subst i.
  apply nonzero_from_bounds in Hi. lia.
Qed.

Lemma take_nonzero_from {A : Type} (v : list Z) :
  forall (xs pre : list A), length v <= length xs ->
  Np.take (pre ++ xs) (Np.nonzero_from (length pre) v) = Some (keep v xs).
Proof.
  induction v as [|x r IH]; intros xs pre Hlen; simpl; [reflexivity|].
  destruct xs as [|a s]; simpl in Hlen; [lia|].
  assert (Hstep : Np.take (pre ++ a :: s) (Np.nonzero_from (S (length pre)) r)
                  = Some (keep r s)).
  { replace (pre ++ a :: s) with ((pre ++ [a]) ++ s)
      by (rewrite <- app_assoc; reflexivity).
    replace (S (length pre)) with (length (pre ++ [a]))
      by (rewrite length_app; simpl; lia).
    apply IH. lia. }
  destruct (x =? 0)%Z; [assumption|].
  simpl. rewrite Hstep, nth_error_app2 by lia.
  rewrite Nat.sub_diag. reflexivity.
Qed.

Lemma take_nonzero {A : Type} (v : list Z) (xs : list A) :
  length v <= length xs -> Np.take xs (Np.nonzero v) = Some (keep v xs).
Proof. intros H. apply (take_nonzero_from v xs [] H). Qed.

Lemma delete_from_cons_lt {A : Type} (xs : list A) : forall k k0 idx,
  k0 < k -> Np.delete_from k xs (k0 :: idx) = Np.delete_from k xs idx.
Proof.
  induction xs as [|a s IH]; intros k k0 idx Hlt; simpl; [reflexivity|].
  replace (k =? k0) with false by (symmetry; apply Nat.eqb_neq; lia).
  simpl. rewrite IH by lia. reflexivity.
Qed.

Lemma delete_from_nonzero {A : Type} (v : list Z) : forall (xs : list A) k,
  Np.delete_from k xs (Np.nonzero_from k v) = omit v xs.
Proof.
  induction v as [|x r IH]; intros xs k; simpl.
  - induction xs as [|a s IHs] in k |- *; simpl; [reflexivity|].
    rewrite IHs. reflexivity.
  - destruct xs as [|a s]; [destruct (x =? 0)%Z; reflexivity|].
    destruct (x =? 0)%Z; simpl.
    + rewrite existsb_nonzero_below by lia. rewrite IH. reflexivity.
    + rewrite Nat.eqb_refl. simpl.
      rewrite delete_from_cons_lt by lia. apply IH.
Qed.

Lemma delete_nonzero {A : Type} (v : list Z) (xs : list A) :
  length v <= length xs -> Np.delete xs (Np.nonzero v) = Some (omit v xs).
Proof.
  intros Hlen. unfold Np.delete, Np.nonzero.
  rewrite delete_from_nonzero.
  replace (forallb _ _) with true; [reflexivity|].
  symmetry. apply forallb_forall. intros i Hi.
  apply nonzero_from_bounds in Hi. apply Nat.ltb_lt. lia.
Qed.

Lemma keep_map {A B : Type} (f : A -> bool) (g : A -> B) (l : list A) :
  keep (List.map (fun a => astype_int8 (f a)) l) (List.map g l)
  = List.map g (filter f l).
Proof.
  induction l as [|a l IH]; simpl; [reflexivity|].
  destruct (f a); simpl; rewrite IH; reflexivity.
Qed.

Lemma omit_map {A B : Type} (f : A -> bool) (g : A -> B) (l : list A) :
  omit (List.map (fun a => astype_int8 (f a)) l) (List.map g l)
  = List.map g (filter (fun a => negb (f a)) l).
Proof.
  induction l as [|a l IH]; simpl; [reflexivity|].
  destruct (f a); simpl; rewrite IH; reflexivity.
Qed.

Lemma sum_mask_row {A : Type} (f : A -> bool) (l : list A) :
  Np.sum (List.map (fun a => astype_int8 (f a)) l)
  = Z.of_nat (length (filter f l)).
Proof.
  unfold Np.sum. induction l as [|a l IH]; simpl; [reflexivity|].
  rewrite IH. destruct (f a); simpl length; unfold astype_int8; lia.
Qed.

Lemma length_nonzero_from {A : Type} (f : A -> bool) (l : list A) (k : nat) :
  length (Np.nonzero_from k (List.map (fun a => astype_int8 (f a)) l))
  = length (filter f l).
Proof.
  induction l as [|a l IH] in k |- *; simpl; [reflexivity|].
  destruct (f a); simpl; rewrite IH; reflexivity.
Qed.

Lemma delete_axis1_nonzero {A : Type} (v : list Z) (m : list (list A)) :
  (forall row, In row m -> length v <= length row) ->
  Np.delete_axis1 m (Np.nonzero v) = Some (List.map (omit v) m).
Proof.
  induction m as [|row m IH]; intros Hrows; simpl; [reflexivity|].
  rewrite delete_nonzero by (apply Hrows; left; reflexivity).
  rewrite IH by (intros; apply Hrows; right; assumption).
  reflexivity.
Qed.

(** [v[idx] = c]: what a position holds afterwards. *)
Lemma nth_error_store_from (v : list Z) (idx : list nat) (c : Z) :
  forall k i,
  nth_error (Np.store_from k v idx c) i
  = if existsb (Nat.eqb (k + i)) idx
    then option_map (fun _ => c) (nth_error v i)
    else nth_error v i.
Proof.
  induction v as [|x r IH]; intros k i; simpl.
  - destruct i; destruct (existsb _ idx); reflexivity.
  - destruct i as [|i]; simpl.
    + rewrite Nat.add_0_r. destruct (existsb _ idx); reflexivity.
    + rewrite IH. replace (S k + i) with (k + S i) by lia. reflexivity.
Qed.

Lemma length_store_from (v : list Z) (idx : list nat) (c : Z) (k : nat) :
  length (Np.store_from k v idx c) = length v.
Proof.
  induction v as [|x r IH] in k |- *; simpl; [reflexivity|].
  rewrite IH. reflexivity.
Qed.

Lemma existsb_eqb_In (i : nat) (l : list nat) :
  existsb (Nat.eqb i) l = true <-> In i l.
Proof.
  rewrite existsb_exists. split.
  - intros (x & Hx & Heq). apply Nat.eqb_eq in Heq. subst. assumption.
  - intros H. exists i. split; [assumption|apply Nat.eqb_refl].
Qed.

Lemma store_some (v : list Z) (idx : list nat) (c : Z) :
  (forall i, In i idx -> i < length v) ->
  Np.store v idx c = Some (Np.store_from 0 v idx c).
Proof.
  intros H. unfold Np.store.
  replace (forallb _ _) with true; [reflexivity|].
  symmetry. apply forallb_forall. intros i Hi.
  apply Nat.ltb_lt. auto.
Qed.

(** ** The live sub-mask *)

(** [simmat[i][j] >= thresh]. *)
Definition adjacent (simmat : matrix) (thresh : Q) (i j : nat) : bool :=
  Qle_bool thresh (get simmat i j).

(** The thresholded matrix restricted to the rows and columns in [live]. *)
Definition sub_mask (adj : nat -> nat -> bool) (live : list nat)
  : list (list Z) :=
  List.map (fun i => List.map (fun j => astype_int8 (adj i j)) live) live.

(** The number of live indices adjacent to [i]. *)
Definition degree (adj : nat -> nat -> bool) (live : list nat) (i : nat)
  : nat :=
  length (filter (adj i) live).

Definition square (N : nat) (m : matrix) : Prop :=
  length m = N /\ forall row, In row m -> length row = N.

Lemma list_as_map_seq {A : Type} (d : A) (l : list A) :
  l = List.map (fun i => nth i l d) (seq 0 (length l)).
Proof.
  induction l as [|a l IH]; simpl; [reflexivity|].
  f_equal. rewrite <- seq_shift, map_map. simpl. exact IH.
Qed.

Lemma threshold_mask_sub_mask {cast : Q -> Q}
    (N : nat) (simmat : matrix) (thresh : Q) :
  square N simmat ->
  threshold_mask cast simmat thresh
  = sub_mask (adjacent simmat (cast thresh)) (seq 0 N).
Proof.
  intros [Hlen Hrows]. unfold threshold_mask, sub_mask.
  rewrite (list_as_map_seq [] simmat) at 1.
  rewrite map_map, Hlen. apply map_ext_in. intros i Hi.
  apply in_seq in Hi.
  assert (Hrow : length (nth i simmat []) = N).
  { apply Hrows, nth_In. lia. }
  rewrite (list_as_map_seq 0%Q (nth i simmat [])) at 1.
  rewrite map_map, Hrow. reflexivity.
Qed.

Lemma sum_axis1_sub_mask (adj : nat -> nat -> bool) (live : list nat) :
  Np.sum_axis1 (sub_mask adj live)
  = List.map (fun i => Z.of_nat (degree adj live i)) live.
Proof.
  unfold Np.sum_axis1, sub_mask. rewrite map_map.
  apply map_ext. intros i. apply sum_mask_row.
Qed.

(** What one turn of the loop does, on a state whose mask is the live
    sub-mask: the first live row of highest degree becomes the prototype,
    its live neighbours are the members and leave the live list. *)
Definition pass_next (adj : nat -> nat -> bool) (s : pass) (p : nat) : pass :=
  let live := indexMap s in
  let members := filter (adj p) live in
  let live' := filter (fun j => negb (adj p j)) live in
  mkPass (classPrototypes s ++ [p]) (classMembers s ++ [members])
         (Np.store_from 0 (classAssigned s) members (classno s + 1)%Z)
         live' (unclassified s - Z.of_nat (length members))%Z
         (classno s + 1)%Z (sub_mask adj live').

Lemma pass_body_ok (adj : nat -> nat -> bool) (s : pass) :
  mask s = sub_mask adj (indexMap s) ->
  indexMap s <> [] ->
  (forall i, In i (indexMap s) -> i < length (classAssigned s)) ->
  exists cp p,
    first_max Z.ltb
      (List.map (fun i => Z.of_nat (degree adj (indexMap s) i)) (indexMap s))
      cp
    /\ nth_error (indexMap s) cp = Some p
    /\ pass_body s = if (classno s + 1 <=? int16_max)%Z
                     then Ok (pass_next adj s p) else Raise OverflowError.
Proof.
  intros Hmask Hne Hrange.
  set (live := indexMap s) in *.
  set (degs := List.map (fun i => Z.of_nat (degree adj live i)) live).
  destruct (@argmax_some Z Z.ltb degs) as [cp Hcp].
  { unfold degs. destruct live; [congruence|discriminate]. }
  pose proof (@argmax_first_max Z Z.ltb Zltb_le_lt Zltb_asym degs cp Hcp)
    as Hfirst.
  pose proof (@first_max_lt Z Z.ltb degs cp Hfirst) as Hlt.
  unfold degs in Hlt. rewrite length_map in Hlt.
  destruct (nth_error live cp) as [p|] eqn:Hp;
    [|apply nth_error_None in Hp; lia].
  exists cp, p. split; [exact Hfirst|]. split; [exact Hp|].
  set (row := List.map (fun j => astype_int8 (adj p j)) live).
  assert (Hrow : nth_error (mask s) cp = Some row).
  { rewrite Hmask. unfold sub_mask.
    rewrite nth_error_map. fold live. rewrite Hp. reflexivity. }
  assert (Hrowlen : length row = length live)
    by (unfold row; apply length_map).
  unfold pass_body.
  rewrite Hmask, sum_axis1_sub_mask. fold live. fold degs.
  unfold Np.argmaxZ. rewrite Hcp. simpl bind.
  rewrite Hp. simpl bind. rewrite <- Hmask, Hrow. simpl bind.
  assert (Htake : Np.take live (Np.nonzero row) = Some (filter (adj p) live)).
  { rewrite take_nonzero by lia. unfold row.
    rewrite <- (map_id live) at 2. rewrite keep_map, map_id. reflexivity. }
  rewrite Htake. simpl bind.
  destruct (classno s + 1 <=? int16_max)%Z; [|reflexivity].
  rewrite store_some.
  2:{ intros i Hi. apply Hrange. apply filter_In in Hi. apply Hi. }
  simpl bind.
  assert (Hdel0 : Np.delete (mask s) (Np.nonzero row)
                  = Some (List.map
                            (fun i => List.map
                                        (fun j => astype_int8 (adj i j)) live)
                            (filter (fun j => negb (adj p j)) live))).
  { rewrite Hmask. unfold sub_mask. fold live.
    rewrite delete_nonzero by (rewrite length_map; lia).
    unfold row. rewrite omit_map. reflexivity. }
  rewrite Hdel0. simpl bind.
  rewrite delete_axis1_nonzero.
  2:{ intros r Hr. apply in_map_iff in Hr as (i & <- & _).
      rewrite length_map. lia. }
  simpl bind.
  rewrite delete_nonzero by lia. simpl bind.
  unfold pass_next. fold live. f_equal. f_equal.
  - unfold row. rewrite <- (map_id live) at 2.
    rewrite omit_map, map_id. reflexivity.
  - unfold Np.nonzero, row. rewrite length_nonzero_from. reflexivity.
  - unfold sub_mask. rewrite map_map. apply map_ext. intros i.
    unfold row. apply omit_map.
Qed.

Lemma filter_split_perm {A : Type} (f : A -> bool) (l : list A) :
  Permutation (filter f l ++ filter (fun a => negb (f a)) l) l.
Proof.
  induction l as [|a l IH]; simpl; [constructor|].
  destruct (f a); simpl.
  - constructor. exact IH.
  - apply Permutation_sym, Permutation_cons_app, Permutation_sym, IH.
Qed.

Lemma filter_split_length {A : Type} (f : A -> bool) (l : list A) :
  length (filter f l) + length (filter (fun a => negb (f a)) l) = length l.
Proof.
  rewrite <- length_app. apply Permutation_length, filter_split_perm.
Qed.

Lemma filter_length_incl {A : Type} (f g : A -> bool) (l : list A) :
  length (filter f (filter g l)) <= length (filter f l).
Proof.
  induction l as [|a l IH]; simpl; [lia|].
  destruct (g a), (f a) eqn:Hf; simpl; rewrite ?Hf; simpl; lia.
Qed.

Lemma filter_sorted (f : nat -> bool) (l : list nat) :
  StronglySorted lt l -> StronglySorted lt (filter f l).
Proof.
  induction 1 as [|a l Hs IH Hall]; simpl; [constructor|].
  destruct (f a); [|assumption].
  constructor; [assumption|].
  rewrite Forall_forall in *. intros x Hx.
  apply filter_In in Hx. apply Hall, Hx.
Qed.

Lemma first_max_degree (adj : nat -> nat -> bool) (live : list nat)
    (cp p : nat) :
  first_max Z.ltb
    (List.map (fun i => Z.of_nat (degree adj live i)) live) cp ->
  nth_error live cp = Some p ->
  forall cq q, nth_error live cq = Some q ->
    degree adj live q <= degree adj live p
    /\ (cq < cp -> degree adj live q < degree adj live p).
Proof.
  intros (va & Hva & Hmax & Hfirst) Hp cq q Hq.
  rewrite nth_error_map, Hp in Hva. injection Hva as <-.
  assert (Hdq : nth_error
                  (List.map (fun i => Z.of_nat (degree adj live i)) live) cq
                = Some (Z.of_nat (degree adj live q)))
    by (rewrite nth_error_map, Hq; reflexivity).
  split.
  - specialize (Hmax _ _ Hdq). apply Z.ltb_ge in Hmax. lia.
  - intros Hlt. specialize (Hfirst _ _ Hlt Hdq).
    apply Z.ltb_lt in Hfirst. lia.
Qed.

Lemma NoDup_app_disjoint {A : Type} (l1 l2 : list A) (a : A) :
  NoDup (l1 ++ l2) -> In a l1 -> ~ In a l2.
Proof.
  induction l1 as [|x l1 IH]; simpl; intros Hnd Hin; [contradiction|].
  apply NoDup_cons_iff in Hnd as [Hx Hnd].
  destruct Hin as [<-|Hin]; [|auto].
  intros H. apply Hx, in_or_app. right. exact H.
Qed.

(** * The greedy pass *)

Section Pass.
Variable adj : nat -> nat -> bool.
Variable N : nat.

Set Implicit Arguments.
(** What holds of the loop state at every test of [unclassified > 0]. *)
Record pass_inv (s : pass) : Prop := mkPassInv {
  pi_mask : mask s = sub_mask adj (indexMap s);
  pi_unclassified : unclassified s = Z.of_nat (length (indexMap s));
  pi_len_assigned : length (classAssigned s) = N;
  pi_perm :
    Permutation (concat (classMembers s) ++ indexMap s) (seq 0 N);
  pi_classno : classno s = Z.of_nat (length (classMembers s));
  pi_len_protos :
    length (classPrototypes s) = length (classMembers s);
  pi_live_zero : forall i,
    In i (indexMap s) -> nth_error (classAssigned s) i = Some 0%Z;
  pi_assigned : forall c ms i,
    nth_error (classMembers s) c = Some ms -> In i ms ->
    nth_error (classAssigned s) i = Some (plus_one c);
  pi_sorted : StronglySorted lt (indexMap s)
}.
Unset Implicit Arguments.


Lemma pass_inv_live_lt (s : pass) (i : nat) :
  pass_inv s -> In i (indexMap s) -> i < N.
Proof.
  intros Hinv Hi.
  assert (In i (seq 0 N)) as H.
  { eapply Permutation_in; [apply (pi_perm Hinv)|].
    apply in_or_app. right. exact Hi. }
  apply in_seq in H. lia.
Qed.

Lemma pass_inv_member_lt (s : pass) (ms : list nat) (i : nat) :
  pass_inv s -> In ms (classMembers s) -> In i ms -> i < N.
Proof.
  intros Hinv Hms Hi.
  assert (In i (seq 0 N)) as H.
  { eapply Permutation_in; [apply (pi_perm Hinv)|].
    apply in_or_app. left. apply in_concat. eauto. }
  apply in_seq in H. lia.
Qed.

Lemma pass_inv_member_not_live (s : pass) (ms : list nat) (i : nat) :
  pass_inv s -> In ms (classMembers s) -> In i ms ->
  ~ In i (indexMap s).
Proof.
  intros Hinv Hms Hi Hlive.
  assert (Hnd : NoDup (concat (classMembers s) ++ indexMap s)).
  { eapply Permutation_NoDup; [apply Permutation_sym, (pi_perm Hinv)|].
    apply seq_NoDup. }
  apply (NoDup_app_disjoint _ _ i Hnd); [|assumption].
  apply in_concat. eauto.
Qed.

Lemma nth_error_store (v : list Z) (idx : list nat) (c : Z) (i : nat) :
  i < length v ->
  nth_error (Np.store_from 0 v idx c) i
  = if existsb (Nat.eqb i) idx then Some c else nth_error v i.
Proof.
  intros Hi. rewrite nth_error_store_from. simpl.
  destruct (existsb _ idx); [|reflexivity].
  destruct (nth_error v i) eqn:E; [reflexivity|].
  apply nth_error_None in E. lia.
Qed.

Lemma pass_inv_next (s : pass) (p : nat) :
  pass_inv s -> pass_inv (pass_next adj s p).
Proof.
  intros Hinv. destruct Hinv as
    [Hmask Hun Hlen Hperm Hcls Hlp Hzero Hass Hsorted].
  pose proof (mkPassInv s Hmask Hun Hlen Hperm Hcls Hlp Hzero Hass Hsorted)
    as Hinv.
  set (live := indexMap s) in *.
  constructor; unfold pass_next; fold live; simpl.
  - reflexivity.
  - rewrite Hun. pose proof (filter_split_length (adj p) live). lia.
  - rewrite length_store_from. exact Hlen.
  - rewrite concat_app. simpl. rewrite app_nil_r, <- app_assoc.
    etransitivity; [|exact Hperm].
    apply Permutation_app_head, filter_split_perm.
  - rewrite Hcls, length_app. simpl. lia.
  - rewrite !length_app. simpl. lia.
  - intros i Hi. apply filter_In in Hi as [Hi Hadj].
    rewrite nth_error_store
      by (rewrite Hlen; eapply pass_inv_live_lt; eauto).
    replace (existsb _ _) with false; [auto|].
    symmetry. apply not_true_iff_false. intros H.
    apply existsb_eqb_In, filter_In in H as [_ H].
    rewrite H in Hadj. discriminate.
  - intros c ms i Hms Hi.
    destruct (Nat.lt_ge_cases c (length (classMembers s))) as [Hc|Hc].
    + rewrite nth_error_app1 in Hms by assumption.
      assert (Hin : In ms (classMembers s))
        by (eapply nth_error_In; eauto).
      rewrite nth_error_store
        by (rewrite Hlen; eapply pass_inv_member_lt; eauto).
      replace (existsb _ _) with false; [eauto|].
      symmetry. apply not_true_iff_false. intros H.
      apply existsb_eqb_In, filter_In in H as [H _].
      eapply pass_inv_member_not_live; eauto.
    + rewrite nth_error_app2 in Hms by assumption.
      destruct (c - length (classMembers s)) as [|k] eqn:Hk;
        simpl in Hms; [|destruct k; discriminate].
      injection Hms as <-.
      assert (c = length (classMembers s)) by lia. subst c.
      apply filter_In in Hi as Hi'.
      rewrite nth_error_store
        by (rewrite Hlen; eapply pass_inv_live_lt; [eauto|apply Hi']).
      replace (existsb _ _) with true
        by (symmetry; apply existsb_eqb_In; exact Hi).
      rewrite Hcls. reflexivity.
  - apply filter_sorted. exact Hsorted.
Qed.
End Pass.

Section PassRun.
Variable adj : nat -> nat -> bool.
Variable N : nat.
Hypothesis adj_diag : forall i, i < N -> adj i i = true.

Set Implicit Arguments.
(** Prototypes are members of their class and are not adjacent to
    anything classified later. *)
Record pass_sep (s : pass) : Prop := mkPassSep {
  ps_member : forall c p ms,
    nth_error (classPrototypes s) c = Some p ->
    nth_error (classMembers s) c = Some ms -> In p ms;
  ps_live : forall p j,
    In p (classPrototypes s) -> In j (indexMap s) -> adj p j = false;
  ps_protos : forall c c' p p',
    c < c' -> nth_error (classPrototypes s) c = Some p ->
    nth_error (classPrototypes s) c' = Some p' -> adj p p' = false
}.

(** No live row has more live neighbours than a class has members, and
    no class has more members than an earlier one. *)
Record pass_sizes (s : pass) : Prop := mkPassSizes {
  pz_live : forall ms i,
    In ms (classMembers s) -> In i (indexMap s) ->
    degree adj (indexMap s) i <= length ms;
  pz_sorted : forall c c' ms ms',
    c < c' -> nth_error (classMembers s) c = Some ms ->
    nth_error (classMembers s) c' = Some ms' -> length ms' <= length ms
}.
Unset Implicit Arguments.


Lemma nth_error_snoc {A : Type} (l : list A) (a x : A) (c : nat) :
  nth_error (l ++ [a]) c = Some x ->
  (c < length l /\ nth_error l c = Some x) \/ (c = length l /\ x = a).
Proof.
  intros H. destruct (Nat.lt_ge_cases c (length l)) as [Hc|Hc].
  - rewrite nth_error_app1 in H by assumption. auto.
  - rewrite nth_error_app2 in H by assumption.
    destruct (c - length l) as [|k] eqn:Hk; simpl in H;
      [|destruct k; discriminate].
    injection H as <-. right. split; [lia|reflexivity].
Qed.

Lemma pass_sep_next (s : pass) (p : nat) :
  pass_inv adj N s -> pass_sep s -> In p (indexMap s) ->
  pass_sep (pass_next adj s p).
Proof.
  intros Hinv [Hmem Hlive Hprot] Hp.
  pose proof (pi_len_protos Hinv) as Hlen.
  constructor; unfold pass_next; simpl.
  - intros c q ms Hq Hms.
    apply nth_error_snoc in Hq as [[Hc Hq]|[Hc ->]];
      apply nth_error_snoc in Hms as [[Hc' Hms]|[Hc' ->]]; try lia.
    + eauto.
    + apply filter_In. split; [assumption|].
      apply adj_diag. eapply pass_inv_live_lt; eauto.
  - intros q j Hq Hj. apply filter_In in Hj as [Hj Hadj].
    apply in_app_or in Hq as [Hq|[<-|[]]]; [eauto|].
    apply negb_true_iff. exact Hadj.
  - intros c c' q q' Hcc Hq Hq'.
    apply nth_error_snoc in Hq as [[Hc Hq]|[Hc ->]];
      apply nth_error_snoc in Hq' as [[Hc' Hq']|[Hc' ->]]; try lia.
    + eauto.
    + apply Hlive; [|assumption]. eapply nth_error_In; eauto.
Qed.

Lemma pass_sizes_next (s : pass) (p : nat) :
  pass_sizes s -> In p (indexMap s) ->
  (forall q, In q (indexMap s) ->
     degree adj (indexMap s) q <= degree adj (indexMap s) p) ->
  pass_sizes (pass_next adj s p).
Proof.
  intros [Hlive Hsorted] Hp Hmax.
  constructor; unfold pass_next; simpl.
  - intros ms i Hms Hi. apply filter_In in Hi as [Hi _].
    etransitivity; [apply filter_length_incl|].
    apply in_app_or in Hms as [Hms|[<-|[]]].
    + exact (Hlive ms i Hms Hi).
    + exact (Hmax i Hi).
  - intros c c' ms ms' Hcc Hms Hms'.
    apply nth_error_snoc in Hms as [[Hc Hms]|[Hc ->]];
      apply nth_error_snoc in Hms' as [[Hc' Hms']|[Hc' ->]]; try lia.
    + eauto.
    + apply (Hlive ms p); [|assumption]. eapply nth_error_In; eauto.
Qed.

Definition pass_good (s : pass) : Prop :=
  pass_inv adj N s /\ pass_sep s /\ pass_sizes s.

(** The turn of the loop taken from a good state. *)
Lemma pass_body_good (s : pass) :
  pass_good s -> (0 < unclassified s)%Z ->
  exists cp p,
    first_max Z.ltb
      (List.map (fun i => Z.of_nat (degree adj (indexMap s) i))
                (indexMap s)) cp
    /\ nth_error (indexMap s) cp = Some p
    /\ pass_body s = (if (classno s + 1 <=? int16_max)%Z
                      then Ok (pass_next adj s p)
                      else Raise OverflowError)
    /\ pass_good (pass_next adj s p)
    /\ length (indexMap (pass_next adj s p)) < length (indexMap s).
Proof.
  intros (Hinv & Hsep & Hsizes) Hpos.
  destruct (@pass_body_ok adj s) as (cp & p & Hfirst & Hp & Hbody).
  - apply (pi_mask Hinv).
  - intros E. rewrite (pi_unclassified Hinv), E in Hpos. simpl in Hpos. lia.
  - intros i Hi. rewrite (pi_len_assigned Hinv).
    eapply pass_inv_live_lt; eauto.
  - exists cp, p. assert (Hin : In p (indexMap s))
      by (eapply nth_error_In; eauto).
    split; [exact Hfirst|]. split; [exact Hp|]. split; [exact Hbody|].
    split; [split; [|split]|].
    + apply pass_inv_next. assumption.
    + apply pass_sep_next; assumption.
    + apply pass_sizes_next; try assumption.
      intros q Hq. apply In_nth_error in Hq as [cq Hq].
      apply (@first_max_degree adj (indexMap s) cp p Hfirst Hp cq q Hq).
    + unfold pass_next. simpl.
      pose proof (filter_split_length (adj p) (indexMap s)) as Hsplit.
      assert (In p (filter (adj p) (indexMap s))) as Hpm.
      { apply filter_In. split; [assumption|].
        apply adj_diag. eapply pass_inv_live_lt; eauto. }
      destruct (filter (adj p) (indexMap s)); [contradiction|].
      simpl in Hsplit. lia.
Qed.

Lemma pass_loop_good (fuel : nat) : forall s s',
  pass_good s -> pass_loop fuel s = Ok s' ->
  pass_good s' /\ indexMap s' = [].
Proof.
  induction fuel as [|fuel IH]; intros s s' Hgood Hloop; simpl in Hloop.
  - destruct (0 <? unclassified s)%Z eqn:Hpos; [discriminate|].
    injection Hloop as <-. split; [assumption|].
    destruct Hgood as (Hinv & _). apply Z.ltb_ge in Hpos.
    rewrite (pi_unclassified Hinv) in Hpos.
    destruct (indexMap s); [reflexivity|simpl in Hpos; lia].
  - destruct (0 <? unclassified s)%Z eqn:Hpos.
    + apply Z.ltb_lt in Hpos.
      destruct (pass_body_good s Hgood Hpos)
        as (cp & p & _ & _ & Hbody & Hnext & _).
      rewrite Hbody in Hloop.
      destruct (classno s + 1 <=? int16_max)%Z; [|discriminate].
      simpl in Hloop. eapply IH; eauto.
    + injection Hloop as <-. split; [assumption|].
      destruct Hgood as (Hinv & _). apply Z.ltb_ge in Hpos.
      rewrite (pi_unclassified Hinv) in Hpos.
      destruct (indexMap s); [reflexivity|simpl in Hpos; lia].
Qed.

(** With fuel for every live index and class numbers within [int16] the
    loop ends normally. *)
Lemma pass_loop_total (fuel : nat) : forall s,
  pass_good s -> length (indexMap s) <= fuel ->
  (classno s + Z.of_nat (length (indexMap s)) <= int16_max)%Z ->
  exists s', pass_loop fuel s = Ok s'.
Proof.
  induction fuel as [|fuel IH]; intros s Hgood Hfuel Hcls; simpl.
  - destruct (0 <? unclassified s)%Z eqn:Hpos; [|eauto].
    destruct Hgood as (Hinv & _). apply Z.ltb_lt in Hpos.
    rewrite (pi_unclassified Hinv) in Hpos. lia.
  - destruct (0 <? unclassified s)%Z eqn:Hpos; [|eauto].
    apply Z.ltb_lt in Hpos.
    destruct (pass_body_good s Hgood Hpos)
      as (cp & p & _ & _ & Hbody & Hnext & Hless).
    rewrite Hbody.
    replace (classno s + 1 <=? int16_max)%Z with true
      by (symmetry; apply Z.leb_le; lia).
    simpl. apply IH; [assumption|lia|].
    unfold pass_next at 1. simpl classno. lia.
Qed.
End PassRun.

(** More fuel does not change a result. *)
Lemma pass_loop_more_fuel (fuel : nat) : forall fuel' s r,
  pass_loop fuel s = r -> r <> OutOfFuel -> fuel <= fuel' ->
  pass_loop fuel' s = r.
Proof.
  induction fuel as [|fuel IH]; intros fuel' s r Hloop Hr Hle;
    simpl in Hloop.
  - destruct fuel'; simpl;
      destruct (0 <? unclassified s)%Z; congruence.
  - destruct fuel' as [|fuel']; [lia|]. simpl.
    destruct (0 <? unclassified s)%Z; [|assumption].
    destruct (pass_body s) as [s1| |]; simpl in *; try assumption.
    apply IH with (fuel' := fuel') in Hloop; [assumption..|lia].
Qed.

(** ** Well-formed input *)

Set Implicit Arguments.
(** An [N] by [N] similarity matrix: symmetric, values between 0 and 1,
    ones on the diagonal. *)
Record well_formed (N : nat) (m : matrix) : Prop := mkWf {
  wf_square : square N m;
  wf_symmetric : forall i j, i < N -> j < N -> (get m i j == get m j i)%Q;
  wf_range : forall i j, i < N -> j < N -> (0 <= get m i j <= 1)%Q;
  wf_diagonal : forall i, i < N -> (get m i i == 1)%Q
}.
Unset Implicit Arguments.


(** The same as a test. *)
Definition well_formedb (N : nat) (m : matrix) : bool :=
  (length m =? N)
  && forallb (fun row => length row =? N) m
  && forallb (fun i =>
       Qeq_bool (get m i i) 1
       && forallb (fun j =>
            Qeq_bool (get m i j) (get m j i)
            && Qle_bool 0 (get m i j) && Qle_bool (get m i j) 1)
            (seq 0 N))
       (seq 0 N).

Lemma well_formedb_sound (N : nat) (m : matrix) :
  well_formedb N m = true -> well_formed N m.
Proof.
  unfold well_formedb. rewrite !andb_true_iff.
  intros [[Hlen Hrows] Hall].
  rewrite forallb_forall in Hrows, Hall.
  assert (Hcell : forall i j, i < N -> j < N ->
            (get m i i == 1)%Q /\ (get m i j == get m j i)%Q
            /\ (0 <= get m i j)%Q /\ (get m i j <= 1)%Q).
  { intros i j Hi Hj.
    specialize (Hall i (proj2 (in_seq N 0 i) (conj (Nat.le_0_l i) Hi))).
    rewrite andb_true_iff, forallb_forall in Hall.
    destruct Hall as [Hd Hall].
    specialize (Hall j (proj2 (in_seq N 0 j) (conj (Nat.le_0_l j) Hj))).
    rewrite !andb_true_iff in Hall. destruct Hall as [[Hs H0] H1].
    rewrite Qeq_bool_iff in Hd, Hs. rewrite Qle_bool_iff in H0, H1.
    auto. }
  constructor.
  - split; [apply Nat.eqb_eq, Hlen|].
    intros row Hrow. apply Nat.eqb_eq, Hrows, Hrow.
  - intros i j Hi Hj. apply (Hcell i j Hi Hj).
  - intros i j Hi Hj. split; apply (Hcell i j Hi Hj).
  - intros i Hi. apply (Hcell i i Hi Hi).
Qed.

Lemma adjacent_diag (N : nat) (m : matrix) (t : Q) (i : nat) :
  well_formed N m -> (t <= 1)%Q -> i < N -> adjacent m t i i = true.
Proof.
  intros Hwf Ht Hi. unfold adjacent. apply Qle_bool_iff.
  rewrite (wf_diagonal Hwf Hi). exact Ht.
Qed.

Lemma adjacent_false (m : matrix) (t : Q) (i j : nat) :
  adjacent m t i j = false -> (get m i j < t)%Q.
Proof.
  unfold adjacent. intros H. apply Qnot_le_lt. intros Hle.
  apply Qle_bool_iff in Hle. congruence.
Qed.

Lemma seq_sorted (n : nat) : forall k, StronglySorted lt (seq k n).
Proof.
  induction n as [|n IH]; intros k; simpl; constructor; [apply IH|].
  apply Forall_forall. intros x Hx. apply in_seq in Hx. lia.
Qed.

Lemma pass_start_good {cast : Q -> Q} (N : nat) (simmat : matrix) (thresh : Q) :
  square N simmat ->
  pass_good (adjacent simmat (cast thresh)) N (pass_start cast simmat thresh).
Proof.
  intros Hsq. pose proof Hsq as [Hlen Hrows].
  unfold pass_start. rewrite Hlen. split; [|split].
  - constructor; simpl.
    + apply threshold_mask_sub_mask. exact Hsq.
    + unfold Np.arange. rewrite length_seq. reflexivity.
    + apply repeat_length.
    + apply Permutation_refl.
    + reflexivity.
    + reflexivity.
    + intros i Hi. apply in_seq in Hi.
      unfold Np.zeros. apply nth_error_repeat. lia.
    + intros c ms i H. destruct c; discriminate.
    + apply seq_sorted.
  - constructor; simpl.
    + intros c p ms H. destruct c; discriminate.
    + intros p j [].
    + intros c c' p p' _ H. destruct c; discriminate.
  - constructor; simpl.
    + intros ms i [].
    + intros c c' ms ms' _ H. destruct c; discriminate.
Qed.

(** * The class index *)

Lemma skipn_nth_error_cons {A : Type} (l : list A) : forall i x,
  nth_error l i = Some x -> skipn i l = x :: skipn (S i) l.
Proof.
  induction l as [|a l IH]; intros [|i] x H; simpl in *; try discriminate.
  - injection H as <-. reflexivity.
  - apply IH in H. rewrite H. destruct l; reflexivity.
Qed.

(** What the entries appended by [index_loop] hold. *)
Record index_entries {M : Type} (protos : list nat) (i : nat)
    (membs : list (list M)) (es : list (entry (list M))) : Prop :=
  mkIndexEntries {
    ie_prototype : List.map (@entry_prototype _) es = protos;
    ie_members :
      List.map (@entry_members _) es
      = firstn (length protos) (skipn i membs);
    ie_class :
      List.map (@entry_class _) es
      = List.map plus_one (seq i (length protos));
    ie_count :
      forall e, In e es -> entry_count e = length (entry_members e);
    ie_bound : forall k, k < length protos -> i + k < length membs
  }.

Lemma index_loop_returned {M : Type} (protos : list nat) :
  forall i (membs : list (list M)) total acc idx,
  index_loop protos i membs total acc = (idx, Returned) ->
  exists es, idx = acc ++ es /\ index_entries protos i membs es.
Proof.
  induction protos as [|p rest IH]; intros i membs total acc idx H;
    simpl in H.
  - injection H as <-. exists []. rewrite app_nil_r. split; [reflexivity|].
    constructor; simpl; try reflexivity; [intros e []|intros k Hk; lia].
  - destruct (nth_error membs i) as [ms|] eqn:Hms; [|discriminate].
    destruct (true_div (length ms) total) as [f|]; [|discriminate].
    apply IH in H as (es & -> & [Hp Hm Hc Hn Hb]).
    exists (mkEntry (Z.of_nat i + 1) p (length ms) ms f :: es).
    rewrite <- app_assoc. split; [reflexivity|].
    constructor; simpl.
    + rewrite Hp. reflexivity.
    + rewrite (skipn_nth_error_cons membs i ms Hms). simpl firstn.
      rewrite Hm. reflexivity.
    + rewrite Hc. reflexivity.
    + intros e [<-|He]; [reflexivity|auto].
    + intros [|k] Hk.
      * rewrite Nat.add_0_r. apply nth_error_Some. congruence.
      * specialize (Hb k). lia.
Qed.

Lemma index_loop_total {M : Type} (protos : list nat) :
  forall i (membs : list (list M)) total acc,
  total <> 0 -> i + length protos <= length membs ->
  exists idx, index_loop protos i membs total acc = (idx, Returned).
Proof.
  induction protos as [|p rest IH]; intros i membs total acc Ht Hlen;
    simpl in *; [eauto|].
  destruct (nth_error membs i) as [ms|] eqn:Hms;
    [|apply nth_error_None in Hms; lia].
  destruct total as [|t]; [congruence|]. simpl.
  apply IH; [congruence|lia].
Qed.

(** The loop fails exactly at a class without a list of members. *)
Lemma index_loop_short {M : Type} (protos : list nat) :
  forall i (membs : list (list M)) total acc,
  total <> 0 -> i <= length membs -> length membs < i + length protos ->
  exists idx, index_loop protos i membs total acc = (idx, Raised IndexError).
Proof.
  induction protos as [|p rest IH]; intros i membs total acc Ht Hi Hlen;
    simpl in *; [lia|].
  destruct (nth_error membs i) as [ms|] eqn:Hms; [|eauto].
  destruct total as [|t]; [congruence|]. simpl.
  assert (i < length membs) by (apply nth_error_Some; congruence).
  apply IH; [congruence|lia|lia].
Qed.

(** * Partitions *)

(** Every index below [N] is in exactly one member list, once, and the
    lists hold nothing else. *)
Definition exact_partition (N : nat) (membs : list (list nat)) : Prop :=
  (forall i, i < N ->
     exists c ms, nth_error membs c = Some ms /\ In i ms
       /\ forall c' ms', nth_error membs c' = Some ms' -> In i ms' -> c' = c)
  /\ (forall ms i, In ms membs -> In i ms -> i < N)
  /\ (forall ms, In ms membs -> NoDup ms).

(** The assignment map gives index [i] the class number [c + 1] exactly
    when [i] is in the member list of that class. *)
Definition agrees (N : nat) (mp : list Z) (membs : list (list nat)) : Prop :=
  length mp = N
  /\ forall i c, nth_error mp i = Some (plus_one c)
       <-> exists ms, nth_error membs c = Some ms /\ In i ms.

Lemma NoDup_concat_member {A : Type} (L : list (list A)) (ms : list A) :
  NoDup (concat L) -> In ms L -> NoDup ms.
Proof.
  induction L as [|l L IH]; simpl; intros Hnd Hin; [contradiction|].
  destruct Hin as [<-|Hin].
  - eapply NoDup_app_remove_r; eauto.
  - apply IH; [|assumption]. eapply NoDup_app_remove_l; eauto.
Qed.

Lemma NoDup_concat_unique {A : Type} (L : list (list A)) :
  forall c c' ms ms' (a : A),
  NoDup (concat L) ->
  nth_error L c = Some ms -> nth_error L c' = Some ms' ->
  In a ms -> In a ms' -> c = c'.
Proof.
  induction L as [|l L IH]; intros c c' ms ms' a Hnd Hc Hc' Ha Ha'.
  - destruct c; discriminate.
  - simpl in Hnd.
    destruct c as [|c], c' as [|c']; simpl in Hc, Hc'.
    + reflexivity.
    + injection Hc as <-. exfalso.
      apply (NoDup_app_disjoint _ _ a Hnd Ha).
      apply in_concat. exists ms'. split; [|assumption].
      eapply nth_error_In; eauto.
    + injection Hc' as <-. exfalso.
      apply (NoDup_app_disjoint _ _ a Hnd Ha').
      apply in_concat. exists ms. split; [|assumption].
      eapply nth_error_In; eauto.
    + f_equal. apply (IH c c' ms ms' a); try assumption.
      eapply NoDup_app_remove_l; eauto.
Qed.

Lemma perm_exact_partition (N : nat) (membs : list (list nat)) :
  Permutation (concat membs) (seq 0 N) -> exact_partition N membs.
Proof.
  intros Hperm.
  assert (Hnd : NoDup (concat membs)).
  { eapply Permutation_NoDup; [apply Permutation_sym, Hperm|].
    apply seq_NoDup. }
  split; [|split].
  - intros i Hi.
    assert (Hin : In i (concat membs)).
    { eapply Permutation_in; [apply Permutation_sym, Hperm|].
      apply in_seq. lia. }
    apply in_concat in Hin as (ms & Hms & Hims).
    apply In_nth_error in Hms as [c Hc].
    exists c, ms. split; [assumption|]. split; [assumption|].
    intros c' ms' Hc' Hi'.
    apply (@NoDup_concat_unique nat membs c' c ms' ms i); assumption.
  - intros ms i Hms Hi.
    assert (Hin : In i (seq 0 N)).
    { eapply Permutation_in; [apply Hperm|]. apply in_concat. eauto. }
    apply in_seq in Hin. lia.
  - intros ms Hms. eapply NoDup_concat_member; eauto.
Qed.

Lemma plus_one_inj (c c' : nat) : plus_one c = plus_one c' -> c = c'.
Proof. unfold plus_one. lia. Qed.

Lemma perm_agrees (N : nat) (mp : list Z) (membs : list (list nat)) :
  Permutation (concat membs) (seq 0 N) ->
  length mp = N ->
  (forall c ms i, nth_error membs c = Some ms -> In i ms ->
     nth_error mp i = Some (plus_one c)) ->
  agrees N mp membs.
Proof.
  intros Hperm Hlen Hfwd. split; [assumption|].
  intros i c. split.
  - intros Hmp.
    assert (Hi : i < N).
    { rewrite <- Hlen. apply nth_error_Some. congruence. }
    destruct (perm_exact_partition N membs Hperm) as (Hcov & _).
    destruct (Hcov i Hi) as (c' & ms & Hc' & Hims & _).
    pose proof (Hfwd c' ms i Hc' Hims) as Hmp'.
    rewrite Hmp in Hmp'. injection Hmp' as Heq.
    apply plus_one_inj in Heq. subst c'. eauto.
  - intros (ms & Hc & Hi). eauto.
Qed.

(** The state of an object whose bookkeeping is coherent. *)
Record consistent (N : nat) (st : simClassMap) : Prop := mkConsistent {
  co_total : totalcount st = N;
  co_len_map : length (map st) = N;
  co_len_members : length (members st) = length (prototypes st);
  co_perm : Permutation (concat (members st)) (seq 0 N);
  co_agree : forall c ms i,
    nth_error (members st) c = Some ms -> In i ms ->
    nth_error (map st) i = Some (plus_one c);
  co_index_members :
    List.map (@entry_members _) (index st) = members st;
  co_index_class :
    List.map (@entry_class _) (index st)
    = List.map plus_one (seq 0 (length (index st)));
  co_index_count : forall e,
    In e (index st) -> entry_count e = length (entry_members e)
}.

Lemma consistent_partition (N : nat) (st : simClassMap) :
  consistent N st ->
  exact_partition N (members st) /\ agrees N (map st) (members st).
Proof.
  intros H. split.
  - apply perm_exact_partition, (co_perm N st H).
  - apply perm_agrees;
      [apply (co_perm N st H)|apply (co_len_map N st H)|].
    apply (co_agree N st H).
Qed.

(** Prototypes are rows of the matrix, and a prototype is less than fully
    similar to every earlier one. *)
Definition separated (N : nat) (m : matrix) (protos : list nat) : Prop :=
  (forall p, In p protos -> p < N)
  /\ forall c c' p p', c < c' ->
       nth_error protos c = Some p -> nth_error protos c' = Some p' ->
       (get m p p' < 1)%Q.

Lemma separated_firstn (N : nat) (m : matrix) (protos : list nat) (k : nat) :
  separated N m protos -> separated N m (firstn k protos).
Proof.
  intros [Hlt Hsep]. split.
  - intros p Hp. apply Hlt. rewrite <- (firstn_skipn k protos).
    apply in_or_app. left. exact Hp.
  - intros c c' p p' Hcc Hc Hc'.
    assert (forall j q, nth_error (firstn k protos) j = Some q ->
                        nth_error protos j = Some q) as Hsub.
    { intros j q Hj. rewrite nth_error_firstn in Hj.
      destruct (j <? k); [assumption|discriminate]. }
    eauto.
Qed.

(** * Creation *)

Lemma init_inv {cast : Q -> Q}
    (fuel d : nat) (sim : matrix) (t : Q) (st : simClassMap) :
  __init__ cast fuel d sim t = Ok st ->
  exists s es,
    pass_loop fuel (pass_start cast sim t) = Ok s
    /\ index_entries (classPrototypes s) 0 (classMembers s) es
    /\ st = mkObj t d sim (classPrototypes s) (classMembers s)
              (classAssigned s) (length (classAssigned s)) es
              None None None None None None None.
Proof.
  unfold __init__. intros H.
  destruct (pass_loop fuel (pass_start cast sim t)) as [s| |] eqn:Hloop;
    simpl in H; try discriminate.
  destruct (index_loop (classPrototypes s) 0 (classMembers s)
              (length (classAssigned s)) []) as [idx out] eqn:Hidx.
  destruct out; [|discriminate]. injection H as <-.
  apply index_loop_returned in Hidx as (es & -> & Hes).
  exists s, es. auto.
Qed.

Lemma pass_sep_separated (N : nat) (sim : matrix) (t : Q) (s : pass) :
  (t <= 1)%Q ->
  pass_inv (adjacent sim t) N s -> pass_sep (adjacent sim t) s ->
  separated N sim (classPrototypes s).
Proof.
  intros Ht Hinv Hsep. split.
  - intros p Hp. apply In_nth_error in Hp as [c Hc].
    assert (c < length (classMembers s)) as Hlen.
    { rewrite <- (pi_len_protos Hinv). apply nth_error_Some. congruence. }
    destruct (nth_error (classMembers s) c) as [ms|] eqn:Hms;
      [|apply nth_error_None in Hms; lia].
    apply (@pass_inv_member_lt (adjacent sim t) N s ms p Hinv).
    + eapply nth_error_In; eauto.
    + apply (ps_member Hsep c Hc Hms).
  - intros c c' p p' Hcc Hc Hc'.
    eapply Qlt_le_trans; [|exact Ht].
    apply adjacent_false. apply (ps_protos Hsep Hcc Hc Hc').
Qed.

(** The sizes of the classes never go up along the list. *)
Definition sizes_descend (membs : list (list nat)) : Prop :=
  forall c c' ms ms', c < c' ->
    nth_error membs c = Some ms -> nth_error membs c' = Some ms' ->
    length ms' <= length ms.

Lemma init_consistent {cast : Q -> Q} (N fuel d : nat) (sim : matrix) (t : Q)
    (st : simClassMap) :
  well_formed N sim -> (cast t <= 1)%Q ->
  __init__ cast fuel d sim t = Ok st ->
  simmat st = sim /\ consistent N st /\ separated N sim (prototypes st)
  /\ sizes_descend (members st)
  /\ List.map (@entry_prototype _) (index st) = prototypes st
  /\ (forall c p ms, nth_error (prototypes st) c = Some p ->
        nth_error (members st) c = Some ms -> In p ms).
Proof.
  intros Hwf Ht Hinit.
  apply init_inv in Hinit as (s & es & Hloop & Hes & ->). simpl.
  destruct (@pass_loop_good (adjacent sim (cast t)) N
              (fun i Hi => adjacent_diag N sim (cast t) i Hwf Ht Hi) fuel
              (pass_start cast sim t) s
              (pass_start_good N sim t (wf_square Hwf)) Hloop)
    as ((Hinv & Hsep & Hsizes) & Hlive).
  destruct Hes as [Hp Hm Hc Hn Hb].
  assert (Hlen : length es = length (classPrototypes s)).
  { rewrite <- Hp. symmetry. apply length_map. }
  split; [reflexivity|]. split; [|split; [|split; [|split]]].
  - constructor; simpl.
    + apply (pi_len_assigned Hinv).
    + apply (pi_len_assigned Hinv).
    + symmetry. apply (pi_len_protos Hinv).
    + pose proof (pi_perm Hinv) as H. rewrite Hlive, app_nil_r in H.
      exact H.
    + intros c ms i. apply (pi_assigned Hinv).
    + rewrite Hm, (pi_len_protos Hinv). simpl. apply firstn_all.
    + rewrite Hc, Hlen. reflexivity.
    + exact Hn.
  - apply (pass_sep_separated N sim (cast t) s Ht Hinv Hsep).
  - intros c c' ms ms'. apply (pz_sorted Hsizes).
  - exact Hp.
  - intros c p ms. apply (ps_member Hsep).
Qed.

(** Creation ends normally when the fuel covers the indices and the class
    numbers fit in [int16]. *)
Lemma init_total {cast : Q -> Q} (N fuel d : nat) (sim : matrix) (t : Q) :
  well_formed N sim -> (cast t <= 1)%Q -> N <= fuel ->
  (Z.of_nat N <= int16_max)%Z ->
  exists st, __init__ cast fuel d sim t = Ok st.
Proof.
  intros Hwf Ht Hfuel Hsmall.
  pose proof (pass_start_good (cast:=cast) N sim t (wf_square Hwf)) as Hgood.
  assert (Hlive : indexMap (pass_start cast sim t) = seq 0 N).
  { unfold pass_start, Np.arange. simpl.
    rewrite (proj1 (wf_square Hwf)). reflexivity. }
  destruct (@pass_loop_total (adjacent sim (cast t)) N
              (fun i Hi => adjacent_diag N sim (cast t) i Hwf Ht Hi) fuel
              (pass_start cast sim t) Hgood) as [s Hloop].
  - rewrite Hlive, length_seq. exact Hfuel.
  - rewrite Hlive, length_seq. simpl. exact Hsmall.
  - destruct (@pass_loop_good (adjacent sim (cast t)) N
                (fun i Hi => adjacent_diag N sim (cast t) i Hwf Ht Hi) fuel
                (pass_start cast sim t) s Hgood Hloop)
      as ((Hinv & Hsep & _) & Hnil).
    unfold __init__. rewrite Hloop. simpl.
    destruct (classPrototypes s) as [|p ps] eqn:Hps; [simpl; eauto|].
    rewrite <- Hps.
    destruct (index_loop_total (classPrototypes s) 0 (classMembers s)
                (length (classAssigned s)) [])
      as [idx Hidx].
    + rewrite (pi_len_assigned Hinv).
      assert (p < N); [|lia].
      apply (proj1 (pass_sep_separated N sim (cast t) s Ht Hinv Hsep)).
      rewrite Hps. left. reflexivity.
    + rewrite (pi_len_protos Hinv). simpl. lia.
    + rewrite Hidx. eauto.
Qed.

(** * Reassignment *)

Lemma take_some {A : Type} (d : A) (v : list A) (idx : list nat) :
  (forall i, In i idx -> i < length v) ->
  Np.take v idx = Some (List.map (fun i => nth i v d) idx).
Proof.
  induction idx as [|i r IH]; intros Hin; simpl; [reflexivity|].
  rewrite IH by (intros; apply Hin; right; assumption).
  rewrite (nth_error_nth' v d) by (apply Hin; left; reflexivity).
  reflexivity.
Qed.

Lemma take_inv {A : Type} (d : A) (v : list A) (idx : list nat)
    (xs : list A) :
  Np.take v idx = Some xs ->
  (forall i, In i idx -> i < length v)
  /\ xs = List.map (fun i => nth i v d) idx.
Proof.
  revert xs. induction idx as [|i r IH]; intros xs H; simpl in H.
  - injection H as <-. split; [intros i []|reflexivity].
  - destruct (nth_error v i) as [x|] eqn:Hx; [|discriminate].
    destruct (Np.take v r) as [ys|]; [|discriminate].
    injection H as <-. destruct (IH ys eq_refl) as [Hin ->].
    split.
    + intros j [<-|Hj]; [|auto]. apply nth_error_Some. congruence.
    + simpl. f_equal. symmetry. apply nth_error_nth. exact Hx.
Qed.

Lemma option_map_all_inv {A B : Type} (f : A -> option B) (l : list A) :
  forall ys, option_map_all f l = Some ys ->
  length ys = length l
  /\ forall i x, nth_error l i = Some x ->
       exists y, nth_error ys i = Some y /\ f x = Some y.
Proof.
  induction l as [|a l IH]; intros ys H; simpl in H.
  - injection H as <-. split; [reflexivity|].
    intros i x Hi. destruct i; discriminate.
  - destruct (f a) as [y|] eqn:Hy; [|discriminate].
    destruct (option_map_all f l) as [ys'|]; [|discriminate].
    injection H as <-. destruct (IH ys' eq_refl) as [Hlen Hnth].
    split; [simpl; congruence|].
    intros [|i] x Hi; simpl in *.
    + injection Hi as <-. eauto.
    + apply Hnth. exact Hi.
Qed.

Lemma option_map_all_some {A B : Type} (f : A -> option B) (l : list A) :
  (forall x, In x l -> exists y, f x = Some y) ->
  exists ys, option_map_all f l = Some ys.
Proof.
  induction l as [|a l IH]; intros H; simpl; [eauto|].
  destruct (H a (or_introl eq_refl)) as [y ->].
  destruct IH as [ys ->]; [intros; apply H; right; assumption|].
  eauto.
Qed.

Lemma fold_max_spec (r : list Z) : forall x,
  (In (fold_left Z.max r x) (x :: r))
  /\ forall y, In y (x :: r) -> (y <= fold_left Z.max r x)%Z.
Proof.
  induction r as [|a r IH]; intros x; simpl.
  - split; [auto|]. intros y [<-|[]]. lia.
  - destruct (IH (Z.max x a)) as [Hin Hmax]. split.
    + destruct Hin as [Heq|Hin]; [|auto].
      rewrite <- Heq. destruct (Z.max_spec x a) as [[_ ->]|[_ ->]]; auto.
    + intros y [<-|[<-|Hy]].
      * specialize (Hmax (Z.max x a) (or_introl eq_refl)). lia.
      * specialize (Hmax (Z.max x a) (or_introl eq_refl)). lia.
      * apply Hmax. right. exact Hy.
Qed.

Lemma max_spec (v : list Z) (top : Z) :
  Np.max v = Some top ->
  In top v /\ forall y, In y v -> (y <= top)%Z.
Proof.
  destruct v as [|x r]; simpl; [discriminate|].
  intros [= <-]. apply fold_max_spec.
Qed.

Lemma where_eq_from_filter (v : list Z) (c : Z) : forall k,
  Np.where_eq_from k v c
  = filter (fun i => (nth (i - k) v 0 =? c)%Z) (seq k (length v)).
Proof.
  induction v as [|x r IH]; intros k; simpl; [reflexivity|].
  rewrite Nat.sub_diag. rewrite IH.
  assert (Hext : filter (fun i => (nth (i - S k) r 0 =? c)%Z)
                   (seq (S k) (length r))
               = filter (fun i => Z.eqb (match (i - k)%nat with
                                                | O => x
                                                | S m => nth m r 0%Z
                                                end) c)
                   (seq (S k) (length r))).
  { apply filter_ext_in. intros i Hi. apply in_seq in Hi.
    replace (i - k) with (S (i - S k)) by lia. reflexivity. }
  rewrite Hext. destruct (x =? c)%Z; reflexivity.
Qed.

Lemma where_eq_filter (v : list Z) (c : Z) :
  Np.where_eq v c
  = filter (fun i => (nth i v 0 =? c)%Z) (seq 0 (length v)).
Proof.
  unfold Np.where_eq. rewrite where_eq_from_filter.
  apply filter_ext. intros i. rewrite Nat.sub_0_r. reflexivity.
Qed.

Lemma where_eq_In (v : list Z) (c : Z) (i : nat) :
  In i (Np.where_eq v c) <-> nth_error v i = Some c.
Proof.
  rewrite where_eq_filter, filter_In, in_seq, Z.eqb_eq. split.
  - intros [[_ Hi] Hn]. rewrite <- Hn. apply nth_error_nth'. exact Hi.
  - intros H. split.
    + split; [lia|]. apply nth_error_Some. congruence.
    + apply nth_error_nth. exact H.
Qed.

Lemma filter_range_succ_perm (f : nat -> Z) (k : Z) (l : list nat) :
  (0 <= k)%Z ->
  Permutation
    (filter (fun i => (1 <=? f i)%Z && (f i <=? k)%Z) l
     ++ filter (fun i => (f i =? k + 1)%Z) l)
    (filter (fun i => (1 <=? f i)%Z && (f i <=? k + 1)%Z) l).
Proof.
  intros Hk.
  induction l as [|a l IH]; simpl; [constructor|].
  destruct (Z.leb_spec 1 (f a)), (Z.leb_spec (f a) k),
    (Z.leb_spec (f a) (k + 1)), (Z.eqb_spec (f a) (k + 1));
    simpl; try lia;
    first [ exact IH
          | apply perm_skip; exact IH
          | apply Permutation_sym, Permutation_cons_app, Permutation_sym, IH ].
Qed.

Lemma classes_perm (f : nat -> Z) (l : list nat) (K : nat) :
  Permutation
    (concat (List.map (fun c => filter (fun i => (f i =? plus_one c)%Z) l)
                      (seq 0 K)))
    (filter (fun i => (1 <=? f i)%Z && (f i <=? Z.of_nat K)%Z) l).
Proof.
  induction K as [|K IH].
  - simpl. induction l as [|a l IHl]; simpl; [constructor|].
    destruct (Z.leb_spec 1 (f a)), (Z.leb_spec (f a) 0); simpl;
      try lia; assumption.
  - rewrite Nat2Z.inj_succ. unfold Z.succ.
    rewrite seq_S, map_app, concat_app. simpl. rewrite app_nil_r.
    unfold plus_one at 2.
    etransitivity; [|apply filter_range_succ_perm; lia].
    apply Permutation_app_tail. exact IH.
Qed.

(** The member lists that [reassign] and [augment] read off a map whose
    values are class numbers from 1 to [K] split the positions. *)
Lemma where_eq_classes_perm (v : list Z) (K : nat) :
  (forall x, In x v -> (1 <= x <= Z.of_nat K)%Z) ->
  Permutation
    (concat (List.map (fun c => Np.where_eq v (plus_one c)) (seq 0 K)))
    (seq 0 (length v)).
Proof.
  intros Hrange.
  assert (Hmap : List.map (fun c => Np.where_eq v (plus_one c)) (seq 0 K)
               = List.map (fun c => filter
                             (fun i => (nth i v 0 =? plus_one c)%Z)
                             (seq 0 (length v))) (seq 0 K)).
  { apply map_ext. intros c. apply where_eq_filter. }
  rewrite Hmap.
  etransitivity; [apply classes_perm|].
  rewrite forallb_filter_id; [apply Permutation_refl|].
  apply forallb_forall. intros i Hi. apply in_seq in Hi.
  specialize (Hrange (nth i v 0%Z) (nth_In v 0%Z (proj2 Hi))).
  apply andb_true_iff. split; apply Z.leb_le; lia.
Qed.

(** [a] is the first of the prototypes most similar to index [j]. *)
Definition nearest (sim : matrix) (protos : list nat) (j a : nat) : Prop :=
  first_max Np.Qltb (List.map (fun p => get sim p j) protos) a.

Lemma column_rows (sim : matrix) (protos : list nat) (j : nat) :
  column (List.map (fun p => nth p sim []) protos) j
  = List.map (fun p => get sim p j) protos.
Proof. unfold column. rewrite map_map. reflexivity. Qed.

Lemma argmax_axis0_inv (sim : matrix) (protos am : list nat) :
  argmax_axis0 (List.map (fun p => nth p sim []) protos) = Some am ->
  protos <> []
  /\ length am = length (nth (hd 0 protos) sim [])
  /\ forall j a, nth_error am j = Some a -> nearest sim protos j a.
Proof.
  destruct protos as [|p0 ps]; [discriminate|].
  intros H. unfold argmax_axis0 in H. cbn [List.map hd] in *.
  apply option_map_all_inv in H as [Hlen Hnth].
  rewrite length_seq in Hlen.
  split; [discriminate|]. split; [exact Hlen|].
  intros j a Ha.
  assert (Hj : j < length (nth p0 sim [])).
  { rewrite <- Hlen. apply nth_error_Some. congruence. }
  destruct (Hnth j j) as (y & Hy & Hmax).
  { rewrite nth_error_seq. apply Nat.ltb_lt in Hj. rewrite Hj. reflexivity. }
  rewrite Ha in Hy. injection Hy as <-.
  change (nth p0 sim [] :: List.map (fun p => nth p sim []) ps)
    with (List.map (fun p => nth p sim []) (p0 :: ps)) in Hmax.
  rewrite column_rows in Hmax.
  apply (argmax_first_max Q Np.Qltb Qltb_le_lt Qltb_asym _ _ Hmax).
Qed.

Lemma argmax_axis0_some (sim : matrix) (protos : list nat) :
  protos <> [] ->
  exists am, argmax_axis0 (List.map (fun p => nth p sim []) protos) = Some am.
Proof.
  destruct protos as [|p0 ps]; [congruence|]. intros _.
  unfold argmax_axis0. cbn [List.map].
  apply option_map_all_some. intros j _.
  apply argmax_some. discriminate.
Qed.

(** The object that a normal return of [reassign] leaves. *)
Definition reassigned (st : simClassMap) (am : list nat)
    (es : list (entry (list nat))) : simClassMap :=
  let mp := List.map plus_one am in
  mkObj (thresh st) (data st) (simmat st) (prototypes st)
        (List.map (fun c => Np.where_eq mp (plus_one c))
                  (seq 0 (length (prototypes st))))
        mp (totalcount st) es
        (data2 st) (simmat2 st) (prototypes2 st) (map2 st) (totalcount2 st)
        (members2 st) (index2 st).

Lemma reassign_inv (st st' : simClassMap) :
  reassign st = (Returned, st') ->
  exists am es,
    st' = reassigned st am es
    /\ (forall p, In p (prototypes st) -> p < length (simmat st))
    /\ prototypes st <> []
    /\ length am = length (nth (hd 0 (prototypes st)) (simmat st) [])
    /\ (forall j a, nth_error am j = Some a ->
          nearest (simmat st) (prototypes st) j a)
    /\ index_entries (prototypes st) 0 (members st') es.
Proof.
  unfold reassign. intros H.
  destruct (Np.take (simmat st) (prototypes st)) as [submat|] eqn:Htake;
    [|discriminate].
  apply (take_inv []) in Htake as [Hrange ->].
  destruct (argmax_axis0 _) as [am|] eqn:Ham; [|discriminate].
  apply argmax_axis0_inv in Ham as (Hne & Hlen & Hnear).
  simpl in H.
  destruct (Np.max (List.map plus_one am)) as [top|] eqn:Htop;
    [|discriminate].
  destruct (index_loop _ _ _ _ _) as [idx out] eqn:Hidx.
  injection H as -> <-.
  apply index_loop_returned in Hidx as (es & -> & Hes).
  simpl in Hes.
  assert (HK : Z.to_nat top = length (prototypes st)).
  { apply max_spec in Htop as [Hin _].
    apply in_map_iff in Hin as (a & <- & Ha).
    apply In_nth_error in Ha as [j Hj].
    pose proof (first_max_lt _ _ _ _ (Hnear j a Hj)) as Hlt.
    rewrite length_map in Hlt.
    destruct (prototypes st) as [|p0 ps] eqn:Hps; [congruence|].
    pose proof Hes as [_ _ _ _ Hb].
    specialize (Hb (length ps)). simpl in Hb.
    rewrite length_map, length_seq in Hb.
    unfold plus_one in *. simpl in *. lia. }
  exists am, es. unfold reassigned. simpl.
  rewrite HK in *. auto 10.
Qed.

Lemma nth_error_map_seq {A : Type} (F : nat -> A) (K c : nat) (x : A) :
  nth_error (List.map F (seq 0 K)) c = Some x -> c < K /\ x = F c.
Proof.
  rewrite nth_error_map, nth_error_seq.
  destruct (c <? K) eqn:Hc; simpl; [|discriminate].
  intros [= <-]. apply Nat.ltb_lt in Hc. auto.
Qed.

Lemma square_row_length (N : nat) (sim : matrix) (p : nat) :
  square N sim -> p < N -> length (nth p sim []) = N.
Proof.
  intros [Hlen Hrows] Hp. apply Hrows, nth_In. lia.
Qed.

(** A normal return of [reassign] leaves coherent bookkeeping, whatever
    the bookkeeping was before, and gives every index the class of its
    nearest prototype. *)
Lemma reassign_consistent (N : nat) (st st' : simClassMap) :
  square N (simmat st) -> totalcount st = N ->
  reassign st = (Returned, st') ->
  consistent N st'
  /\ simmat st' = simmat st /\ prototypes st' = prototypes st
  /\ prototypes st <> []
  /\ (forall j c, nth_error (map st') j = Some (plus_one c) ->
        nearest (simmat st) (prototypes st) j c).
Proof.
  intros Hsq Htot H.
  apply reassign_inv in H as (am & es & -> & Hrange & Hne & Hlen & Hnear & Hes).
  assert (HlenN : length am = N).
  { rewrite Hlen. apply square_row_length; [assumption|].
    rewrite <- (proj1 Hsq). apply Hrange.
    destruct (prototypes st); [congruence|left; reflexivity]. }
  assert (Hvals : forall x, In x (List.map plus_one am) ->
            (1 <= x <= Z.of_nat (length (prototypes st)))%Z).
  { intros x Hx. apply in_map_iff in Hx as (a & <- & Ha).
    apply In_nth_error in Ha as [j Hj].
    pose proof (first_max_lt _ _ _ _ (Hnear j a Hj)) as Hlt.
    rewrite length_map in Hlt. unfold plus_one. lia. }
  unfold reassigned in *. simpl in *.
  destruct Hes as [Hp Hm Hc Hn Hb].
  assert (Hles : length es = length (prototypes st)).
  { rewrite <- Hp. symmetry. apply length_map. }
  split; [|split; [reflexivity|split; [reflexivity|split; [exact Hne|]]]].
  - constructor; simpl.
    + exact Htot.
    + rewrite length_map. exact HlenN.
    + rewrite length_map, length_seq. reflexivity.
    + pose proof (where_eq_classes_perm _ _ Hvals) as Hperm.
      rewrite length_map, HlenN in Hperm. exact Hperm.
    + intros c ms i Hms Hi.
      apply nth_error_map_seq in Hms as [_ ->].
      apply where_eq_In. exact Hi.
    + rewrite Hm. apply firstn_all2.
      rewrite length_map, length_seq. lia.
    + rewrite Hc, Hles. reflexivity.
    + exact Hn.
  - intros j c Hj. rewrite nth_error_map in Hj.
    destruct (nth_error am j) as [a|] eqn:Ha; [|discriminate].
    simpl in Hj. injection Hj as Heq. apply plus_one_inj in Heq.
    subst a. apply Hnear. exact Ha.
Qed.

(** With separated prototypes every prototype is its own nearest one. *)
Lemma separated_nearest (N : nat) (sim : matrix) (protos : list nat)
    (c p : nat) :
  well_formed N sim -> separated N sim protos ->
  nth_error protos c = Some p -> nearest sim protos p c.
Proof.
  intros Hwf [Hlt Hsep] Hc.
  assert (Hp : p < N) by (eapply Hlt, nth_error_In; eauto).
  exists (get sim p p). split; [|split].
  - rewrite nth_error_map, Hc. reflexivity.
  - intros j v Hj. rewrite nth_error_map in Hj.
    destruct (nth_error protos j) as [q|] eqn:Hq; [|discriminate].
    injection Hj as <-. apply Qltb_ge.
    rewrite (wf_diagonal Hwf Hp).
    apply (wf_range Hwf); [|assumption].
    eapply Hlt, nth_error_In; eauto.
  - intros j v Hjc Hj. rewrite nth_error_map in Hj.
    destruct (nth_error protos j) as [q|] eqn:Hq; [|discriminate].
    injection Hj as <-. apply Qltb_lt.
    rewrite (wf_diagonal Hwf Hp). eapply Hsep; eauto.
Qed.

(** [reassign] returns normally on separated prototypes. *)
Lemma reassign_total (N : nat) (st : simClassMap) :
  well_formed N (simmat st) -> totalcount st = N ->
  separated N (simmat st) (prototypes st) -> prototypes st <> [] ->
  exists st', reassign st = (Returned, st').
Proof.
  intros Hwf Htot Hsep Hne.
  pose proof (wf_square Hwf) as Hsq.
  unfold reassign.
  rewrite (take_some []).
  2:{ intros p Hp. rewrite (proj1 Hsq). apply (proj1 Hsep). exact Hp. }
  destruct (argmax_axis0_some (simmat st) (prototypes st) Hne) as [am Ham].
  rewrite Ham. simpl.
  apply argmax_axis0_inv in Ham as (_ & Hlen & Hnear).
  destruct (exists_last Hne) as (ps & pl & Hps).
  assert (Hpl : nth_error (prototypes st) (length ps) = Some pl).
  { rewrite Hps, nth_error_app2, Nat.sub_diag by lia. reflexivity. }
  assert (HplN : pl < N).
  { apply (proj1 Hsep). eapply nth_error_In; eauto. }
  assert (HlenN : length am = N).
  { rewrite Hlen. apply square_row_length; [assumption|].
    apply (proj1 Hsep).
    destruct (prototypes st); [congruence|left; reflexivity]. }
  destruct (nth_error am pl) as [a|] eqn:Ha;
    [|apply nth_error_None in Ha; lia].
  assert (a = length ps).
  { apply (first_max_unique Q Np.Qltb Qltb_asym
             (List.map (fun p => get (simmat st) p pl) (prototypes st))).
    - apply Hnear. exact Ha.
    - apply (separated_nearest N); assumption. }
  subst a.
  destruct (Np.max (List.map plus_one am)) as [top|] eqn:Htop.
  2:{ destruct am; [simpl in HlenN; lia|discriminate]. }
  apply max_spec in Htop as [_ Htop].
  assert (Hge : (plus_one (length ps) <= top)%Z).
  { apply Htop. apply in_map. eapply nth_error_In; eauto. }
  destruct (index_loop_total (prototypes st) 0
              (List.map (fun i => Np.where_eq (List.map plus_one am)
                                    (plus_one i))
                        (seq 0 (Z.to_nat top)))
              (totalcount st) []) as [idx Hidx].
  - lia.
  - rewrite length_map, length_seq, Hps, length_app. simpl.
    unfold plus_one in Hge. lia.
  - rewrite Hidx. eauto.
Qed.

(** * Sorting *)

(** The map after the stores of the loop of [sort], from position [i]. *)
Fixpoint stores (i : nat) (cs : list (entry (list nat))) (mp : list Z)
  : list Z :=
  match cs with
  | [] => mp
  | c :: rest =>
      stores (S i) rest (Np.store_from 0 mp (entry_members c) (plus_one i))
  end.

(** The index after the [n] updates of ['class'] from position [i]. *)
Fixpoint renumber {M : Type} (i n : nat) (idx : list (entry M))
  : list (entry M) :=
  match n with
  | O => idx
  | S n' => renumber (S i) n' (set_class i (plus_one i) idx)
  end.

Lemma sort_loop_returns (cs : list (entry (list nat))) :
  forall i p self,
  i + length cs <= length (prototypes self) ->
  (forall c x, In c cs -> In x (entry_members c) -> x < length (map self)) ->
  sort_loop i cs p self
  = (Returned,
     mkObj (thresh self) (data self) (simmat self)
           (p ++ firstn (length cs) (skipn i (prototypes self)))
           (members self ++ List.map (@entry_members _) cs)
           (stores i cs (map self)) (totalcount self)
           (renumber i (length cs) (index self))
           (data2 self) (simmat2 self) (prototypes2 self) (map2 self)
           (totalcount2 self) (members2 self) (index2 self)).
Proof.
  induction cs as [|c rest IH]; intros i p self Hlen Hrange.
  - destruct self. simpl. rewrite !app_nil_r. reflexivity.
  - simpl in Hlen. simpl sort_loop.
    destruct (nth_error (prototypes self) i) as [q|] eqn:Hq;
      [|apply nth_error_None in Hq; lia].
    destruct self as [th da sm pr me mp tc ix d2 s2 p2 m2 t2 ms2 i2].
    simpl in *. unfold Np.store.
    replace (forallb _ (entry_members c)) with true.
    2:{ symmetry. apply forallb_forall. intros x Hx.
        apply Nat.ltb_lt. apply (Hrange c x); auto. }
    unfold set_map, set_members, set_index. simpl.
    rewrite IH; simpl.
    + rewrite (skipn_nth_error_cons pr i q Hq). simpl.
      rewrite <- !app_assoc. reflexivity.
    + lia.
    + intros c' x Hc' Hx. rewrite length_store_from. eauto.
Qed.

Lemma stores_length (cs : list (entry (list nat))) : forall i mp,
  length (stores i cs mp) = length mp.
Proof.
  induction cs as [|c rest IH]; intros i mp; simpl; [reflexivity|].
  rewrite IH. apply length_store_from.
Qed.

Lemma stores_other (cs : list (entry (list nat))) : forall i mp x,
  (forall c, In c cs -> ~ In x (entry_members c)) ->
  nth_error (stores i cs mp) x = nth_error mp x.
Proof.
  induction cs as [|c rest IH]; intros i mp x Hno; simpl; [reflexivity|].
  rewrite IH by (intros c' Hc'; apply Hno; right; exact Hc').
  rewrite nth_error_store_from. simpl.
  replace (existsb _ _) with false; [reflexivity|].
  symmetry. apply not_true_iff_false. intros H.
  apply existsb_eqb_In in H. apply (Hno c); [left; reflexivity|exact H].
Qed.

(** An index in the members of the entry at position [k], and of no later
    entry, ends with the number of that entry. *)
Lemma stores_member (cs : list (entry (list nat))) : forall i mp k c x,
  nth_error cs k = Some c -> In x (entry_members c) -> x < length mp ->
  (forall k' c', k < k' -> nth_error cs k' = Some c' ->
     ~ In x (entry_members c')) ->
  nth_error (stores i cs mp) x = Some (plus_one (i + k)).
Proof.
  induction cs as [|c0 rest IH]; intros i mp k c x Hk Hx Hlt Hlater.
  - destruct k; discriminate.
  - destruct k as [|k]; simpl in Hk |- *.
    + injection Hk as ->. rewrite stores_other.
      * rewrite nth_error_store by exact Hlt.
        replace (existsb _ _) with true
          by (symmetry; apply existsb_eqb_In; exact Hx).
        rewrite Nat.add_0_r. reflexivity.
      * intros c' Hc'. apply In_nth_error in Hc' as [k' Hk'].
        apply (Hlater (S k') c'); [lia|exact Hk'].
    + replace (i + S k) with (S i + k) by lia.
      apply (IH (S i) _ k c x Hk Hx).
      * rewrite length_store_from. exact Hlt.
      * intros k' c' Hkk Hc'. apply (Hlater (S k') c'); [lia|exact Hc'].
Qed.

Lemma set_class_fields {M : Type} (i : nat) (v : Z) (idx : list (entry M)) :
  List.map (@entry_members _) (set_class i v idx)
  = List.map (@entry_members _) idx
  /\ List.map (@entry_count _) (set_class i v idx)
     = List.map (@entry_count _) idx
  /\ List.map (@entry_prototype _) (set_class i v idx)
     = List.map (@entry_prototype _) idx
  /\ List.map (@entry_fraction _) (set_class i v idx)
     = List.map (@entry_fraction _) idx.
Proof.
  revert i. induction idx as [|c r IH]; intros [|i]; simpl;
    try (repeat split; reflexivity).
  destruct (IH i) as (-> & -> & -> & ->). repeat split.
Qed.

Lemma renumber_fields {M : Type} (n : nat) : forall i (idx : list (entry M)),
  List.map (@entry_members _) (renumber i n idx)
  = List.map (@entry_members _) idx
  /\ List.map (@entry_count _) (renumber i n idx)
     = List.map (@entry_count _) idx
  /\ List.map (@entry_prototype _) (renumber i n idx)
     = List.map (@entry_prototype _) idx
  /\ List.map (@entry_fraction _) (renumber i n idx)
     = List.map (@entry_fraction _) idx.
Proof.
  induction n as [|n IH]; intros i idx; simpl; [repeat split|].
  destruct (IH (S i) (set_class i (plus_one i) idx)) as (-> & -> & -> & ->).
  apply set_class_fields.
Qed.

Lemma set_class_app {M : Type} (pre : list (entry M)) (c : entry M)
    (r : list (entry M)) (v : Z) :
  set_class (length pre) v (pre ++ c :: r)
  = pre ++ mkEntry v (entry_prototype c) (entry_count c) (entry_members c)
             (entry_fraction c) :: r.
Proof.
  induction pre as [|a pre IH]; simpl; [reflexivity|].
  rewrite IH. reflexivity.
Qed.

Lemma renumber_class {M : Type} (suf : list (entry M)) :
  forall (pre : list (entry M)),
  List.map (@entry_class _) (renumber (length pre) (length suf) (pre ++ suf))
  = List.map (@entry_class _) pre
    ++ List.map plus_one (seq (length pre) (length suf)).
Proof.
  induction suf as [|c r IH]; intros pre; simpl.
  - rewrite !app_nil_r. reflexivity.
  - rewrite set_class_app.
    set (c' := mkEntry _ _ _ _ _).
    replace (pre ++ c' :: r) with ((pre ++ [c']) ++ r)
      by (rewrite <- app_assoc; reflexivity).
    replace (S (length pre)) with (length (pre ++ [c']))
      by (rewrite length_app; simpl; lia).
    rewrite IH, map_app, <- app_assoc. reflexivity.
Qed.

Lemma insert_desc_perm {M : Type} (c : entry M) (l : list (entry M)) :
  Permutation (insert_desc c l) (c :: l).
Proof.
  induction l as [|d r IH]; simpl; [apply Permutation_refl|].
  destruct (entry_count c <? entry_count d); [|apply Permutation_refl].
  etransitivity; [apply perm_skip, IH|apply perm_swap].
Qed.

Lemma sorted_desc_perm {M : Type} (l : list (entry M)) :
  Permutation (sorted_desc l) l.
Proof.
  induction l as [|c r IH]; simpl; [constructor|].
  etransitivity; [apply insert_desc_perm|apply perm_skip, IH].
Qed.

(** [sorted_desc] is the stable sort by descending count: its result is
    in descending order and keeps, for every count, the entries of that
    count in the order they had. *)
Lemma insert_desc_descending {M : Type} (c : entry M) (l : list (entry M)) :
  StronglySorted (fun a b => entry_count b <= entry_count a) l ->
  StronglySorted (fun a b => entry_count b <= entry_count a)
                 (insert_desc c l).
Proof.
  induction 1 as [|d r Hs IH Hall]; simpl.
  - constructor; constructor.
  - destruct (entry_count c <? entry_count d) eqn:Hcd.
    + apply Nat.ltb_lt in Hcd. constructor; [exact IH|].
      apply Forall_forall. intros x Hx.
      apply (Permutation_in _ (insert_desc_perm c r)) in Hx.
      destruct Hx as [<-|Hx]; [lia|].
      rewrite Forall_forall in Hall. auto.
    + apply Nat.ltb_ge in Hcd. constructor.
      * constructor; assumption.
      * constructor; [exact Hcd|].
        rewrite Forall_forall in *. intros x Hx.
        specialize (Hall x Hx). lia.
Qed.

Lemma sorted_desc_descending {M : Type} (l : list (entry M)) :
  StronglySorted (fun a b => entry_count b <= entry_count a)
                 (sorted_desc l).
Proof.
  induction l as [|c r IH]; simpl; [constructor|].
  apply insert_desc_descending, IH.
Qed.

Lemma insert_desc_stable {M : Type} (v : nat) (c : entry M)
    (l : list (entry M)) :
  filter (fun e => entry_count e =? v) (insert_desc c l)
  = filter (fun e => entry_count e =? v) (c :: l).
Proof.
  induction l as [|d r IH]; simpl; [reflexivity|].
  destruct (entry_count c <? entry_count d) eqn:Hcd; [|reflexivity].
  apply Nat.ltb_lt in Hcd. simpl. rewrite IH. simpl.
  destruct (Nat.eqb_spec (entry_count c) v),
    (Nat.eqb_spec (entry_count d) v); try reflexivity. lia.
Qed.

Lemma sorted_desc_stable {M : Type} (v : nat) (l : list (entry M)) :
  filter (fun e => entry_count e =? v) (sorted_desc l)
  = filter (fun e => entry_count e =? v) l.
Proof.
  induction l as [|c r IH]; simpl; [reflexivity|].
  rewrite insert_desc_stable. simpl. rewrite IH. reflexivity.
Qed.

(** The object that [sort] leaves. *)
Definition sorted_obj (st : simClassMap) : simClassMap :=
  let cs := sorted_desc (index st) in
  mkObj (thresh st) (data st) (simmat st) (prototypes st)
        (List.map (@entry_members _) cs)
        (stores 0 cs (Np.zeros (length (map st)))) (totalcount st)
        (renumber 0 (length cs) cs)
        (data2 st) (simmat2 st) (prototypes2 st) (map2 st) (totalcount2 st)
        (members2 st) (index2 st).

Lemma count_members_transfer {M : Type} (l l' : list (entry (list M))) :
  List.map (@entry_count _) l' = List.map (@entry_count _) l ->
  List.map (@entry_members _) l' = List.map (@entry_members _) l ->
  (forall e, In e l -> entry_count e = length (entry_members e)) ->
  forall e, In e l' -> entry_count e = length (entry_members e).
Proof.
  intros Hc Hm Hl e He. apply In_nth_error in He as [k Hk].
  assert (Hck : nth_error (List.map (@entry_count _) l) k
                = Some (entry_count e))
    by (rewrite <- Hc, nth_error_map, Hk; reflexivity).
  assert (Hmk : nth_error (List.map (@entry_members _) l) k
                = Some (entry_members e))
    by (rewrite <- Hm, nth_error_map, Hk; reflexivity).
  rewrite nth_error_map in Hck, Hmk.
  destruct (nth_error l k) as [e0|] eqn:He0; [|discriminate].
  simpl in Hck, Hmk. injection Hck as <-. injection Hmk as <-.
  apply Hl. eapply nth_error_In; eauto.
Qed.

Lemma sort_consistent (N : nat) (st : simClassMap) :
  consistent N st ->
  sort st = (Returned, sorted_obj st) /\ consistent N (sorted_obj st).
Proof.
  intros [Htot Hlen Hlm Hperm Hagree Him Hic Hin].
  set (cs := sorted_desc (index st)).
  assert (Hpcs : Permutation cs (index st)) by apply sorted_desc_perm.
  assert (Hlcs : length cs = length (prototypes st)).
  { rewrite (Permutation_length Hpcs), <- Hlm, <- Him.
    symmetry. apply length_map. }
  assert (Hpm : Permutation (concat (List.map (@entry_members _) cs))
                            (seq 0 N)).
  { etransitivity; [|exact Hperm]. rewrite <- Him.
    rewrite <- !flat_map_concat_map.
    apply Permutation_flat_map. exact Hpcs. }
  assert (Hrange : forall c x, In c cs -> In x (entry_members c) -> x < N).
  { intros c x Hc Hx.
    assert (In x (seq 0 N)) as H; [|apply in_seq in H; lia].
    eapply Permutation_in; [exact Hpm|].
    apply in_concat. exists (entry_members c). split; [|exact Hx].
    apply in_map. exact Hc. }
  split.
  - unfold sort. fold cs.
    rewrite sort_loop_returns; simpl.
    + unfold sorted_obj. fold cs. rewrite Hlcs, firstn_all.
      reflexivity.
    + lia.
    + intros c x Hc Hx. unfold Np.zeros. rewrite repeat_length, Hlen.
      eauto.
  - unfold sorted_obj. fold cs.
    destruct (renumber_fields (length cs) 0 cs) as (Hrm & Hrc & _).
    constructor; simpl.
    + exact Htot.
    + rewrite stores_length. unfold Np.zeros.
      rewrite repeat_length. exact Hlen.
    + rewrite length_map. exact Hlcs.
    + exact Hpm.
    + intros c ms i Hms Hi. rewrite nth_error_map in Hms.
      destruct (nth_error cs c) as [e|] eqn:He; [|discriminate].
      injection Hms as <-.
      apply (stores_member cs 0 _ c e i He Hi).
      * unfold Np.zeros. rewrite repeat_length, Hlen.
        apply (Hrange e i); [eapply nth_error_In; eauto|exact Hi].
      * intros k' e' Hk Hk' Hi'.
        assert (c = k'); [|lia].
        apply (NoDup_concat_unique (List.map (@entry_members _) cs)
                 c k' (entry_members e) (entry_members e') i);
          try assumption.
        -- eapply Permutation_NoDup;
             [apply Permutation_sym, Hpm|apply seq_NoDup].
        -- rewrite nth_error_map, He. reflexivity.
        -- rewrite nth_error_map, Hk'. reflexivity.
    + exact Hrm.
    + assert (Hlr : length (renumber 0 (length cs) cs) = length cs).
      { rewrite <- (length_map (@entry_members _)), Hrm.
        apply length_map. }
      rewrite Hlr. apply (renumber_class cs []).
    + apply (count_members_transfer cs); try assumption.
      intros e He. apply Hin.
      eapply Permutation_in; [exact Hpcs|exact He].
Qed.

(** * Objects that the methods can produce *)

(** The objects obtained from a creation over [sim] and [t] by calls of
    [reassign], [sort] and [truncate] that end normally; [truncate] is
    called with a class count between 1 and the current one. *)
Inductive reachable (cast : Q -> Q) (sim : matrix) (t : Q)
  : simClassMap -> Prop :=
| reach_init : forall fuel d st,
    __init__ cast fuel d sim t = Ok st -> reachable cast sim t st
| reach_reassign : forall st st',
    reachable cast sim t st -> reassign st = (Returned, st') ->
    reachable cast sim t st'
| reach_sort : forall st st',
    reachable cast sim t st -> sort st = (Returned, st') ->
    reachable cast sim t st'
| reach_truncate : forall st k st',
    reachable cast sim t st ->
    (1 <= k <= Z.of_nat (length (prototypes st)))%Z ->
    truncate k st = (Returned, st') ->
    reachable cast sim t st'.

Definition good (N : nat) (sim : matrix) (st : simClassMap) : Prop :=
  simmat st = sim /\ consistent N st /\ separated N sim (prototypes st).

Lemma truncate_inv (k : Z) (st st' : simClassMap) :
  truncate k st = (Returned, st') ->
  exists st1,
    reassign (set_prototypes st (slice_to (prototypes st) k))
    = (Returned, st1)
    /\ sort st1 = (Returned, st').
Proof.
  unfold truncate. intros H.
  destruct (reassign _) as [[|e] st1] eqn:Hr; [eauto|discriminate].
Qed.

Lemma slice_to_firstn {A : Type} (v : list A) (k : Z) :
  (0 <= k)%Z -> slice_to v k = firstn (Z.to_nat k) v.
Proof.
  intros Hk. unfold slice_to.
  destruct (Z.ltb_spec k 0); [lia|reflexivity].
Qed.

Lemma good_reassign (N : nat) (sim : matrix) (st st' : simClassMap) :
  well_formed N sim -> simmat st = sim -> totalcount st = N ->
  separated N sim (prototypes st) ->
  reassign st = (Returned, st') -> good N sim st'.
Proof.
  intros Hwf Hsim Htot Hsep Hr.
  destruct (reassign_consistent N st st') as (Hc & Hs & Hp & _);
    try assumption.
  - rewrite Hsim. apply (wf_square Hwf).
  - split; [congruence|]. split; [assumption|]. rewrite Hp. assumption.
Qed.

Lemma good_sort (N : nat) (sim : matrix) (st st' : simClassMap) :
  good N sim st -> sort st = (Returned, st') ->
  good N sim st' /\ st' = sorted_obj st.
Proof.
  intros (Hsim & Hc & Hsep) Hs.
  destruct (sort_consistent N st Hc) as [Heq Hc'].
  rewrite Heq in Hs. injection Hs as <-.
  split; [|reflexivity]. split; [exact Hsim|]. split; assumption.
Qed.

Lemma good_truncate (N : nat) (sim : matrix) (k : Z)
    (st st' : simClassMap) :
  well_formed N sim -> good N sim st -> (0 <= k)%Z ->
  truncate k st = (Returned, st') ->
  good N sim st'
  /\ prototypes st' = firstn (Z.to_nat k) (prototypes st).
Proof.
  intros Hwf (Hsim & Hc & Hsep) Hk Ht.
  apply truncate_inv in Ht as (st1 & Hr & Hs).
  rewrite slice_to_firstn in Hr by exact Hk.
  set (st0 := set_prototypes st (firstn (Z.to_nat k) (prototypes st))) in *.
  assert (Hg1 : good N sim st1).
  { apply (good_reassign N sim st0 st1 Hwf); try assumption.
    - apply (co_total N st Hc).
    - simpl. apply separated_firstn. exact Hsep. }
  destruct (reassign_consistent N st0 st1) as (_ & _ & Hp1 & _);
    [| |exact Hr|].
  - simpl. rewrite Hsim. apply (wf_square Hwf).
  - apply (co_total N st Hc).
  - destruct (good_sort N sim st1 st' Hg1 Hs) as [Hg ->].
    split; [exact Hg|]. simpl. exact Hp1.
Qed.

Lemma reachable_good {cast : Q -> Q}
    (N : nat) (sim : matrix) (t : Q) (st : simClassMap) :
  well_formed N sim -> (cast t <= 1)%Q -> reachable cast sim t st ->
  good N sim st.
Proof.
  intros Hwf Ht Hreach.
  induction Hreach as [fuel d st Hinit|st st' _ IH Hr|st st' _ IH Hs
                      |st k st' _ IH Hk Htr].
  - destruct (init_consistent N fuel d sim t st Hwf Ht Hinit)
      as (Hsim & Hc & Hsep & _).
    split; [|split]; assumption.
  - destruct IH as (Hsim & Hc & Hsep).
    apply (good_reassign N sim st st' Hwf); try assumption.
    apply (co_total N st Hc).
  - apply (good_sort N sim st st' IH Hs).
  - apply (good_truncate N sim k st st' Hwf IH); [lia|exact Htr].
Qed.

(** On the objects that can be produced the methods end normally. *)
Lemma good_reassign_total (N : nat) (sim : matrix) (st : simClassMap) :
  well_formed N sim -> good N sim st -> prototypes st <> [] ->
  exists st', reassign st = (Returned, st').
Proof.
  intros Hwf (Hsim & Hc & Hsep) Hne.
  apply (reassign_total N); try (rewrite Hsim; assumption); try assumption.
  apply (co_total N st Hc).
Qed.

Lemma good_truncate_total (N : nat) (sim : matrix) (k : Z)
    (st : simClassMap) :
  well_formed N sim -> good N sim st ->
  (1 <= k <= Z.of_nat (length (prototypes st)))%Z ->
  exists st', truncate k st = (Returned, st').
Proof.
  intros Hwf (Hsim & Hc & Hsep) Hk.
  unfold truncate. rewrite slice_to_firstn by lia.
  set (st0 := set_prototypes st (firstn (Z.to_nat k) (prototypes st))).
  destruct (reassign_total N st0) as [st1 Hr].
  - simpl. rewrite Hsim. exact Hwf.
  - apply (co_total N st Hc).
  - simpl. rewrite Hsim. apply separated_firstn. exact Hsep.
  - simpl. destruct (prototypes st) as [|p ps]; [simpl in Hk; lia|].
    destruct (Z.to_nat k) eqn:E; [lia|discriminate].
  - rewrite Hr.
    assert (Hg1 : good N sim st1).
    { apply (good_reassign N sim st0 st1 Hwf); try assumption.
      - apply (co_total N st Hc).
      - simpl. apply separated_firstn. exact Hsep. }
    destruct Hg1 as (_ & Hc1 & _).
    destruct (sort_consistent N st1 Hc1) as [Hs _]. eauto.
Qed.

(** On the objects that can be produced, [sort] and [truncate] complete,
    and so does [reassign]; with at least one index there is a prototype. *)
Lemma reachable_methods_complete {cast : Q -> Q}
    (N : nat) (sim : matrix) (t : Q)
    (st : simClassMap) :
  well_formed N sim -> (cast t <= 1)%Q -> reachable cast sim t st ->
  (0 < N -> prototypes st <> [])
  /\ (prototypes st <> [] -> exists st', reassign st = (Returned, st'))
  /\ (exists st', sort st = (Returned, st'))
  /\ (forall k, (1 <= k <= Z.of_nat (length (prototypes st)))%Z ->
        exists st', truncate k st = (Returned, st')).
Proof.
  intros Hwf Ht Hreach.
  pose proof (reachable_good N sim t st Hwf Ht Hreach) as Hgood.
  pose proof Hgood as (_ & Hc & _).
  split; [|split; [|split]].
  - intros HN Hnil.
    pose proof (co_len_members N st Hc) as Hlen.
    pose proof (co_perm N st Hc) as Hperm.
    rewrite Hnil in Hlen. simpl in Hlen.
    destruct (members st); [|discriminate].
    apply Permutation_length in Hperm.
    rewrite length_seq in Hperm. simpl in Hperm. lia.
  - apply (good_reassign_total N sim st Hwf Hgood).
  - destruct (sort_consistent N st Hc) as [Hs _]. eauto.
  - intros k Hk. apply (good_truncate_total N sim k st Hwf Hgood Hk).
Qed.

(** * Concrete inputs *)

(** Four points in two tight pairs. *)
Definition sim4 : matrix :=
  [[1; 9#10; 1#10; 1#10];
   [9#10; 1; 1#10; 1#10];
   [1#10; 1#10; 1; 8#10];
   [1#10; 1#10; 8#10; 1]]%Q.

(** Four points where points 1 and 2 are within the threshold of point 0
    but nearer to point 3. *)
Definition simB : matrix :=
  [[1; 6#10; 6#10; 1#10];
   [6#10; 1; 1#10; 9#10];
   [6#10; 1#10; 1; 9#10];
   [1#10; 9#10; 9#10; 1]]%Q.

(** Two identical points. *)
Definition sim2 : matrix := [[1; 1]; [1; 1]]%Q.

Definition empty_obj : simClassMap :=
  mkObj 0 0 [] [] [] [] 0 [] None None None None None None None.

Definition created (r : res simClassMap) : simClassMap :=
  match r with
  | Ok st => st
  | _ => empty_obj
  end.

Definition obj4 : simClassMap :=
  Eval vm_compute in created (__init__ to_float64 4 4 sim4 (1#2)).

Definition objB : simClassMap :=
  Eval vm_compute in created (__init__ to_float64 4 4 simB (1#2)).

Definition objB_reassigned : simClassMap :=
  Eval vm_compute in snd (reassign objB).

Definition objB_sorted : simClassMap :=
  Eval vm_compute in snd (sort objB_reassigned).

Definition objB_truncated : simClassMap :=
  Eval vm_compute in snd (truncate 1 objB_sorted).

Lemma sim4_well_formed : well_formed 4 sim4.
Proof. apply well_formedb_sound. vm_compute. reflexivity. Qed.

Lemma simB_well_formed : well_formed 4 simB.
Proof. apply well_formedb_sound. vm_compute. reflexivity. Qed.

Lemma sim2_well_formed : well_formed 2 sim2.
Proof. apply well_formedb_sound. vm_compute. reflexivity. Qed.

Lemma half_in_range : (0 <= 1#2 <= 1)%Q.
Proof. split; unfold Qle; simpl; lia. Qed.

Lemma objB_reachable : reachable to_float64 simB (1#2) objB.
Proof.
  apply (reach_init to_float64 simB (1#2) 4 4). vm_compute. reflexivity.
Qed.

Lemma objB_reassigned_reachable :
  reachable to_float64 simB (1#2) objB_reassigned.
Proof.
  apply (reach_reassign to_float64 simB (1#2) objB); [apply objB_reachable|].
  vm_compute. reflexivity.
Qed.

Lemma objB_sorted_reachable : reachable to_float64 simB (1#2) objB_sorted.
Proof.
  apply (reach_sort to_float64 simB (1#2) objB_reassigned);
    [apply objB_reassigned_reachable|].
  vm_compute. reflexivity.
Qed.

Lemma objB_truncated_reachable : reachable to_float64 simB (1#2) objB_truncated.
Proof.
  apply (reach_truncate to_float64 simB (1#2) objB_sorted 1);
    [apply objB_sorted_reachable|simpl; lia|].
  vm_compute. reflexivity.
Qed.

(** * The claims *)

(** C1.  Over a well-formed [N] by [N] matrix and a threshold that is
    in [0,1] as it is compared (converted to the dtype of the matrix),
    after creation and after every [reassign], [sort] and [truncate k]
    ([1 <= k <= K]) that completes, the member lists are an exact partition
    of the indices below [N] and the assignment map agrees with them. *)
Theorem partition_invariant {cast : Q -> Q} (N : nat) (sim : matrix) (t : Q)
    (st : simClassMap) :
  well_formed N sim -> (0 <= cast t <= 1)%Q -> reachable cast sim t st ->
  exact_partition N (members st) /\ agrees N (map st) (members st).
Proof.
  intros Hwf [_ Ht] Hreach.
  destruct (reachable_good N sim t st Hwf Ht Hreach) as (_ & Hc & _).
  apply consistent_partition. exact Hc.
Qed.

Lemma partition_invariant_witness :
  exact_partition 4 (members objB_truncated)
  /\ agrees 4 (map objB_truncated) (members objB_truncated).
Proof.
  apply (partition_invariant (cast:=to_float64) 4 simB (1#2) objB_truncated).
  - apply simB_well_formed.
  - apply half_in_range.
  - apply objB_truncated_reachable.
Defined.

(** C5.  On an object with [K] classes over a well-formed matrix and for
    [1 <= k <= K], [truncate k] completes and leaves exactly [k] classes,
    the first [k] prototypes, and every index in exactly one of the [k]
    member lists. *)
Theorem truncate_coverage {cast : Q -> Q} (N : nat) (sim : matrix) (t : Q)
    (st : simClassMap) (k : Z) :
  well_formed N sim -> (0 <= cast t <= 1)%Q -> reachable cast sim t st ->
  (1 <= k <= Z.of_nat (length (prototypes st)))%Z ->
  exists st',
    truncate k st = (Returned, st')
    /\ prototypes st' = firstn (Z.to_nat k) (prototypes st)
    /\ length (prototypes st') = Z.to_nat k
    /\ length (members st') = Z.to_nat k
    /\ length (index st') = Z.to_nat k
    /\ exact_partition N (members st')
    /\ agrees N (map st') (members st').
Proof.
  intros Hwf [_ Ht] Hreach Hk.
  pose proof (reachable_good N sim t st Hwf Ht Hreach) as Hgood.
  destruct (good_truncate_total N sim k st Hwf Hgood Hk) as [st' Htr].
  destruct (good_truncate N sim k st st' Hwf Hgood) as ((_ & Hc & _) & Hp);
    [lia|exact Htr|].
  assert (Hlen : length (prototypes st') = Z.to_nat k).
  { rewrite Hp, length_firstn. lia. }
  exists st'. split; [exact Htr|]. split; [exact Hp|].
  split; [exact Hlen|]. split; [|split].
  - rewrite (co_len_members N st' Hc). exact Hlen.
  - rewrite <- Hlen, <- (co_len_members N st' Hc),
      <- (co_index_members N st' Hc).
    symmetry. apply length_map.
  - apply consistent_partition. exact Hc.
Qed.

Lemma truncate_coverage_witness :
  exists st',
    truncate 1 objB_sorted = (Returned, st')
    /\ prototypes st' = firstn (Z.to_nat 1) (prototypes objB_sorted)
    /\ length (prototypes st') = Z.to_nat 1
    /\ length (members st') = Z.to_nat 1
    /\ length (index st') = Z.to_nat 1
    /\ exact_partition 4 (members st')
    /\ agrees 4 (map st') (members st').
Proof.
  apply (truncate_coverage (cast:=to_float64) 4 simB (1#2) objB_sorted 1).
  - apply simB_well_formed.
  - apply half_in_range.
  - apply objB_sorted_reachable.
  - simpl. lia.
Defined.

(** The mask depends on the threshold only through the comparisons with
    the cells. *)
Lemma threshold_mask_same (cast cast' : Q -> Q) (sim : matrix) (t t' : Q) :
  (forall row v, In row sim -> In v row ->
     Qle_bool (cast t) v = Qle_bool (cast' t') v) ->
  threshold_mask cast sim t = threshold_mask cast' sim t'.
Proof.
  intros H. unfold threshold_mask.
  apply map_ext_in. intros row Hrow.
  apply map_ext_in. intros v Hv. rewrite (H row v Hrow Hv). reflexivity.
Qed.

Lemma Qle_bool_same (a b v : Q) :
  ((a <= v)%Q <-> (b <= v)%Q) -> Qle_bool a v = Qle_bool b v.
Proof.
  intros H. destruct (Qle_bool b v) eqn:E.
  - apply Qle_bool_iff, H, Qle_bool_iff, E.
  - apply not_true_is_false. intros Ha.
    apply Qle_bool_iff, H, Qle_bool_iff in Ha. congruence.
Qed.

(** C9.  The scenario of four points, with similarity 0.9 between points
    0 and 1, 0.8 between points 2 and 3 and 0.1 elsewhere off the
    diagonal, and threshold 0.5 (whatever the dtype of the matrix, as long
    as the threshold converted to it is above 0.1 and at most 0.8; 0.5
    itself is a value of every float dtype): the constructor returns two
    classes, class 1 with prototype 0 and members 0 and 1, class 2 with
    prototype 2 and members 2 and 3, and the assignment map 1, 1, 2, 2,
    with any fuel from 4 on. *)
Theorem scenario_four_points (cast : Q -> Q) (extra d : nat) :
  (1#10 < cast (1#2))%Q -> (cast (1#2) <= 8#10)%Q ->
  exists st,
    __init__ cast (4 + extra) d sim4 (1#2) = Ok st
    /\ length (prototypes st) = 2
    /\ prototypes st = [0; 2]
    /\ members st = [[0; 1]; [2; 3]]
    /\ map st = [1; 1; 2; 2]%Z
    /\ totalcount st = 4
    /\ List.map (@entry_class _) (index st) = [1; 2]%Z
    /\ List.map (@entry_prototype _) (index st) = [0; 2]
    /\ List.map (@entry_members _) (index st) = [[0; 1]; [2; 3]]
    /\ List.map (@entry_count _) (index st) = [2; 2].
Proof.
  intros Hlow Hhigh.
  assert (Hstart : pass_start cast sim4 (1#2)
                   = pass_start to_float64 sim4 (1#2)).
  { unfold pass_start. f_equal. apply threshold_mask_same.
    intros row v Hrow Hv. apply Qle_bool_same. unfold to_float64.
    assert (Hv' : In v [1; 9#10; 8#10; 1#10]%Q).
    { simpl in Hrow.
      repeat (destruct Hrow as [<-|Hrow];
              [simpl in Hv; intuition (subst; simpl; auto)|]).
      contradiction. }
    simpl in Hv'. destruct Hv' as [<-|[<-|[<-|[<-|[]]]]].
    - split; intros _; [unfold Qle; simpl; lia|].
      apply (Qle_trans _ (8#10)); [exact Hhigh|unfold Qle; simpl; lia].
    - split; intros _; [unfold Qle; simpl; lia|].
      apply (Qle_trans _ (8#10)); [exact Hhigh|unfold Qle; simpl; lia].
    - split; intros _; [unfold Qle; simpl; lia|exact Hhigh].
    - split; intros H; exfalso.
      + apply (Qlt_not_le _ _ Hlow). exact H.
      + revert H. unfold Qle. simpl. lia. }
  assert (Hloop : exists s,
            pass_loop (4 + extra) (pass_start to_float64 sim4 (1#2)) = Ok s
            /\ pass_loop 4 (pass_start to_float64 sim4 (1#2)) = Ok s).
  { eexists. split; [|vm_compute; reflexivity].
    apply (pass_loop_more_fuel 4); [vm_compute; reflexivity|discriminate|lia]. }
  destruct Hloop as (s & Hbig & Hsmall).
  vm_compute in Hsmall. injection Hsmall as <-.
  unfold __init__. rewrite Hstart, Hbig. simpl bind.
  eexists. split; [vm_compute; reflexivity|].
  repeat split.
Qed.

Lemma scenario_four_points_witness :
  exists st,
    __init__ to_float64 (4 + 0) 0 sim4 (1#2) = Ok st
    /\ length (prototypes st) = 2
    /\ prototypes st = [0; 2]
    /\ members st = [[0; 1]; [2; 3]]
    /\ map st = [1; 1; 2; 2]%Z
    /\ totalcount st = 4
    /\ List.map (@entry_class _) (index st) = [1; 2]%Z
    /\ List.map (@entry_prototype _) (index st) = [0; 2]
    /\ List.map (@entry_members _) (index st) = [[0; 1]; [2; 3]]
    /\ List.map (@entry_count _) (index st) = [2; 2].
Proof.
  apply (scenario_four_points to_float64 0 0).
  - unfold to_float64, Qlt. simpl. lia.
  - unfold to_float64, Qle. simpl. lia.
Defined.

(** C10.  Over a well-formed matrix and a threshold that is at most 1
    as it is compared (converted to the dtype of the matrix) the
    classes of the greedy pass come in non-increasing size: a class never
    has more members than an earlier one. *)
Theorem greedy_sizes_descend {cast : Q -> Q}
    (N fuel d : nat) (sim : matrix) (t : Q)
    (st : simClassMap) (c c' : nat) (ms ms' : list nat) :
  well_formed N sim -> (cast t <= 1)%Q ->
  __init__ cast fuel d sim t = Ok st ->
  c < c' ->
  nth_error (members st) c = Some ms ->
  nth_error (members st) c' = Some ms' ->
  length ms' <= length ms.
Proof.
  intros Hwf Ht Hinit.
  destruct (init_consistent N fuel d sim t st Hwf Ht Hinit)
    as (_ & _ & _ & Hsizes & _).
  apply Hsizes.
Qed.

Lemma greedy_sizes_descend_witness :
  length [3] <= length [0; 1; 2].
Proof.
  apply (greedy_sizes_descend (cast:=to_float64)
          4 4 4 simB (1#2) objB 0 1 [0; 1; 2] [3]).
  - apply simB_well_formed.
  - unfold Qle. simpl. lia.
  - vm_compute. reflexivity.
  - lia.
  - reflexivity.
  - reflexivity.
Defined.

(** The states of the greedy loop at its tests of [unclassified > 0]. *)
Inductive pass_reach (cast : Q -> Q) (sim : matrix) (t : Q)
  : pass -> Prop :=
| pass_reach_start : pass_reach cast sim t (pass_start cast sim t)
| pass_reach_step : forall s s',
    pass_reach cast sim t s -> (0 < unclassified s)%Z ->
    pass_body s = Ok s' -> pass_reach cast sim t s'.

Lemma pass_reach_good {cast : Q -> Q}
    (N : nat) (sim : matrix) (t : Q) (s : pass) :
  well_formed N sim -> (cast t <= 1)%Q -> pass_reach cast sim t s ->
  pass_good (adjacent sim (cast t)) N s.
Proof.
  intros Hwf Ht Hreach.
  induction Hreach as [|s s' _ IH Hpos Hbody].
  - apply pass_start_good, (wf_square Hwf).
  - destruct (pass_body_good (adjacent sim (cast t)) N
                (fun i Hi => adjacent_diag N sim (cast t) i Hwf Ht Hi) s IH Hpos)
      as (cp & p & _ & _ & Hb & Hnext & _).
    rewrite Hb in Hbody.
    destruct (classno s + 1 <=? int16_max)%Z; [|discriminate].
    injection Hbody as <-. exact Hnext.
Qed.


Lemma reassign_nearest (st st' : simClassMap) (j : nat) (v : Z) :
  reassign st = (Returned, st') ->
  nth_error (map st') j = Some v ->
  exists c, v = plus_one c /\ nearest (simmat st) (prototypes st) j c.
Proof.
  intros H Hj.
  apply reassign_inv in H as (am & es & -> & _ & _ & _ & Hnear & _).
  unfold reassigned in Hj. simpl in Hj. rewrite nth_error_map in Hj.
  destruct (nth_error am j) as [a|] eqn:Ha; [|discriminate].
  injection Hj as <-. exists a. split; [reflexivity|]. apply Hnear, Ha.
Qed.










Lemma reassign_again (st st1 : simClassMap) :
  reassign st = (Returned, st1) -> reassign st1 = (Returned, st1).
Proof.
  unfold reassign. intros H.
  destruct (Np.take (simmat st) (prototypes st)) as [submat|] eqn:Htake;
    [|discriminate].
  destruct (argmax_axis0 submat) as [am|] eqn:Ham; [|discriminate].
  simpl in H.
  destruct (Np.max (List.map plus_one am)) as [top|] eqn:Htop;
    [|discriminate].
  destruct (index_loop _ _ _ _ _) as [idx out] eqn:Hidx.
  injection H as -> <-. simpl.
  rewrite Htake, Ham. simpl. rewrite Htop, Hidx. reflexivity.
Qed.

(** C7.  A second [reassign] right after one that completed completes too
    and leaves the same assignment map. *)
Theorem reassign_idempotent (st st1 st2 : simClassMap) (o : outcome) :
  reassign st = (Returned, st1) -> reassign st1 = (o, st2) ->
  o = Returned /\ map st2 = map st1.
Proof.
  intros H1 H2. rewrite (reassign_again st st1 H1) in H2.
  injection H2 as <- <-. split; reflexivity.
Qed.

Lemma reassign_idempotent_witness :
  Returned = Returned /\ map objB_reassigned = map objB_reassigned.
Proof.
  apply (reassign_idempotent objB objB_reassigned objB_reassigned Returned).
  - vm_compute. reflexivity.
  - vm_compute. reflexivity.
Defined.

Lemma index_loop_outcome {M : Type} (protos : list nat) :
  forall i (membs : list (list M)) total acc,
  snd (index_loop protos i membs total acc) = Returned
  \/ snd (index_loop protos i membs total acc) = Raised IndexError
  \/ snd (index_loop protos i membs total acc) = Raised ZeroDivisionError.
Proof.
  induction protos as [|p rest IH]; intros i membs total acc; simpl;
    [auto|].
  destruct (nth_error membs i) as [ms|]; [|auto].
  destruct (true_div (length ms) total); [apply IH|auto].
Qed.

(** C8.  [augment] raises its exception, whose message gives both first
    dimensions, exactly when the first dimension of the data differs from
    that of the matrix; the object is then as it was, so nothing of the
    primary partition has changed and no attribute of the secondary result
    has been set. *)
Theorem augment_shape_check (datafull : nat) (simmat2' : matrix)
    (st : simClassMap) :
  ((exists msg, fst (augment datafull simmat2' st) = Raised (Exception msg))
   <-> datafull <> length simmat2')
  /\ (datafull <> length simmat2' ->
      augment datafull simmat2' st
      = (Raised (Exception
           ("First dimension " ++ decimal datafull
            ++ " of data array doesn't match first dimension "
            ++ decimal (length simmat2') ++ " of similarity matrix")%string),
         st)).
Proof.
  assert (Hraise : datafull <> length simmat2' ->
            augment datafull simmat2' st
            = (Raised (Exception (shape_message datafull (length simmat2'))),
               st)).
  { intros Hne. unfold augment.
    apply Nat.eqb_neq in Hne. rewrite Hne. reflexivity. }
  split; [split|exact Hraise].
  - intros [msg Hmsg] Heq. unfold augment in Hmsg.
    apply Nat.eqb_eq in Heq. rewrite Heq in Hmsg. simpl in Hmsg.
    destruct (argmax_axis0 simmat2'); [|discriminate].
    destruct (argmax_axis1 simmat2'); [|discriminate].
    simpl in Hmsg.
    destruct (Np.max _); [|discriminate].
    match type of Hmsg with
    | context [index_loop ?p ?i ?m ?t ?a] =>
        pose proof (index_loop_outcome p i m t a) as Hout;
        destruct (index_loop p i m t a) as [ix out]
    end.
    simpl in Hout.
    destruct Hout as [->|[->| ->]]; discriminate.
  - intros Hne. rewrite (Hraise Hne). simpl. eauto.
Qed.

Lemma augment_shape_check_witness :
  augment 3 [[1]; [1#2]]%Q obj4
  = (Raised (Exception
       "First dimension 3 of data array doesn't match first dimension 2 of similarity matrix"),
     obj4).
Proof.
  apply (proj2 (augment_shape_check 3 [[1]; [1#2]]%Q obj4)).
  simpl. lia.
Defined.

(** [sort] never touches the prototype sequence: its list [p] collects
    [prototypes[i]] by position, not the prototype of the entry [c]. *)
Lemma sort_prototypes_unchanged (N : nat) (st st' : simClassMap) :
  consistent N st -> sort st = (Returned, st') ->
  prototypes st' = prototypes st.
Proof.
  intros Hc Hs. destruct (sort_consistent N st Hc) as [Heq _].
  rewrite Heq in Hs. injection Hs as <-. reflexivity.
Qed.

(** C2.  After creation over [simB] and [reassign] the classes count 1
    and 3 members.  [sort] renumbers them by size, rewrites the map and
    reorders the member lists and the index, but the prototype sequence
    stays 0, 3: its entry for class 1 is index 0, while the index entry of
    class 1 has prototype 3 and members 1, 2, 3. *)
Theorem sort_leaves_prototypes_in_old_order :
  reachable to_float64 simB (1#2) objB_reassigned
  /\ prototypes objB_reassigned = [0; 3]
  /\ List.map (@entry_count _) (index objB_reassigned) = [1; 3]
  /\ sort objB_reassigned = (Returned, objB_sorted)
  /\ List.map (@entry_class _) (index objB_sorted) = [1; 2]%Z
  /\ List.map (@entry_count _) (index objB_sorted) = [3; 1]
  /\ List.map (@entry_prototype _) (index objB_sorted) = [3; 0]
  /\ members objB_sorted = [[1; 2; 3]; [0]]
  /\ map objB_sorted = [2; 1; 1; 1]%Z
  /\ prototypes objB_sorted = [0; 3].
Proof.
  split; [apply objB_reassigned_reachable|].
  repeat split; vm_compute; reflexivity.
Qed.

(** Every entry of [index2] counts one member: [count] is the length of
    the tuple that [np.where] returned. *)
Lemma augment_count_one (datafull : nat) (simmat2' : matrix)
    (st st' : simClassMap) (ix : list (entry (list (list nat))))
    (e : entry (list (list nat))) :
  augment datafull simmat2' st = (Returned, st') ->
  index2 st' = Some ix -> In e ix -> entry_count e = 1.
Proof.
  unfold augment. intros H Hix He.
  destruct (negb (datafull =? length simmat2')); [discriminate|].
  destruct (argmax_axis0 simmat2') as [p2|]; [|discriminate].
  destruct (argmax_axis1 simmat2') as [am|]; [|discriminate].
  simpl in H.
  destruct (Np.max _) as [top|]; [|discriminate].
  destruct (index_loop _ _ _ _ _) as [idx out] eqn:Hidx.
  destruct out; [|discriminate].
  injection H as <-. simpl in Hix. injection Hix as <-.
  apply index_loop_returned in Hidx as (es & -> & [_ Hm _ Hn _]).
  simpl in He. rewrite (Hn e He).
  assert (Hin : In (entry_members e) (List.map (@entry_members _) es))
    by (apply in_map; exact He).
  rewrite Hm in Hin. simpl in Hin.
  assert (Hin' : In (entry_members e)
                   (List.map (fun i => [Np.where_eq (List.map plus_one am)
                                          (plus_one i)])
                             (seq 0 (Z.to_nat top)))).
  { rewrite <- (firstn_skipn (length p2)). apply in_or_app. left.
    exact Hin. }
  apply in_map_iff in Hin' as (i & <- & _). reflexivity.
Qed.

(** C3.  With two rows of data that both go to class 1, [augment] returns
    with map2 = 1, 1 and one tuple holding the rows 0 and 1 as the members
    of class 1, but the entry of [index2] has count 1 and fraction 1/2:
    the count is the length of the tuple, not the number of rows. *)
Theorem augment_counts_the_tuple :
  exists st',
    augment 2 [[1]; [1#2]]%Q obj4 = (Returned, st')
    /\ map2 st' = Some [1; 1]%Z
    /\ members2 st' = Some [[[0; 1]]]
    /\ totalcount2 st' = Some 2
    /\ option_map (List.map (@entry_count _)) (index2 st') = Some [1]
    /\ option_map (List.map (@entry_members _)) (index2 st')
       = Some [[[0; 1]]]
    /\ option_map (List.map (@entry_fraction _)) (index2 st')
       = Some [1 / 2]%Q.
Proof.
  eexists. split; [vm_compute; reflexivity|].
  repeat split.
Qed.

(** Two identical points, each the prototype of a class of its own: an
    object set up through its attributes, which no creation produces (the
    greedy pass puts identical points into one class). *)
Definition obj2 : simClassMap :=
  mkObj 1 2 sim2 [0; 1] [[0]; [1]] [1; 2]%Z 2
        [mkEntry 1 0 1 [0] (1 # 2); mkEntry 2 1 1 [1] (1 # 2)]
        None None None None None None None.

Lemma obj2_consistent : consistent 2 obj2.
Proof.
  constructor; simpl; try reflexivity.
  - intros [|[|[|c]]] ms i H Hi; simpl in H; try discriminate;
      injection H as <-; destruct Hi as [<-|[]]; reflexivity.
  - intros e [<-|[<-|[]]]; reflexivity.
Qed.

(** C4.  On every object that creation, [reassign], [sort] and
    [truncate] produce from a well-formed matrix of at least one point,
    [reassign] returns normally: every index below [N] gets a class
    between 1 and the number of prototypes, none is left with class 0,
    there is a member list for every prototype, and the member lists are
    an exact partition that the assignment map agrees with.  The objects
    of the degenerate classifications (every point a class of its own, or
    one class of all points) are among them. *)
Theorem reassign_completes_on_valid_partition {cast : Q -> Q} (N : nat)
    (sim : matrix) (t : Q) (st : simClassMap) :
  well_formed N sim -> (cast t <= 1)%Q -> 0 < N ->
  reachable cast sim t st ->
  exists st',
    reassign st = (Returned, st')
    /\ length (map st') = N
    /\ (forall j, j < N ->
          exists c, nth_error (map st') j = Some (plus_one c)
                    /\ c < length (prototypes st))
    /\ (forall j v, nth_error (map st') j = Some v ->
          (1 <= v <= Z.of_nat (length (prototypes st)))%Z)
    /\ prototypes st' = prototypes st
    /\ length (members st') = length (prototypes st)
    /\ exact_partition N (members st')
    /\ agrees N (map st') (members st').
Proof.
  intros Hwf Ht HN Hreach.
  pose proof (reachable_good N sim t st Hwf Ht Hreach) as Hgood.
  destruct (reachable_methods_complete N sim t st Hwf Ht Hreach)
    as (Hne & _).
  specialize (Hne HN).
  destruct (good_reassign_total N sim st Hwf Hgood Hne) as [st' Hr].
  pose proof Hgood as (Hsim & Hc & Hsep).
  destruct (good_reassign N sim st st' Hwf Hsim (co_total N st Hc) Hsep Hr)
    as (_ & Hc' & _).
  assert (Hprot : prototypes st' = prototypes st).
  { apply reassign_inv in Hr as (am & es & -> & _). reflexivity. }
  assert (Hval : forall j v, nth_error (map st') j = Some v ->
            exists c, v = plus_one c /\ c < length (prototypes st)).
  { intros j v Hj.
    destruct (reassign_nearest st st' j v Hr Hj) as (c & -> & Hnear).
    exists c. split; [reflexivity|].
    pose proof (first_max_lt _ _ _ _ Hnear) as Hlt.
    rewrite length_map in Hlt. exact Hlt. }
  exists st'. split; [exact Hr|].
  split; [apply (co_len_map N st' Hc')|].
  split; [|split; [|split; [|split]]].
  - intros j Hj.
    destruct (nth_error (map st') j) as [v|] eqn:Hv.
    + destruct (Hval j v Hv) as (c & -> & Hlt). exists c. split;
        [reflexivity|exact Hlt].
    + apply nth_error_None in Hv. rewrite (co_len_map N st' Hc') in Hv. lia.
  - intros j v Hj. destruct (Hval j v Hj) as (c & -> & Hlt).
    unfold plus_one. lia.
  - exact Hprot.
  - rewrite (co_len_members N st' Hc'), Hprot. reflexivity.
  - apply consistent_partition. exact Hc'.
Qed.

Lemma reassign_completes_on_valid_partition_witness :
  exists st',
    reassign objB = (Returned, st')
    /\ length (map st') = 4
    /\ (forall j, j < 4 ->
          exists c, nth_error (map st') j = Some (plus_one c)
                    /\ c < length (prototypes objB))
    /\ (forall j v, nth_error (map st') j = Some v ->
          (1 <= v <= Z.of_nat (length (prototypes objB)))%Z)
    /\ prototypes st' = prototypes objB
    /\ length (members st') = length (prototypes objB)
    /\ exact_partition 4 (members st')
    /\ agrees 4 (map st') (members st').
Proof.
  apply (reassign_completes_on_valid_partition (cast:=to_float64)
           4 simB (1#2) objB).
  - apply simB_well_formed.
  - unfold to_float64, Qle. simpl. lia.
  - lia.
  - apply objB_reachable.
Defined.


(** * Further properties of the greedy pass *)

Lemma pass_loop_reach {cast : Q -> Q}
    (sim : matrix) (t : Q) (fuel : nat) : forall s s',
  pass_reach cast sim t s -> pass_loop fuel s = Ok s' ->
  pass_reach cast sim t s'.
Proof.
  induction fuel as [|fuel IH]; intros s s' Hreach Hloop; simpl in Hloop.
  - destruct (0 <? unclassified s)%Z; [discriminate|].
    injection Hloop as <-. exact Hreach.
  - destruct (0 <? unclassified s)%Z eqn:Hpos.
    + destruct (pass_body s) as [s1| |] eqn:Hbody; simpl in Hloop;
        try discriminate.
      apply (IH s1 s'); [|exact Hloop].
      apply (pass_reach_step cast sim t s s1 Hreach); [|exact Hbody].
      apply Z.ltb_lt. exact Hpos.
    + injection Hloop as <-. exact Hreach.
Qed.

(** Every member of a class is adjacent to the prototype of the class. *)
Definition pass_within (adj : nat -> nat -> bool) (s : pass) : Prop :=
  forall c p ms i,
    nth_error (classPrototypes s) c = Some p ->
    nth_error (classMembers s) c = Some ms ->
    In i ms -> adj p i = true.

Lemma pass_reach_within {cast : Q -> Q}
    (N : nat) (sim : matrix) (t : Q) (s : pass) :
  well_formed N sim -> (cast t <= 1)%Q -> pass_reach cast sim t s ->
  pass_within (adjacent sim (cast t)) s.
Proof.
  intros Hwf Ht Hreach.
  induction Hreach as [|s s' Hreach IH Hpos Hbody].
  - intros c p ms i H. destruct c; discriminate.
  - pose proof (pass_reach_good N sim t s Hwf Ht Hreach) as Hgood.
    destruct (pass_body_good (adjacent sim (cast t)) N
                (fun i Hi => adjacent_diag N sim (cast t) i Hwf Ht Hi) s Hgood Hpos)
      as (cp & p & _ & _ & Hb & _ & _).
    rewrite Hb in Hbody.
    destruct (classno s + 1 <=? int16_max)%Z; [|discriminate].
    injection Hbody as <-.
    destruct Hgood as (Hinv & _).
    intros c q ms i Hq Hms Hi. unfold pass_next in Hq, Hms. simpl in Hq, Hms.
    apply nth_error_snoc in Hq as [[Hc Hq]|[Hc ->]];
      apply nth_error_snoc in Hms as [[Hc' Hms]|[Hc' ->]].
    + apply (IH c q ms i Hq Hms Hi).
    + rewrite (pi_len_protos Hinv) in Hc. lia.
    + rewrite (pi_len_protos Hinv) in Hc. lia.
    + apply filter_In in Hi. apply Hi.
Qed.

Lemma init_pass_reach {cast : Q -> Q} (fuel d : nat) (sim : matrix) (t : Q)
    (st : simClassMap) :
  __init__ cast fuel d sim t = Ok st ->
  exists s,
    pass_reach cast sim t s
    /\ prototypes st = classPrototypes s
    /\ members st = classMembers s
    /\ map st = classAssigned s.
Proof.
  intros H. apply init_inv in H as (s & es & Hloop & _ & ->).
  exists s. simpl. repeat split.
  apply (pass_loop_reach sim t fuel (pass_start cast sim t) s);
    [constructor|exact Hloop].
Qed.

Lemma concat_length_ge {A : Type} (L : list (list A)) :
  (forall l, In l L -> l <> []) -> length L <= length (concat L).
Proof.
  induction L as [|l L IH]; intros Hne; simpl; [lia|].
  rewrite length_app.
  assert (length L <= length (concat L))
    by (apply IH; intros; apply Hne; right; assumption).
  assert (l <> []) by (apply Hne; left; reflexivity).
  destruct l; [congruence|simpl; lia].
Qed.

(** X1.  Over a well-formed matrix with at least one point and a threshold
    of at most 1 (as it is compared), creation finds at least one class
    and at most as many classes as there are points, and no class is
    empty. *)
Theorem class_count_bound {cast : Q -> Q}
    (N fuel d : nat) (sim : matrix) (t : Q)
    (st : simClassMap) :
  well_formed N sim -> (cast t <= 1)%Q -> 0 < N ->
  __init__ cast fuel d sim t = Ok st ->
  1 <= length (prototypes st) <= N
  /\ length (members st) = length (prototypes st)
  /\ forall ms, In ms (members st) -> ms <> [].
Proof.
  intros Hwf Ht HN Hinit.
  destruct (init_consistent N fuel d sim t st Hwf Ht Hinit)
    as (_ & Hc & _ & _ & _ & Hself).
  pose proof (co_len_members N st Hc) as Hlen.
  pose proof (co_perm N st Hc) as Hperm.
  assert (Hne : forall ms, In ms (members st) -> ms <> []).
  { intros ms Hms Hnil. apply In_nth_error in Hms as [c Hc'].
    assert (c < length (prototypes st)) as Hlt.
    { rewrite <- Hlen. apply nth_error_Some. congruence. }
    destruct (nth_error (prototypes st) c) as [p|] eqn:Hp;
      [|apply nth_error_None in Hp; lia].
    specialize (Hself c p ms Hp Hc'). rewrite Hnil in Hself. exact Hself. }
  split; [|split; [exact Hlen|exact Hne]].
  pose proof (concat_length_ge (members st) Hne) as Hle.
  rewrite (Permutation_length Hperm), length_seq in Hle.
  split; [|lia].
  destruct (members st) as [|ms r] eqn:Hm; [|simpl in Hlen; lia].
  apply Permutation_length in Hperm. rewrite length_seq in Hperm.
  simpl in Hperm. lia.
Qed.

Lemma class_count_bound_witness :
  1 <= length (prototypes objB) <= 4
  /\ length (members objB) = length (prototypes objB)
  /\ forall ms, In ms (members objB) -> ms <> [].
Proof.
  apply (class_count_bound (cast:=to_float64) 4 4 4 simB (1#2) objB).
  - apply simB_well_formed.
  - unfold Qle. simpl. lia.
  - lia.
  - vm_compute. reflexivity.
Defined.

(** X2.  After creation every prototype is a member of its own class and
    every member of a class is similar to the prototype of the class by at
    least the threshold as it is compared: the value [cast t] that the
    conversion to the dtype of the matrix gives, which for a [float32]
    matrix can lie below or above the Python float [t] itself. *)
Theorem members_within_threshold {cast : Q -> Q}
    (N fuel d : nat) (sim : matrix) (t : Q)
    (st : simClassMap) (c p : nat) (ms : list nat) :
  well_formed N sim -> (cast t <= 1)%Q ->
  __init__ cast fuel d sim t = Ok st ->
  nth_error (prototypes st) c = Some p ->
  nth_error (members st) c = Some ms ->
  In p ms /\ forall i, In i ms -> (cast t <= get sim p i)%Q.
Proof.
  intros Hwf Ht Hinit Hp Hms.
  destruct (init_consistent N fuel d sim t st Hwf Ht Hinit)
    as (_ & _ & _ & _ & _ & Hself).
  split; [apply (Hself c p ms Hp Hms)|].
  destruct (init_pass_reach fuel d sim t st Hinit)
    as (s & Hreach & Hpr & Hme & _).
  rewrite Hpr in Hp. rewrite Hme in Hms.
  intros i Hi.
  pose proof (pass_reach_within N sim t s Hwf Ht Hreach c p ms i Hp Hms Hi)
    as Hadj.
  unfold adjacent in Hadj. apply Qle_bool_iff. exact Hadj.
Qed.

Lemma members_within_threshold_witness :
  In 0 [0; 1; 2] /\ forall i, In i [0; 1; 2] -> (1#2 <= get simB 0 i)%Q.
Proof.
  apply (members_within_threshold (cast:=to_float64)
          4 4 4 simB (1#2) objB 0 0 [0; 1; 2]).
  - apply simB_well_formed.
  - unfold Qle. simpl. lia.
  - vm_compute. reflexivity.
  - reflexivity.
  - reflexivity.
Defined.

(** X3.  After creation the prototypes of two different classes are less
    similar to each other than the threshold as it is compared. *)
Theorem prototypes_below_threshold {cast : Q -> Q}
    (N fuel d : nat) (sim : matrix) (t : Q)
    (st : simClassMap) (c c' p p' : nat) :
  well_formed N sim -> (cast t <= 1)%Q ->
  __init__ cast fuel d sim t = Ok st ->
  c <> c' ->
  nth_error (prototypes st) c = Some p ->
  nth_error (prototypes st) c' = Some p' ->
  (get sim p p' < cast t)%Q.
Proof.
  intros Hwf Ht Hinit Hcc Hp Hp'.
  destruct (init_pass_reach fuel d sim t st Hinit)
    as (s & Hreach & Hpr & _ & _).
  destruct (init_consistent N fuel d sim t st Hwf Ht Hinit)
    as (_ & _ & (Hlt & _) & _).
  pose proof (pass_reach_good N sim t s Hwf Ht Hreach) as (_ & Hsep & _).
  rewrite Hpr in Hp, Hp'.
  destruct (Nat.lt_trichotomy c c') as [H|[H|H]]; [|congruence|].
  - apply adjacent_false. apply (ps_protos Hsep H Hp Hp').
  - assert (Hq : (get sim p' p < cast t)%Q)
      by (apply adjacent_false; apply (ps_protos Hsep H Hp' Hp)).
    assert (p < N /\ p' < N) as [HpN Hp'N].
    { split; apply Hlt; rewrite Hpr; eapply nth_error_In; eauto. }
    rewrite (wf_symmetric Hwf HpN Hp'N). exact Hq.
Qed.

Lemma prototypes_below_threshold_witness : (get simB 3 0 < 1#2)%Q.
Proof.
  apply (prototypes_below_threshold (cast:=to_float64)
          4 4 4 simB (1#2) objB 1 0 3 0).
  - apply simB_well_formed.
  - unfold Qle. simpl. lia.
  - vm_compute. reflexivity.
  - lia.
  - reflexivity.
  - reflexivity.
Defined.

Lemma filter_none {A : Type} (f : A -> bool) (l : list A) :
  (forall x, In x l -> f x = false) -> filter f l = [].
Proof.
  induction l as [|a l IH]; intros H; simpl; [reflexivity|].
  rewrite (H a (or_introl eq_refl)). apply IH.
  intros x Hx. apply H. right. exact Hx.
Qed.

Lemma filter_all {A : Type} (f : A -> bool) (l : list A) :
  (forall x, In x l -> f x = true) -> filter f l = l.
Proof.
  intros H. apply forallb_filter_id, forallb_forall. exact H.
Qed.

(** A loop state in which no live row has a live neighbour, itself
    included: the turn of the loop classifies nothing. *)
Definition stuck (adj : nat -> nat -> bool) (s : pass) : Prop :=
  mask s = sub_mask adj (indexMap s)
  /\ indexMap s <> []
  /\ (forall i, In i (indexMap s) -> i < length (classAssigned s))
  /\ (0 < unclassified s)%Z
  /\ (forall i j, In i (indexMap s) -> In j (indexMap s) -> adj i j = false).

Lemma stuck_body (adj : nat -> nat -> bool) (s : pass) :
  stuck adj s ->
  exists s',
    pass_body s = (if (classno s + 1 <=? int16_max)%Z
                   then Ok s' else Raise OverflowError)
    /\ stuck adj s' /\ classno s' = (classno s + 1)%Z.
Proof.
  intros (Hmask & Hne & Hrange & Hpos & Hadj).
  destruct (pass_body_ok adj s Hmask Hne Hrange) as (cp & p & _ & Hp & Hb).
  assert (Hin : In p (indexMap s)) by (eapply nth_error_In; eauto).
  assert (Hnone : filter (adj p) (indexMap s) = []).
  { apply filter_none. intros j Hj. apply Hadj; assumption. }
  assert (Hall : filter (fun j => negb (adj p j)) (indexMap s) = indexMap s).
  { apply filter_all. intros j Hj. rewrite (Hadj p j Hin Hj). reflexivity. }
  exists (pass_next adj s p). split; [exact Hb|]. split; [|reflexivity].
  unfold stuck, pass_next. simpl. rewrite Hall, Hnone. simpl.
  split; [reflexivity|]. split; [exact Hne|]. split; [|split].
  - intros i Hi. rewrite length_store_from. apply Hrange, Hi.
  - lia.
  - exact Hadj.
Qed.

Lemma stuck_loop (adj : nat -> nat -> bool) (fuel : nat) : forall s,
  stuck adj s -> (classno s <= int16_max)%Z ->
  pass_loop fuel s
  = if (Z.of_nat fuel + classno s <=? int16_max)%Z
    then OutOfFuel else Raise OverflowError.
Proof.
  induction fuel as [|fuel IH]; intros s Hstuck Hcls.
  - destruct Hstuck as (_ & _ & _ & Hpos & _). simpl.
    apply Z.ltb_lt in Hpos. rewrite Hpos.
    replace (classno s <=? int16_max)%Z with true
      by (symmetry; apply Z.leb_le; exact Hcls).
    reflexivity.
  - destruct (stuck_body adj s Hstuck) as (s' & Hb & Hstuck' & Hc').
    destruct Hstuck as (_ & _ & _ & Hpos & _).
    cbn [pass_loop]. apply Z.ltb_lt in Hpos. rewrite Hpos, Hb.
    destruct (Z.leb_spec (classno s + 1) int16_max) as [Hle|Hgt].
    + simpl bind. rewrite (IH s' Hstuck') by lia. rewrite Hc'.
      destruct (Z.leb_spec (Z.of_nat fuel + (classno s + 1)) int16_max),
        (Z.leb_spec (Z.of_nat (S fuel) + classno s) int16_max);
        try reflexivity; lia.
    + simpl bind.
      destruct (Z.leb_spec (Z.of_nat (S fuel) + classno s) int16_max);
        [lia|reflexivity].
Qed.

(** X4.  When every similarity value is below the threshold as it is
    compared (as with a threshold that is still above 1 after the
    conversion to the dtype of a well-formed matrix) and there is at least
    one point, creation never returns an object: every turn of the loop opens
    an empty class and classifies nothing, until the class number leaves
    the range of [int16]; with less fuel than that the loop is still
    running. *)
Theorem threshold_above_all_never_returns {cast : Q -> Q}
    (N fuel d : nat) (sim : matrix)
    (t : Q) :
  square N sim -> 0 < N ->
  (forall i j, i < N -> j < N -> (get sim i j < cast t)%Q) ->
  __init__ cast fuel d sim t
  = if (Z.of_nat fuel <=? int16_max)%Z then OutOfFuel
    else Raise OverflowError.
Proof.
  intros Hsq HN Hbelow.
  assert (Hstuck : stuck (adjacent sim (cast t)) (pass_start cast sim t)).
  { unfold stuck, pass_start. rewrite (proj1 Hsq). simpl.
    unfold Np.arange, Np.zeros.
    split; [apply threshold_mask_sub_mask; exact Hsq|].
    split; [destruct N; [lia|discriminate]|].
    split; [intros i Hi; apply in_seq in Hi; rewrite repeat_length; lia|].
    split; [lia|].
    intros i j Hi Hj. apply in_seq in Hi, Hj.
    unfold adjacent. apply not_true_iff_false. intros H.
    apply Qle_bool_iff in H.
    apply (Qlt_not_le _ _ (Hbelow i j (proj2 Hi) (proj2 Hj))). exact H. }
  unfold __init__.
  rewrite (stuck_loop (adjacent sim (cast t)) fuel (pass_start cast sim t) Hstuck)
    by (simpl; unfold int16_max; lia).
  simpl classno. rewrite Z.add_0_r.
  destruct (Z.of_nat fuel <=? int16_max)%Z; reflexivity.
Qed.

Lemma threshold_above_all_never_returns_witness :
  __init__ to_float64 10 4 sim4 2 = OutOfFuel.
Proof.
  apply (threshold_above_all_never_returns (cast:=to_float64) 4 10 4 sim4 2).
  - apply (wf_square sim4_well_formed).
  - lia.
  - intros i j Hi Hj.
    apply (Qle_lt_trans _ 1); [apply (wf_range sim4_well_formed Hi Hj)|].
    unfold Qlt. simpl. lia.
Defined.

Lemma store_from_all (v : list Z) (idx : list nat) (c : Z) : forall k,
  (forall i, k <= i < k + length v -> In i idx) ->
  Np.store_from k v idx c = repeat c (length v).
Proof.
  induction v as [|x r IH]; intros k H; simpl; [reflexivity|].
  replace (existsb (Nat.eqb k) idx) with true.
  2:{ symmetry. apply existsb_eqb_In, H. simpl. lia. }
  rewrite IH; [reflexivity|].
  intros i Hi. apply H. simpl. lia.
Qed.

(** X5.  When all pairs of points are similar by at least the threshold
    as it is compared, creation puts every point into one class with
    prototype 0. *)
Theorem all_similar_single_class {cast : Q -> Q}
    (N fuel d : nat) (sim : matrix) (t : Q) :
  square N sim -> 0 < N -> 0 < fuel ->
  (forall i j, i < N -> j < N -> (cast t <= get sim i j)%Q) ->
  exists st,
    __init__ cast fuel d sim t = Ok st
    /\ prototypes st = [0]
    /\ members st = [seq 0 N]
    /\ map st = repeat 1%Z N.
Proof.
  intros Hsq HN Hfuel Hall.
  assert (Hadj : forall i j, In i (seq 0 N) -> In j (seq 0 N) ->
            adjacent sim (cast t) i j = true).
  { intros i j Hi Hj. apply in_seq in Hi, Hj. unfold adjacent.
    apply Qle_bool_iff, Hall; lia. }
  set (s0 := pass_start cast sim t).
  assert (Hlive : indexMap s0 = seq 0 N).
  { unfold s0, pass_start, Np.arange. simpl. rewrite (proj1 Hsq).
    reflexivity. }
  assert (Hass : classAssigned s0 = repeat 0%Z N).
  { unfold s0, pass_start, Np.zeros. simpl. rewrite (proj1 Hsq).
    reflexivity. }
  destruct (pass_body_ok (adjacent sim (cast t)) s0) as (cp & p & Hfirst & Hp & Hb).
  { rewrite Hlive. unfold s0, pass_start. simpl.
    apply threshold_mask_sub_mask. exact Hsq. }
  { rewrite Hlive. destruct N; [lia|discriminate]. }
  { rewrite Hlive, Hass, repeat_length. intros i Hi.
    apply in_seq in Hi. lia. }
  rewrite Hlive in Hfirst, Hp.
  assert (Hdeg : forall i, In i (seq 0 N) ->
            degree (adjacent sim (cast t)) (seq 0 N) i = N).
  { intros i Hi. unfold degree. rewrite filter_all; [apply length_seq|].
    intros j Hj. apply Hadj; assumption. }
  assert (cp = 0).
  { destruct cp as [|cp]; [reflexivity|]. exfalso.
    assert (Hp0 : nth_error (seq 0 N) 0 = Some 0)
      by (destruct N; [lia|reflexivity]).
    destruct (first_max_degree (adjacent sim (cast t)) (seq 0 N) (S cp) p
                Hfirst Hp 0 0 Hp0) as [_ Hlt].
    specialize (Hlt (Nat.lt_0_succ cp)).
    rewrite (Hdeg 0), (Hdeg p) in Hlt; try lia.
    - eapply nth_error_In; eauto.
    - apply in_seq. lia. }
  subst cp.
  assert (p = 0).
  { destruct N; [lia|]. simpl in Hp. congruence. }
  subst p.
  assert (Hin0 : In 0 (seq 0 N)) by (apply in_seq; lia).
  assert (Hnext : pass_next (adjacent sim (cast t)) s0 0
                  = mkPass [0] [seq 0 N] (repeat 1%Z N) [] 0%Z 1%Z
                           (sub_mask (adjacent sim (cast t)) [])).
  { unfold pass_next. rewrite Hlive, Hass.
    rewrite (filter_all (adjacent sim (cast t) 0))
      by (intros j Hj; apply Hadj; assumption).
    rewrite filter_none
      by (intros j Hj; rewrite (Hadj 0 j Hin0 Hj); reflexivity).
    rewrite store_from_all
      by (rewrite repeat_length; intros i Hi; apply in_seq; lia).
    rewrite repeat_length, length_seq.
    unfold s0, pass_start. simpl. rewrite (proj1 Hsq).
    rewrite Z.sub_diag. reflexivity. }
  rewrite Hnext in Hb.
  change (classno s0 + 1 <=? int16_max)%Z with true in Hb.
  assert (Hpos : (0 <? unclassified s0)%Z = true).
  { unfold s0, pass_start. simpl. rewrite (proj1 Hsq).
    apply Z.ltb_lt. lia. }
  destruct fuel as [|fuel]; [lia|].
  unfold __init__. fold s0. cbn [pass_loop]. rewrite Hpos, Hb.
  simpl bind.
  assert (Hdone : forall f s, unclassified s = 0%Z -> pass_loop f s = Ok s).
  { intros f s Hu. destruct f; simpl; rewrite Hu; reflexivity. }
  rewrite Hdone by reflexivity. simpl.
  rewrite repeat_length.
  destruct N as [|n]; [lia|]. simpl true_div. cbv iota.
  eexists. split; [reflexivity|]. simpl. repeat split.
Qed.

Lemma all_similar_single_class_witness :
  exists st,
    __init__ to_float64 1 2 sim2 1 = Ok st
    /\ prototypes st = [0]
    /\ members st = [seq 0 2]
    /\ map st = repeat 1%Z 2.
Proof.
  apply (all_similar_single_class (cast:=to_float64) 2 1 2 sim2 1).
  - apply (wf_square sim2_well_formed).
  - lia.
  - lia.
  - intros i j Hi Hj.
    destruct i as [|[|i]]; [| |lia]; destruct j as [|[|j]]; try lia;
      unfold Qle; simpl; lia.
Defined.

(** X6.  Over a well-formed matrix of at most 32767 points and with a
    threshold of at most 1 (as it is compared), creation ends normally
    within [N] turns of the loop; the object keeps the matrix, the
    threshold and the data it was given, has total and length of the map
    [N], and none of the seven secondary attributes. *)
Theorem creation_completes {cast : Q -> Q}
    (N fuel d : nat) (sim : matrix) (t : Q) :
  well_formed N sim -> (cast t <= 1)%Q -> N <= fuel ->
  (Z.of_nat N <= int16_max)%Z ->
  exists st,
    __init__ cast fuel d sim t = Ok st
    /\ simmat st = sim /\ thresh st = t /\ data st = d
    /\ totalcount st = N /\ length (map st) = N
    /\ data2 st = None /\ simmat2 st = None /\ prototypes2 st = None
    /\ map2 st = None /\ totalcount2 st = None /\ members2 st = None
    /\ index2 st = None.
Proof.
  intros Hwf Ht Hfuel Hsmall.
  destruct (init_total N fuel d sim t Hwf Ht Hfuel Hsmall) as [st Hst].
  exists st. split; [exact Hst|].
  destruct (init_consistent N fuel d sim t st Hwf Ht Hst)
    as (_ & Hc & _).
  pose proof (co_total N st Hc) as Htot.
  pose proof (co_len_map N st Hc) as Hlen.
  apply init_inv in Hst as (s & es & _ & _ & ->). simpl in *.
  repeat split; assumption.
Qed.

Lemma creation_completes_witness :
  exists st,
    __init__ to_float64 4 7 simB (1#2) = Ok st
    /\ simmat st = simB /\ thresh st = (1#2)%Q /\ data st = 7
    /\ totalcount st = 4 /\ length (map st) = 4
    /\ data2 st = None /\ simmat2 st = None /\ prototypes2 st = None
    /\ map2 st = None /\ totalcount2 st = None /\ members2 st = None
    /\ index2 st = None.
Proof.
  apply (creation_completes (cast:=to_float64) 4 4 7 simB (1#2)).
  - apply simB_well_formed.
  - unfold Qle. simpl. lia.
  - lia.
  - unfold int16_max. simpl. lia.
Defined.

(** * Further properties of the methods *)

(** X8.  On an object produced by creation, [reassign], [sort] and
    [truncate] over a well-formed matrix, [reassign] keeps every prototype
    in the class it stands for, so no class loses all its members. *)
Theorem reassign_keeps_prototype_in_class {cast : Q -> Q}
    (N : nat) (sim : matrix) (t : Q)
    (st st' : simClassMap) (c p : nat) :
  well_formed N sim -> (cast t <= 1)%Q -> reachable cast sim t st ->
  reassign st = (Returned, st') ->
  nth_error (prototypes st') c = Some p ->
  nth_error (map st') p = Some (plus_one c)
  /\ exists ms, nth_error (members st') c = Some ms /\ In p ms.
Proof.
  intros Hwf Ht Hreach Hr Hp.
  destruct (reachable_good N sim t st Hwf Ht Hreach) as (Hsim & Hc & Hsep).
  destruct (reassign_consistent N st st') as (Hc' & _ & Hpr & _ & _);
    [rewrite Hsim; apply (wf_square Hwf)|apply (co_total N st Hc)|exact Hr|].
  rewrite Hpr in Hp.
  assert (HpN : p < N) by (eapply (proj1 Hsep), nth_error_In; eauto).
  destruct (nth_error (map st') p) as [v|] eqn:Hv.
  2:{ apply nth_error_None in Hv. rewrite (co_len_map N st' Hc') in Hv. lia. }
  destruct (reassign_nearest st st' p v Hr Hv) as (a & -> & Hnear).
  assert (a = c).
  { apply (first_max_unique Q Np.Qltb Qltb_asym
             (List.map (fun q => get (simmat st) q p) (prototypes st))).
    - exact Hnear.
    - rewrite Hsim. apply (separated_nearest N sim); assumption. }
  subst a. split; [reflexivity|].
  destruct (consistent_partition N st' Hc') as [_ [_ Hag]].
  apply Hag. exact Hv.
Qed.

Lemma reassign_keeps_prototype_in_class_witness :
  nth_error (map objB_reassigned) 3 = Some (plus_one 1)
  /\ exists ms, nth_error (members objB_reassigned) 1 = Some ms /\ In 3 ms.
Proof.
  apply (reassign_keeps_prototype_in_class (cast:=to_float64) 4 simB (1#2) objB
           objB_reassigned 1 3).
  - apply simB_well_formed.
  - unfold Qle. simpl. lia.
  - apply objB_reachable.
  - vm_compute. reflexivity.
  - reflexivity.
Defined.

Lemma index_loop_outcome_by_length {M : Type} (protos : list nat)
    (membs : list (list M)) (total : nat) :
  total <> 0 ->
  (length protos <= length membs ->
   snd (index_loop protos 0 membs total []) = Returned)
  /\ (length membs < length protos ->
      snd (index_loop protos 0 membs total []) = Raised IndexError).
Proof.
  intros Ht. split; intros Hlen.
  - destruct (index_loop_total protos 0 membs total [] Ht) as [idx ->];
      [simpl; lia|reflexivity].
  - destruct (index_loop_short protos 0 membs total [] Ht) as [idx ->];
      [lia|simpl; lia|reflexivity].
Qed.

(** X9.  With at least one prototype, all of them rows of an [N] by [N]
    matrix, [reassign] returns normally exactly when some index has the
    last prototype as its nearest one; otherwise the class of highest
    number is left without members and [reassign] raises [IndexError]. *)
Theorem reassign_returns_iff_top_class_used (N : nat) (st : simClassMap) :
  square N (simmat st) -> totalcount st = N ->
  prototypes st <> [] ->
  (forall p, In p (prototypes st) -> p < N) ->
  (fst (reassign st) = Returned
   <-> exists j, j < N
         /\ nearest (simmat st) (prototypes st) j
                    (length (prototypes st) - 1))
  /\ (fst (reassign st) = Returned
      \/ fst (reassign st) = Raised IndexError).
Proof.
  intros Hsq Htot Hne Hrange.
  unfold reassign.
  rewrite (take_some []) by (intros p Hp; rewrite (proj1 Hsq); auto).
  destruct (argmax_axis0_some (simmat st) (prototypes st) Hne) as [am Ham].
  rewrite Ham. simpl.
  apply argmax_axis0_inv in Ham as (_ & Hlen & Hnear).
  assert (Hp0 : hd 0 (prototypes st) < N).
  { apply Hrange. destruct (prototypes st); [congruence|left; reflexivity]. }
  assert (HlenN : length am = N).
  { rewrite Hlen. apply square_row_length; assumption. }
  set (K := length (prototypes st)) in *.
  assert (HK : 0 < K).
  { unfold K. destruct (prototypes st); [congruence|simpl; lia]. }
  destruct (Np.max (List.map plus_one am)) as [top|] eqn:Htop.
  2:{ destruct am; [simpl in HlenN; lia|discriminate]. }
  apply max_spec in Htop as [Hin Hmax].
  apply in_map_iff in Hin as (a & Htopa & Ha).
  apply In_nth_error in Ha as [j0 Hj0].
  pose proof (first_max_lt _ _ _ _ (Hnear j0 a Hj0)) as HaK.
  rewrite length_map in HaK. fold K in HaK.
  set (membs := List.map _ (seq 0 (Z.to_nat top))).
  assert (Hlm : length membs = S a).
  { unfold membs. rewrite length_map, length_seq, <- Htopa.
    unfold plus_one. lia. }
  destruct (index_loop_outcome_by_length (prototypes st) membs
              (totalcount st)) as [Hok Hbad]; [lia|].
  fold K in Hok, Hbad.
  destruct (index_loop (prototypes st) 0 membs (totalcount st) [])
    as [idx out] eqn:Hidx.
  simpl in Hok, Hbad |- *.
  destruct (Nat.eq_dec (S a) K) as [Heq|Hneq].
  - rewrite Hok by lia. split; [|left; reflexivity].
    split; [|reflexivity]. intros _. exists j0. split.
    + rewrite <- HlenN. apply nth_error_Some. congruence.
    + replace (K - 1) with a by lia. apply Hnear. exact Hj0.
  - rewrite Hbad by lia. split; [|right; reflexivity].
    split; [discriminate|].
    intros (j & Hj & Hlast). exfalso.
    destruct (nth_error am j) as [b|] eqn:Hb;
      [|apply nth_error_None in Hb; lia].
    assert (b = K - 1).
    { apply (first_max_unique Q Np.Qltb Qltb_asym
               (List.map (fun q => get (simmat st) q j) (prototypes st)));
        [apply Hnear; exact Hb|exact Hlast]. }
    assert (In (plus_one b) (List.map plus_one am))
      by (apply in_map; eapply nth_error_In; eauto).
    specialize (Hmax _ H0). unfold plus_one in *. lia.
Qed.

Lemma reassign_returns_iff_top_class_used_witness :
  (fst (reassign obj2) = Returned
   <-> exists j, j < 2
         /\ nearest (simmat obj2) (prototypes obj2) j
                    (length (prototypes obj2) - 1))
  /\ (fst (reassign obj2) = Returned
      \/ fst (reassign obj2) = Raised IndexError).
Proof.
  apply (reassign_returns_iff_top_class_used 2 obj2).
  - apply (wf_square sim2_well_formed).
  - reflexivity.
  - discriminate.
  - intros p [<-|[<-|[]]]; lia.
Defined.

Lemma sorted_desc_fixed {M : Type} (l : list (entry M)) :
  StronglySorted (fun a b => entry_count b <= entry_count a) l ->
  sorted_desc l = l.
Proof.
  induction 1 as [|c r Hs IH Hall]; simpl; [reflexivity|].
  rewrite IH. destruct r as [|d r']; simpl; [reflexivity|].
  apply Forall_inv in Hall.
  replace (entry_count c <? entry_count d) with false; [reflexivity|].
  symmetry. apply Nat.ltb_ge. exact Hall.
Qed.

Lemma renumber_fixed {M : Type} (suf : list (entry M)) :
  forall (pre : list (entry M)),
  List.map (@entry_class _) suf
  = List.map plus_one (seq (length pre) (length suf)) ->
  renumber (length pre) (length suf) (pre ++ suf) = pre ++ suf.
Proof.
  induction suf as [|c r IH]; intros pre Hcls; simpl; [reflexivity|].
  simpl in Hcls. injection Hcls as Hc Hr.
  rewrite set_class_app. rewrite <- Hc.
  assert (Heta : mkEntry (entry_class c) (entry_prototype c) (entry_count c)
                   (entry_members c) (entry_fraction c) = c)
    by (destruct c; reflexivity).
  rewrite Heta.
  replace (pre ++ c :: r) with ((pre ++ [c]) ++ r)
    by (rewrite <- app_assoc; reflexivity).
  replace (S (length pre)) with (length (pre ++ [c]))
    by (rewrite length_app; simpl; lia).
  apply IH. rewrite length_app. simpl.
  replace (length pre + 1) with (S (length pre)) by lia. exact Hr.
Qed.

Lemma stores_rebuilds_map (N : nat) (st : simClassMap) :
  consistent N st ->
  stores 0 (index st) (Np.zeros (length (map st))) = map st.
Proof.
  intros Hc.
  pose proof (co_len_map N st Hc) as Hlen.
  pose proof (co_perm N st Hc) as Hperm.
  pose proof (co_index_members N st Hc) as Him.
  destruct (perm_exact_partition N (members st) Hperm) as (Hcov & _ & _).
  assert (Hnd : NoDup (concat (members st))).
  { eapply Permutation_NoDup; [apply Permutation_sym, Hperm|].
    apply seq_NoDup. }
  apply nth_error_ext. intros i.
  destruct (Nat.lt_ge_cases i N) as [Hi|Hi].
  - destruct (Hcov i Hi) as (c & ms & Hms & Hin & _).
    rewrite (co_agree N st Hc c ms i Hms Hin).
    rewrite <- Him, nth_error_map in Hms.
    destruct (nth_error (index st) c) as [e|] eqn:He; [|discriminate].
    injection Hms as <-.
    apply (stores_member (index st) 0 _ c e i He Hin).
    + unfold Np.zeros. rewrite repeat_length, Hlen. exact Hi.
    + intros k' e' Hk Hk' Hin'.
      assert (c = k'); [|lia].
      apply (NoDup_concat_unique (members st) c k'
               (entry_members e) (entry_members e') i Hnd);
        try assumption.
      * rewrite <- Him, nth_error_map, He. reflexivity.
      * rewrite <- Him, nth_error_map, Hk'. reflexivity.
  - assert (H1 : nth_error (map st) i = None)
      by (apply nth_error_None; lia).
    rewrite H1. apply nth_error_None.
    rewrite stores_length. unfold Np.zeros. rewrite repeat_length. lia.
Qed.

(** [sort] changes nothing on a coherent object whose index is already in
    descending order of count. *)
Lemma sort_fixed (N : nat) (st : simClassMap) :
  consistent N st ->
  StronglySorted (fun a b => entry_count b <= entry_count a) (index st) ->
  sort st = (Returned, st).
Proof.
  intros Hc Hs.
  destruct (sort_consistent N st Hc) as [Hsort _]. rewrite Hsort.
  f_equal. unfold sorted_obj.
  rewrite (sorted_desc_fixed (index st) Hs).
  rewrite (stores_rebuilds_map N st Hc).
  rewrite (co_index_members N st Hc).
  pose proof (renumber_fixed (index st) [] (co_index_class N st Hc)) as Hr.
  simpl in Hr. rewrite Hr.
  destruct st. reflexivity.
Qed.

Lemma sorted_by_counts {M : Type} (l l' : list (entry M)) :
  List.map (@entry_count _) l' = List.map (@entry_count _) l ->
  StronglySorted (fun a b => entry_count b <= entry_count a) l ->
  StronglySorted (fun a b => entry_count b <= entry_count a) l'.
Proof.
  revert l'. induction l as [|c r IH]; intros l' Hmap Hs.
  - destruct l'; [constructor|discriminate].
  - destruct l' as [|c' r']; [discriminate|].
    simpl in Hmap. injection Hmap as Hc Hr.
    apply StronglySorted_inv in Hs as [Hs Hall].
    constructor; [apply IH; assumption|].
    rewrite Forall_forall in *. intros x Hx.
    assert (In (entry_count x) (List.map (@entry_count _) r)) as Hin
      by (rewrite <- Hr; apply in_map; exact Hx).
    apply in_map_iff in Hin as (y & Hy & Hyin).
    rewrite <- Hy, Hc. apply Hall. exact Hyin.
Qed.

Lemma sorted_of_pairs {A : Type} (R : A -> A -> Prop) (l : list A) :
  (forall c c' a b, c < c' -> nth_error l c = Some a ->
     nth_error l c' = Some b -> R a b) ->
  StronglySorted R l.
Proof.
  induction l as [|x l IH]; intros H; constructor.
  - apply IH. intros c c' a b Hcc Ha Hb.
    apply (H (S c) (S c') a b); [lia|exact Ha|exact Hb].
  - apply Forall_forall. intros y Hy. apply In_nth_error in Hy as [k Hk].
    apply (H 0 (S k) x y); [lia|reflexivity|exact Hk].
Qed.

(** X10.  A second [sort] right after a [sort] changes nothing: on an
    object produced by the methods, [sort] returns an object on which
    [sort] returns that same object. *)
Theorem sort_idempotent {cast : Q -> Q} (N : nat) (sim : matrix) (t : Q)
    (st st1 : simClassMap) :
  well_formed N sim -> (cast t <= 1)%Q -> reachable cast sim t st ->
  sort st = (Returned, st1) -> sort st1 = (Returned, st1).
Proof.
  intros Hwf Ht Hreach Hs.
  destruct (reachable_good N sim t st Hwf Ht Hreach) as (_ & Hc & _).
  destruct (sort_consistent N st Hc) as [Heq Hc1].
  rewrite Heq in Hs. injection Hs as <-.
  apply (sort_fixed N); [exact Hc1|].
  unfold sorted_obj. simpl.
  destruct (renumber_fields (length (sorted_desc (index st))) 0
              (sorted_desc (index st))) as (_ & Hcnt & _).
  apply (sorted_by_counts (sorted_desc (index st))); [exact Hcnt|].
  apply sorted_desc_descending.
Qed.

Lemma sort_idempotent_witness : sort objB_sorted = (Returned, objB_sorted).
Proof.
  apply (sort_idempotent (cast:=to_float64)
          4 simB (1#2) objB_reassigned objB_sorted).
  - apply simB_well_formed.
  - unfold Qle. simpl. lia.
  - apply objB_reassigned_reachable.
  - vm_compute. reflexivity.
Defined.

(** X11.  Right after creation over a well-formed matrix the classes are
    already in descending order of size, and [sort] returns the object
    unchanged. *)
Theorem sort_after_creation_changes_nothing {cast : Q -> Q}
    (N fuel d : nat) (sim : matrix)
    (t : Q) (st : simClassMap) :
  well_formed N sim -> (cast t <= 1)%Q ->
  __init__ cast fuel d sim t = Ok st -> sort st = (Returned, st).
Proof.
  intros Hwf Ht Hinit.
  destruct (init_consistent N fuel d sim t st Hwf Ht Hinit)
    as (_ & Hc & _ & Hsizes & _).
  apply (sort_fixed N); [exact Hc|].
  apply sorted_of_pairs. intros c c' a b Hcc Ha Hb.
  rewrite (co_index_count N st Hc a) by (eapply nth_error_In; eauto).
  rewrite (co_index_count N st Hc b) by (eapply nth_error_In; eauto).
  apply (Hsizes c c'); [exact Hcc| |];
    rewrite <- (co_index_members N st Hc), nth_error_map.
  - rewrite Ha. reflexivity.
  - rewrite Hb. reflexivity.
Qed.

Lemma sort_after_creation_changes_nothing_witness :
  sort objB = (Returned, objB).
Proof.
  apply (sort_after_creation_changes_nothing (cast:=to_float64)
          4 4 4 simB (1#2) objB).
  - apply simB_well_formed.
  - unfold Qle. simpl. lia.
  - vm_compute. reflexivity.
Defined.

(** X12.  On an object produced by the methods [sort] returns normally;
    afterwards the index is in descending order of count, entries of equal
    count are in the order they had, the classes are numbered from 1 in
    that order, the member lists are those of the index entries, and the
    assignment map agrees with them. *)
Theorem sort_orders_classes_by_size {cast : Q -> Q}
    (N : nat) (sim : matrix) (t : Q)
    (st : simClassMap) :
  well_formed N sim -> (cast t <= 1)%Q -> reachable cast sim t st ->
  exists st',
    sort st = (Returned, st')
    /\ StronglySorted (fun a b => entry_count b <= entry_count a) (index st')
    /\ (forall v,
          List.map (@entry_members _)
            (filter (fun e => entry_count e =? v) (index st'))
          = List.map (@entry_members _)
              (filter (fun e => entry_count e =? v) (index st)))
    /\ List.map (@entry_class _) (index st')
       = List.map plus_one (seq 0 (length (index st)))
    /\ members st' = List.map (@entry_members _) (index st')
    /\ (forall e, In e (index st') ->
          entry_count e = length (entry_members e))
    /\ agrees N (map st') (members st').
Proof.
  intros Hwf Ht Hreach.
  destruct (reachable_good N sim t st Hwf Ht Hreach) as (_ & Hc & _).
  destruct (sort_consistent N st Hc) as [Heq Hc1].
  exists (sorted_obj st). split; [exact Heq|].
  set (cs := sorted_desc (index st)).
  destruct (renumber_fields (length cs) 0 cs) as (Hmem & Hcnt & _).
  assert (Hidx : index (sorted_obj st) = renumber 0 (length cs) cs)
    by reflexivity.
  split; [|split; [|split; [|split; [|split]]]].
  - rewrite Hidx. apply (sorted_by_counts cs); [exact Hcnt|].
    apply sorted_desc_descending.
  - intros v. rewrite Hidx.
    rewrite <- (sorted_desc_stable v (index st)). fold cs.
    clear - Hmem Hcnt. revert Hmem Hcnt.
    generalize (renumber 0 (length cs) cs). generalize cs.
    intros l; induction l as [|a l IH]; intros l' Hm Hc.
    + destruct l'; [reflexivity|discriminate].
    + destruct l' as [|a' l']; [discriminate|].
      simpl in Hm, Hc. injection Hm as Hm1 Hm2. injection Hc as Hc1 Hc2.
      simpl. rewrite Hc1. destruct (entry_count a =? v); simpl.
      * rewrite Hm1. f_equal. apply IH; assumption.
      * apply IH; assumption.
  - rewrite (co_index_class N (sorted_obj st) Hc1).
    rewrite Hidx.
    rewrite <- (length_map (@entry_members _) (renumber 0 (length cs) cs)).
    rewrite Hmem, length_map. unfold cs.
    rewrite (Permutation_length (sorted_desc_perm (index st))).
    reflexivity.
  - symmetry. apply (co_index_members N (sorted_obj st) Hc1).
  - apply (co_index_count N (sorted_obj st) Hc1).
  - apply (consistent_partition N (sorted_obj st) Hc1).
Qed.

Lemma sort_orders_classes_by_size_witness :
  exists st',
    sort objB_reassigned = (Returned, st')
    /\ StronglySorted (fun a b => entry_count b <= entry_count a) (index st')
    /\ (forall v,
          List.map (@entry_members _)
            (filter (fun e => entry_count e =? v) (index st'))
          = List.map (@entry_members _)
              (filter (fun e => entry_count e =? v)
                      (index objB_reassigned)))
    /\ List.map (@entry_class _) (index st')
       = List.map plus_one (seq 0 (length (index objB_reassigned)))
    /\ members st' = List.map (@entry_members _) (index st')
    /\ (forall e, In e (index st') ->
          entry_count e = length (entry_members e))
    /\ agrees 4 (map st') (members st').
Proof.
  apply (sort_orders_classes_by_size (cast:=to_float64)
          4 simB (1#2) objB_reassigned).
  - apply simB_well_formed.
  - unfold Qle. simpl. lia.
  - apply objB_reassigned_reachable.
Defined.

(** X13.  [truncate] with a class count of 0 (or a negative one that
    reaches back past the first prototype) raises [ValueError] after it
    has emptied the prototype sequence: the object is left with no
    prototypes beside the member lists, map and index it had. *)
Theorem truncate_to_nothing_raises (k : Z) (st : simClassMap) :
  prototypes st <> [] ->
  (k = 0 \/ (k < 0 /\ Z.of_nat (length (prototypes st)) <= - k))%Z ->
  exists st',
    truncate k st = (Raised ValueError, st')
    /\ prototypes st' = []
    /\ members st' = members st /\ map st' = map st
    /\ index st' = index st /\ simmat st' = simmat st.
Proof.
  intros _ Hk.
  assert (Hslice : slice_to (prototypes st) k = []).
  { unfold slice_to. destruct Hk as [->|[Hneg Hlen]]; [reflexivity|].
    replace (k <? 0)%Z with true by (symmetry; apply Z.ltb_lt; exact Hneg).
    replace (length (prototypes st) - Z.to_nat (- k)) with 0 by lia.
    reflexivity. }
  unfold truncate. rewrite Hslice.
  exists (set_prototypes st []). split; [reflexivity|].
  repeat split.
Qed.

Lemma truncate_to_nothing_raises_witness :
  exists st',
    truncate 0 objB = (Raised ValueError, st')
    /\ prototypes st' = []
    /\ members st' = members objB /\ map st' = map objB
    /\ index st' = index objB /\ simmat st' = simmat objB.
Proof.
  apply (truncate_to_nothing_raises 0 objB).
  - discriminate.
  - left. reflexivity.
Defined.

(** X14.  A negative class count counts from the end, as Python's slice
    does: [truncate(-j)] on [K] classes is [truncate(K - j)]. *)
Theorem truncate_negative_counts_from_end (k : Z) (st : simClassMap) :
  (k < 0)%Z -> (0 <= Z.of_nat (length (prototypes st)) + k)%Z ->
  truncate k st = truncate (Z.of_nat (length (prototypes st)) + k) st.
Proof.
  intros Hneg Hpos. unfold truncate, slice_to.
  replace (k <? 0)%Z with true by (symmetry; apply Z.ltb_lt; exact Hneg).
  replace (Z.of_nat (length (prototypes st)) + k <? 0)%Z with false
    by (symmetry; apply Z.ltb_ge; exact Hpos).
  replace (length (prototypes st) - Z.to_nat (- k))
    with (Z.to_nat (Z.of_nat (length (prototypes st)) + k)) by lia.
  reflexivity.
Qed.

Lemma truncate_negative_counts_from_end_witness :
  truncate (-1) objB_sorted = truncate (Z.of_nat 2 + -1) objB_sorted.
Proof.
  apply (truncate_negative_counts_from_end (-1) objB_sorted);
    simpl; lia.
Defined.

(** X15.  However [augment] ends, it leaves the primary classification
    as it was: threshold, data, matrix, prototypes, member lists, map,
    total and index. *)
Theorem augment_leaves_primary_untouched (datafull : nat)
    (simmat2' : matrix) (st : simClassMap) :
  let st' := snd (augment datafull simmat2' st) in
  thresh st' = thresh st /\ data st' = data st /\ simmat st' = simmat st
  /\ prototypes st' = prototypes st /\ members st' = members st
  /\ map st' = map st /\ totalcount st' = totalcount st
  /\ index st' = index st.
Proof.
  unfold augment.
  destruct (negb (datafull =? length simmat2')); [simpl; repeat split|].
  destruct (argmax_axis0 simmat2'); [|simpl; repeat split].
  destruct (argmax_axis1 simmat2'); [|simpl; repeat split].
  simpl.
  destruct (Np.max _); [|simpl; repeat split].
  destruct (index_loop _ _ _ _ _) as [ix [|e]]; simpl; repeat split.
Qed.

Lemma argmax_axis1_inv (sm : matrix) (am : list nat) :
  argmax_axis1 sm = Some am ->
  length am = length sm
  /\ forall i row, nth_error sm i = Some row ->
       exists c, nth_error am i = Some c /\ first_max Np.Qltb row c.
Proof.
  intros H. apply option_map_all_inv in H as [Hlen Hnth].
  split; [exact Hlen|].
  intros i row Hrow. destruct (Hnth i row Hrow) as (c & Hc & Hmax).
  exists c. split; [exact Hc|].
  apply (argmax_first_max Q Np.Qltb Qltb_le_lt Qltb_asym row c Hmax).
Qed.

Lemma argmax_axis0_cols (sm : matrix) (p2 : list nat) :
  argmax_axis0 sm = Some p2 ->
  sm <> []
  /\ length p2 = length (hd [] sm)
  /\ forall c r, nth_error p2 c = Some r ->
       first_max Np.Qltb (column sm c) r.
Proof.
  destruct sm as [|r0 rest]; [discriminate|].
  intros H. unfold argmax_axis0 in H.
  apply option_map_all_inv in H as [Hlen Hnth].
  rewrite length_seq in Hlen.
  split; [discriminate|]. split; [exact Hlen|].
  intros c r Hr.
  assert (Hc : c < length r0).
  { rewrite <- Hlen. apply nth_error_Some. congruence. }
  destruct (Hnth c c) as (y & Hy & Hmax).
  { rewrite nth_error_seq. apply Nat.ltb_lt in Hc. rewrite Hc. reflexivity. }
  rewrite Hr in Hy. injection Hy as <-.
  apply (argmax_first_max Q Np.Qltb Qltb_le_lt Qltb_asym _ _ Hmax).
Qed.

Lemma concat_singletons {A B : Type} (W : A -> list B) (l : list A) :
  concat (List.map (fun i => [W i]) l) = List.map W l.
Proof.
  induction l as [|a l IH]; simpl; [reflexivity|].
  rewrite IH. reflexivity.
Qed.

(** What [augment] has computed when it returns normally. *)
Lemma augment_inv (datafull : nat) (sm : matrix) (st st' : simClassMap) :
  augment datafull sm st = (Returned, st') ->
  exists p2 am top ix,
    datafull = length sm
    /\ argmax_axis0 sm = Some p2
    /\ argmax_axis1 sm = Some am
    /\ Np.max (List.map plus_one am) = Some top
    /\ index_loop p2 0
         (List.map (fun i => [Np.where_eq (List.map plus_one am)
                                (plus_one i)])
                   (seq 0 (Z.to_nat top)))
         datafull []
       = (ix, Returned)
    /\ data2 st' = Some datafull /\ simmat2 st' = Some sm
    /\ prototypes2 st' = Some p2
    /\ map2 st' = Some (List.map plus_one am)
    /\ totalcount2 st' = Some datafull
    /\ members2 st'
       = Some (List.map (fun i => [Np.where_eq (List.map plus_one am)
                                      (plus_one i)])
                        (seq 0 (Z.to_nat top)))
    /\ index2 st' = Some ix.
Proof.
  unfold augment. intros H.
  destruct (datafull =? length sm) eqn:HM; simpl in H; [|discriminate].
  apply Nat.eqb_eq in HM.
  destruct (argmax_axis0 sm) as [p2|] eqn:Hp2; [|discriminate].
  destruct (argmax_axis1 sm) as [am|] eqn:Ham; [|discriminate].
  simpl in H.
  destruct (Np.max (List.map plus_one am)) as [top|] eqn:Htop;
    [|discriminate].
  destruct (index_loop _ _ _ _ _) as [ix out] eqn:Hidx.
  destruct out; [|discriminate].
  injection H as <-. exists p2, am, top, ix. simpl.
  repeat split; try reflexivity; assumption.
Qed.

(** X16.  When [augment] returns normally, every row of the second data
    set has in [map2] the number of the first column of highest
    similarity in its row of the cross matrix, [prototypes2] has one entry
    for every column and names the first row of highest similarity in it,
    and the index vectors held in the tuples of [members2] split the rows
    among the classes. *)
Theorem augment_assigns_nearest_class (datafull : nat) (sm : matrix)
    (st st' : simClassMap) :
  augment datafull sm st = (Returned, st') ->
  exists p2 m2 ms2,
    prototypes2 st' = Some p2 /\ map2 st' = Some m2
    /\ members2 st' = Some ms2
    /\ totalcount2 st' = Some (length sm)
    /\ length m2 = length sm
    /\ length p2 = length (hd [] sm)
    /\ (forall i row, nth_error sm i = Some row ->
          exists c, nth_error m2 i = Some (plus_one c)
                    /\ first_max Np.Qltb row c)
    /\ (forall c r, nth_error p2 c = Some r ->
          first_max Np.Qltb (column sm c) r)
    /\ (forall c tup, nth_error ms2 c = Some tup ->
          tup = [Np.where_eq m2 (plus_one c)])
    /\ Permutation (concat (concat ms2)) (seq 0 (length sm)).
Proof.
  intros H.
  apply augment_inv in H
    as (p2 & am & top & ix & -> & Hp2 & Ham & Htop & _
        & _ & _ & Hpr & Hmap & Htot & Hmem & _).
  apply argmax_axis1_inv in Ham as [Hlen Hrows].
  apply argmax_axis0_cols in Hp2 as (_ & Hlenp & Hcols).
  eexists p2, _, _. split; [exact Hpr|]. split; [exact Hmap|].
  split; [exact Hmem|]. split; [exact Htot|].
  split; [rewrite length_map; exact Hlen|].
  split; [exact Hlenp|].
  split; [|split; [exact Hcols|split]].
  - intros i row Hrow. destruct (Hrows i row Hrow) as (c & Hc & Hmax).
    exists c. split; [|exact Hmax].
    rewrite nth_error_map, Hc. reflexivity.
  - intros c tup Hc. apply nth_error_map_seq in Hc as [_ ->]. reflexivity.
  - rewrite concat_singletons.
    apply max_spec in Htop as [Hin Hmax].
    pose proof (where_eq_classes_perm (List.map plus_one am) (Z.to_nat top))
      as Hperm.
    rewrite length_map, Hlen in Hperm. apply Hperm.
    intros x Hx. specialize (Hmax x Hx).
    apply in_map_iff in Hx as (a & <- & _). unfold plus_one in *. lia.
Qed.

Lemma augment_assigns_nearest_class_witness :
  exists p2 m2 ms2,
    prototypes2 (snd (augment 2 [[1]; [1#2]]%Q obj4)) = Some p2
    /\ map2 (snd (augment 2 [[1]; [1#2]]%Q obj4)) = Some m2
    /\ members2 (snd (augment 2 [[1]; [1#2]]%Q obj4)) = Some ms2
    /\ totalcount2 (snd (augment 2 [[1]; [1#2]]%Q obj4))
       = Some (length [[1]; [1#2]]%Q)
    /\ length m2 = length [[1]; [1#2]]%Q
    /\ length p2 = length (hd [] [[1]; [1#2]]%Q)
    /\ (forall i row, nth_error [[1]; [1#2]]%Q i = Some row ->
          exists c, nth_error m2 i = Some (plus_one c)
                    /\ first_max Np.Qltb row c)
    /\ (forall c r, nth_error p2 c = Some r ->
          first_max Np.Qltb (column [[1]; [1#2]]%Q c) r)
    /\ (forall c tup, nth_error ms2 c = Some tup ->
          tup = [Np.where_eq m2 (plus_one c)])
    /\ Permutation (concat (concat ms2)) (seq 0 (length [[1]; [1#2]]%Q)).
Proof.
  apply (augment_assigns_nearest_class 2 [[1]; [1#2]]%Q obj4).
  vm_compute. reflexivity.
Defined.

(** X17.  For a cross matrix of [M >= 1] rows and [P >= 1] columns and
    data of [M] rows, [augment] returns normally exactly when some row has
    its first highest similarity in the last column; otherwise the class
    of highest number has no tuple in [members2] and [augment] raises
    [IndexError], with [map2] already set and [index2] not. *)
Theorem augment_returns_iff_last_class_used (P : nat) (sm : matrix)
    (st : simClassMap) :
  sm <> [] -> 0 < P -> (forall row, In row sm -> length row = P) ->
  (fst (augment (length sm) sm st) = Returned
   <-> exists i row, nth_error sm i = Some row
                     /\ first_max Np.Qltb row (P - 1))
  /\ (fst (augment (length sm) sm st) = Returned
      \/ (fst (augment (length sm) sm st) = Raised IndexError
          /\ map2 (snd (augment (length sm) sm st)) <> None
          /\ index2 (snd (augment (length sm) sm st)) = index2 st)).
Proof.
  intros Hne HP Hrect.
  destruct (argmax_axis0 sm) as [p2|] eqn:Hp2.
  2:{ exfalso. destruct sm as [|r0 rest]; [congruence|].
      unfold argmax_axis0 in Hp2.
      destruct (option_map_all_some
                  (fun j => Np.argmaxQ (column (r0 :: rest) j))
                  (seq 0 (length r0))) as [ys Hys].
      - intros j _. apply argmax_some. discriminate.
      - congruence. }
  destruct (argmax_axis1 sm) as [am|] eqn:Ham.
  2:{ exfalso.
      destruct (option_map_all_some Np.argmaxQ sm) as [ys Hys].
      - intros row Hrow. apply argmax_some.
        specialize (Hrect row Hrow). destruct row; [simpl in Hrect; lia|].
        discriminate.
      - unfold argmax_axis1 in Ham. congruence. }
  pose proof (argmax_axis0_cols sm p2 Hp2) as (_ & HlenP & _).
  pose proof (argmax_axis1_inv sm am Ham) as [Hlen Hrows].
  assert (HlenP' : length p2 = P).
  { rewrite HlenP. destruct sm as [|r0 rest]; [congruence|].
    apply Hrect. left. reflexivity. }
  assert (Ham_lt : forall i c, nth_error am i = Some c -> c < P).
  { intros i c Hc.
    destruct (nth_error sm i) as [row|] eqn:Hrow.
    - destruct (Hrows i row Hrow) as (c' & Hc' & Hmax).
      rewrite Hc in Hc'. injection Hc' as <-.
      rewrite <- (Hrect row (nth_error_In _ _ Hrow)).
      apply (first_max_lt _ _ _ _ Hmax).
    - apply nth_error_None in Hrow.
      assert (i < length am) by (apply nth_error_Some; congruence). lia. }
  destruct (Np.max (List.map plus_one am)) as [top|] eqn:Htop.
  2:{ exfalso. destruct am; [|discriminate].
      destruct sm; [congruence|discriminate]. }
  pose proof (max_spec _ _ Htop) as [Hin Hmax].
  apply in_map_iff in Hin as (a & Htopa & Ha).
  apply In_nth_error in Ha as [j0 Hj0].
  pose proof (Ham_lt j0 a Hj0) as HaP.
  unfold augment. rewrite Nat.eqb_refl, Hp2, Ham. simpl. rewrite Htop.
  set (membs := List.map _ (seq 0 (Z.to_nat top))).
  assert (Hlm : length membs = S a).
  { unfold membs. rewrite length_map, length_seq, <- Htopa.
    unfold plus_one. lia. }
  destruct (index_loop_outcome_by_length p2 membs (length sm))
    as [Hok Hbad].
  { destruct sm; [congruence|discriminate]. }
  destruct (index_loop p2 0 membs (length sm) []) as [ix out] eqn:Hidx.
  simpl in Hok, Hbad.
  destruct (Nat.eq_dec (S a) P) as [Heq|Hneq].
  - rewrite Hok by lia. simpl. split; [|left; reflexivity].
    split; [|reflexivity]. intros _.
    destruct (nth_error sm j0) as [row|] eqn:Hrow.
    + exists j0, row. split; [exact Hrow|].
      destruct (Hrows j0 row Hrow) as (c & Hc & Hmax').
      rewrite Hj0 in Hc. injection Hc as <-.
      replace (P - 1) with a by lia. exact Hmax'.
    + apply nth_error_None in Hrow.
      assert (j0 < length am) by (apply nth_error_Some; congruence). lia.
  - rewrite Hbad by lia. simpl.
    split; [|right; split; [reflexivity|split; [discriminate|reflexivity]]].
    split; [discriminate|].
    intros (i & row & Hrow & Hlast). exfalso.
    destruct (Hrows i row Hrow) as (c & Hc & Hmax').
    assert (c = P - 1)
      by (apply (first_max_unique Q Np.Qltb Qltb_asym row); assumption).
    assert (In (plus_one c) (List.map plus_one am))
      by (apply in_map; eapply nth_error_In; eauto).
    specialize (Hmax _ H0). unfold plus_one in *. lia.
Qed.

Lemma augment_returns_iff_last_class_used_witness :
  (fst (augment (length sim2) sim2 obj4) = Returned
   <-> exists i row, nth_error sim2 i = Some row
                     /\ first_max Np.Qltb row (2 - 1))
  /\ (fst (augment (length sim2) sim2 obj4) = Returned
      \/ (fst (augment (length sim2) sim2 obj4) = Raised IndexError
          /\ map2 (snd (augment (length sim2) sim2 obj4)) <> None
          /\ index2 (snd (augment (length sim2) sim2 obj4)) = index2 obj4)).
Proof.
  apply (augment_returns_iff_last_class_used 2 sim2 obj4).
  - discriminate.
  - lia.
  - intros row [<-|[<-|[]]]; reflexivity.
Defined.

(** * The matrix builder [makeSimMat] *)

(** [l[i] = f(l[i])] on a list; out of range it is left as it is (the
    builder never writes out of range). *)
Fixpoint update {A : Type} (l : list A) (i : nat) (f : A -> A) : list A :=
  match l, i with
  | [], _ => []
  | x :: r, O => f x :: r
  | x :: r, S i' => x :: update r i' f
  end.

(** [m[i, j] = v]. *)
Definition set_cell (m : matrix) (i j : nat) (v : Q) : matrix :=
  update m i (fun row => update row j (fun _ => v)).

(** [np.zeros((N, N), dtype='float32')]. *)
Definition zeros2 (N : nat) : matrix := repeat (repeat 0%Q N) N.

Definition range_message : string :=
  "Similarity function must return value between 0 and 1 for all data pairs".

Section MakeSimMat.

(** The members of the data set, the similarity function, and the
    rounding of a value stored into a [float32] array. *)
Variable D : Type.
Variable simfunction : D -> D -> Q.
Variable to_float32 : Q -> Q.

(** [for j in range(i+1): ...], over the values [js] of [j] still to
    come. *)
Fixpoint makeSimMat_row (data : list D) (i : nat) (js : list nat)
    (simMat : matrix) : res matrix :=
  match js with
  | [] => Ok simMat
  | j :: rest =>
      x <- of_option IndexError (nth_error data i) ;;
      y <- of_option IndexError (nth_error data j) ;;
      let s := simfunction x y in
      if Np.Qltb 1 s || Np.Qltb s 0
      then Raise (Exception range_message)
      else
        let simMat := set_cell simMat i j (to_float32 s) in
        let simMat := set_cell simMat j i (to_float32 s) in
        makeSimMat_row data i rest simMat
  end.

(** [for i in range(N): ...], over the values [todo] of [i] still to
    come. *)
Fixpoint makeSimMat_rows (data : list D) (todo : list nat) (simMat : matrix)
  : res matrix :=
  match todo with
  | [] => Ok simMat
  | i :: rest =>
      simMat' <- makeSimMat_row data i (seq 0 (i + 1)) simMat ;;
      makeSimMat_rows data rest simMat'
  end.

(** [makeSimMat(data, simfunction)]. *)
Definition makeSimMat (data : list D) : res matrix :=
  let N := length data in
  makeSimMat_rows data (seq 0 N) (zeros2 N).

(** The value that the pair of positions [i], [j] contributes. *)
Definition pair_value (data : list D) (i j : nat) : Q :=
  match nth_error data i, nth_error data j with
  | Some x, Some y => to_float32 (simfunction x y)
  | _, _ => 0%Q
  end.

(** The similarity function is within range on the pair of positions. *)
Definition pair_ok (data : list D) (i j : nat) : Prop :=
  forall x y, nth_error data i = Some x -> nth_error data j = Some y ->
    (0 <= simfunction x y <= 1)%Q.

(** The cell [a], [b] once the pairs before [(i, j)] in the order of the
    loops have been written. *)
Definition written (data : list D) (i j a b : nat) : Q :=
  let hi := Nat.max a b in
  let lo := Nat.min a b in
  if (hi <? i) || ((hi =? i) && (lo <? j))
  then pair_value data hi lo else 0%Q.

(** The matrix with cell [a], [b] equal to [F a b]. *)
Definition tabulate (N : nat) (F : nat -> nat -> Q) : matrix :=
  List.map (fun a => List.map (fun b => F a b) (seq 0 N)) (seq 0 N).

End MakeSimMat.

Lemma update_map_seq {A : Type} (G : nat -> A) (h : A -> A) (n : nat) :
  forall k i,
  update (List.map G (seq k n)) i h
  = List.map (fun a => if a =? k + i then h (G a) else G a) (seq k n).
Proof.
  induction n as [|n IH]; intros k i; simpl.
  - destruct i; reflexivity.
  - destruct i as [|i]; simpl.
    + rewrite Nat.add_0_r, Nat.eqb_refl. f_equal.
      apply map_ext_in. intros a Ha. apply in_seq in Ha.
      replace (a =? k) with false by (symmetry; apply Nat.eqb_neq; lia).
      reflexivity.
    + replace (k =? k + S i) with false
        by (symmetry; apply Nat.eqb_neq; lia).
      rewrite IH. f_equal. apply map_ext. intros a.
      replace (S k + i) with (k + S i) by lia. reflexivity.
Qed.

Lemma tabulate_ext (N : nat) (F G : nat -> nat -> Q) :
  (forall a b, a < N -> b < N -> F a b = G a b) ->
  tabulate N F = tabulate N G.
Proof.
  intros H. unfold tabulate. apply map_ext_in. intros a Ha.
  apply map_ext_in. intros b Hb. apply in_seq in Ha, Hb. apply H; lia.
Qed.

Lemma set_cell_tabulate (N : nat) (F : nat -> nat -> Q) (i j : nat) (v : Q) :
  set_cell (tabulate N F) i j v
  = tabulate N (fun a b => if (a =? i) && (b =? j) then v else F a b).
Proof.
  unfold set_cell, tabulate. rewrite update_map_seq. simpl.
  apply map_ext. intros a. destruct (a =? i); simpl; [|reflexivity].
  rewrite update_map_seq. reflexivity.
Qed.

Lemma get_tabulate (N : nat) (F : nat -> nat -> Q) (a b : nat) :
  a < N -> b < N -> get (tabulate N F) a b = F a b.
Proof.
  intros Ha Hb. unfold get, tabulate.
  rewrite (nth_indep _ [] (List.map (fun b => F 0 b) (seq 0 N)))
    by (rewrite length_map, length_seq; exact Ha).
  rewrite (map_nth (fun a => List.map (fun b => F a b) (seq 0 N))).
  rewrite seq_nth by exact Ha. simpl.
  rewrite (nth_indep _ 0%Q (F a 0))
    by (rewrite length_map, length_seq; exact Hb).
  rewrite (map_nth (fun b => F a b)).
  rewrite seq_nth by exact Hb. reflexivity.
Qed.

Lemma tabulate_square (N : nat) (F : nat -> nat -> Q) :
  square N (tabulate N F).
Proof.
  unfold square, tabulate. split.
  - rewrite length_map. apply length_seq.
  - intros row Hrow. apply in_map_iff in Hrow as (a & <- & _).
    rewrite length_map. apply length_seq.
Qed.

Lemma zeros2_tabulate (N : nat) : zeros2 N = tabulate N (fun _ _ => 0%Q).
Proof.
  unfold zeros2, tabulate.
  assert (Hrep : forall (A : Type) (x : A) n k,
            repeat x n = List.map (fun _ => x) (seq k n)).
  { intros A x n. induction n as [|n IH]; intros k; simpl; [reflexivity|].
    rewrite <- IH. reflexivity. }
  rewrite (Hrep _ _ N 0). apply map_ext. intros a. apply Hrep.
Qed.

Section MakeSimMatFacts.

Variable D : Type.
Variable simfunction : D -> D -> Q.
Variable to_float32 : Q -> Q.

Lemma range_test_false (s : Q) :
  (0 <= s <= 1)%Q -> Np.Qltb 1 s || Np.Qltb s 0 = false.
Proof.
  intros [H0 H1]. apply orb_false_iff. split; apply Qltb_ge; assumption.
Qed.

Lemma range_test_true (s : Q) :
  ~ (0 <= s <= 1)%Q -> Np.Qltb 1 s || Np.Qltb s 0 = true.
Proof.
  intros Hbad. destruct (Np.Qltb 1 s || Np.Qltb s 0) eqn:E; [reflexivity|].
  exfalso. apply Hbad. apply orb_false_iff in E as [E1 E2].
  apply Qltb_ge in E1, E2. split; assumption.
Qed.

Lemma written_step (data : list D) (i j a b : nat) :
  j <= i ->
  (if (a =? j) && (b =? i) then pair_value D simfunction to_float32 data i j
   else if (a =? i) && (b =? j)
        then pair_value D simfunction to_float32 data i j
        else written D simfunction to_float32 data i j a b)
  = written D simfunction to_float32 data i (S j) a b.
Proof.
  intros Hji. unfold written.
  destruct (Nat.eqb_spec a j), (Nat.eqb_spec b i), (Nat.eqb_spec a i),
    (Nat.eqb_spec b j); simpl; subst;
    repeat match goal with
    | |- context [Nat.max ?x ?y] =>
        destruct (Nat.max_spec x y) as [[? ->]|[? ->]]
    | |- context [Nat.min ?x ?y] =>
        destruct (Nat.min_spec x y) as [[? ->]|[? ->]]
    end;
    repeat match goal with
    | |- context [?x <? ?y] => destruct (Nat.ltb_spec x y)
    | |- context [?x =? ?y] => destruct (Nat.eqb_spec x y)
    end; simpl; subst; try reflexivity; try lia.
Qed.

Lemma written_next_row (data : list D) (i a b : nat) :
  written D simfunction to_float32 data i (S i) a b
  = written D simfunction to_float32 data (S i) 0 a b.
Proof.
  unfold written.
  destruct (Nat.max_spec a b) as [[? ->]|[? ->]],
    (Nat.min_spec a b) as [[? ->]|[? ->]];
    repeat match goal with
    | |- context [?x <? ?y] => destruct (Nat.ltb_spec x y)
    | |- context [?x =? ?y] => destruct (Nat.eqb_spec x y)
    end; simpl; subst; try reflexivity; try lia.
Qed.

Lemma makeSimMat_row_ok (data : list D) (N i : nat) :
  length data = N -> i < N ->
  forall n j, j + n = S i ->
  (forall j', j <= j' <= i -> pair_ok D simfunction data i j') ->
  makeSimMat_row D simfunction to_float32 data i (seq j n)
    (tabulate N (written D simfunction to_float32 data i j))
  = Ok (tabulate N (written D simfunction to_float32 data i (S i))).
Proof.
  intros Hlen Hi. induction n as [|n IH]; intros j Hjn Hok.
  - simpl. replace j with (S i) by lia. reflexivity.
  - simpl.
    destruct (nth_error data i) as [x|] eqn:Hx;
      [|apply nth_error_None in Hx; lia].
    destruct (nth_error data j) as [y|] eqn:Hy;
      [|apply nth_error_None in Hy; lia].
    simpl.
    rewrite range_test_false by (apply (Hok j); [lia|exact Hx|exact Hy]).
    rewrite !set_cell_tabulate.
    assert (Hv : to_float32 (simfunction x y)
                 = pair_value D simfunction to_float32 data i j)
      by (unfold pair_value; rewrite Hx, Hy; reflexivity).
    rewrite Hv.
    rewrite (tabulate_ext N _
               (written D simfunction to_float32 data i (S j))).
    + apply IH; [lia|]. intros j' Hj'. apply Hok. lia.
    + intros a b _ _. apply written_step. lia.
Qed.

Lemma makeSimMat_rows_ok (data : list D) (N : nat) :
  length data = N ->
  forall n i, i + n = N ->
  (forall i' j', j' <= i' -> i' < N -> pair_ok D simfunction data i' j') ->
  makeSimMat_rows D simfunction to_float32 data (seq i n)
    (tabulate N (written D simfunction to_float32 data i 0))
  = Ok (tabulate N (written D simfunction to_float32 data N 0)).
Proof.
  intros Hlen. induction n as [|n IH]; intros i Hin Hok.
  - simpl. replace i with N by lia. reflexivity.
  - simpl. rewrite Nat.add_1_r.
    rewrite (makeSimMat_row_ok data N i Hlen) by
      (try lia; intros j' Hj'; apply Hok; lia).
    simpl.
    rewrite (tabulate_ext N _
               (written D simfunction to_float32 data (S i) 0))
      by (intros a b _ _; apply written_next_row).
    apply IH; [lia|exact Hok].
Qed.

(** The matrix that the builder returns when the similarity function
    stays within range on the pairs it is called on. *)
Lemma makeSimMat_ok (data : list D) :
  (forall i j, j <= i -> i < length data ->
     pair_ok D simfunction data i j) ->
  makeSimMat D simfunction to_float32 data
  = Ok (tabulate (length data)
          (fun a b => pair_value D simfunction to_float32 data
                        (Nat.max a b) (Nat.min a b))).
Proof.
  intros Hok. unfold makeSimMat.
  rewrite zeros2_tabulate.
  rewrite (tabulate_ext (length data) _
             (written D simfunction to_float32 data 0 0)).
  2:{ intros a b _ _. unfold written.
      destruct (Nat.max a b =? 0); reflexivity. }
  rewrite (makeSimMat_rows_ok data (length data) eq_refl (length data) 0)
    by (try lia; exact Hok).
  f_equal. apply tabulate_ext. intros a b Ha Hb. unfold written.
  replace (Nat.max a b <? length data) with true
    by (symmetry; apply Nat.ltb_lt; lia).
  reflexivity.
Qed.

(** X18.  When the similarity function returns a value between 0 and 1
    on every pair it is called on (an element with itself or with an
    earlier one), the builder returns an [N] by [N] matrix whose cells
    [a, b] and [b, a], for [b <= a], both hold the rounded similarity of
    element [a] to element [b]: the matrix is symmetric whether or not
    the function is. *)
Theorem makeSimMat_builds_symmetric_matrix (data : list D) :
  (forall i j, j <= i -> i < length data ->
     pair_ok D simfunction data i j) ->
  exists m,
    makeSimMat D simfunction to_float32 data = Ok m
    /\ square (length data) m
    /\ (forall a b x y, b <= a ->
          nth_error data a = Some x -> nth_error data b = Some y ->
          get m a b = to_float32 (simfunction x y)
          /\ get m b a = to_float32 (simfunction x y))
    /\ (forall a b, a < length data -> b < length data ->
          get m a b = get m b a).
Proof.
  intros Hok. eexists. split; [apply makeSimMat_ok; exact Hok|].
  split; [apply tabulate_square|]. split.
  - intros a b x y Hba Hx Hy.
    assert (Ha : a < length data) by (apply nth_error_Some; congruence).
    assert (Hb : b < length data) by lia.
    rewrite !get_tabulate by assumption.
    rewrite (Nat.max_comm b a), (Nat.min_comm b a).
    rewrite Nat.max_l, Nat.min_r by lia.
    unfold pair_value. rewrite Hx, Hy. split; reflexivity.
  - intros a b Ha Hb. rewrite !get_tabulate by assumption.
    rewrite (Nat.max_comm b a), (Nat.min_comm b a). reflexivity.
Qed.

End MakeSimMatFacts.

Section MakeSimMatErrors.

Variable D : Type.
Variable simfunction : D -> D -> Q.
Variable to_float32 : Q -> Q.

(** The similarity function leaves the range on the pair of positions. *)
Definition pair_bad (data : list D) (i j : nat) : Prop :=
  exists x y, nth_error data i = Some x /\ nth_error data j = Some y
              /\ ~ (0 <= simfunction x y <= 1)%Q.

Lemma makeSimMat_row_result (data : list D) (N i : nat) (js : list nat) :
  length data = N -> i < N -> (forall j, In j js -> j < N) ->
  forall m,
  (exists m', makeSimMat_row D simfunction to_float32 data i js m = Ok m'
              /\ forall j, In j js -> pair_ok D simfunction data i j)
  \/ (makeSimMat_row D simfunction to_float32 data i js m
      = Raise (Exception range_message)
      /\ exists j, In j js /\ pair_bad data i j).
Proof.
  intros Hlen Hi. induction js as [|j rest IH]; intros Hjs m.
  - left. exists m. split; [reflexivity|]. intros j [].
  - simpl.
    destruct (nth_error data i) as [x|] eqn:Hx;
      [|apply nth_error_None in Hx; lia].
    destruct (nth_error data j) as [y|] eqn:Hy.
    2:{ apply nth_error_None in Hy.
        specialize (Hjs j (or_introl eq_refl)). lia. }
    simpl.
    destruct (Np.Qltb 1 (simfunction x y) || Np.Qltb (simfunction x y) 0)
      eqn:Htest.
    + right. split; [reflexivity|]. exists j. split; [left; reflexivity|].
      exists x, y. split; [exact Hx|]. split; [exact Hy|].
      intros Hin. rewrite (range_test_false _ Hin) in Htest. discriminate.
    + apply orb_false_iff in Htest as [H1 H0].
      apply Qltb_ge in H1, H0.
      destruct (IH (fun j' Hj' => Hjs j' (or_intror Hj'))
                  (set_cell (set_cell m i j (to_float32 (simfunction x y)))
                            j i (to_float32 (simfunction x y))))
        as [(m' & Hm' & Hall)|(Hr & j' & Hj' & Hbad)].
      * left. exists m'. split; [exact Hm'|].
        intros j' [<-|Hj']; [|apply Hall; exact Hj'].
        intros x' y' Hx' Hy'. rewrite Hx in Hx'. rewrite Hy in Hy'.
        injection Hx' as <-. injection Hy' as <-. split; assumption.
      * right. split; [exact Hr|]. exists j'. split; [right; exact Hj'|].
        exact Hbad.
Qed.

Lemma makeSimMat_rows_result (data : list D) (N : nat) (rows : list nat) :
  length data = N -> (forall i, In i rows -> i < N) ->
  forall m,
  (exists m', makeSimMat_rows D simfunction to_float32 data rows m = Ok m'
              /\ forall i j, In i rows -> j <= i ->
                   pair_ok D simfunction data i j)
  \/ (makeSimMat_rows D simfunction to_float32 data rows m
      = Raise (Exception range_message)
      /\ exists i j, In i rows /\ j <= i /\ pair_bad data i j).
Proof.
  intros Hlen. induction rows as [|i rest IH]; intros Hrows m.
  - left. exists m. split; [reflexivity|]. intros i j [].
  - simpl.
    assert (Hi : i < N) by (apply Hrows; left; reflexivity).
    destruct (makeSimMat_row_result data N i (seq 0 (i + 1)) Hlen Hi)
      with (m := m) as [(m1 & Hm1 & Hall)|(Hr & j & Hj & Hbad)].
    { intros j Hj. apply in_seq in Hj. lia. }
    + rewrite Hm1. simpl.
      destruct (IH (fun i' Hi' => Hrows i' (or_intror Hi')) m1)
        as [(m' & Hm' & Hall')|(Hr & i' & j' & Hi' & Hj' & Hbad)].
      * left. exists m'. split; [exact Hm'|].
        intros i' j' [<-|Hi'] Hj'; [|apply Hall'; assumption].
        apply Hall. apply in_seq. lia.
      * right. split; [exact Hr|]. exists i', j'.
        split; [right; exact Hi'|]. split; assumption.
    + rewrite Hr. simpl. right. split; [reflexivity|].
      exists i, j. split; [left; reflexivity|].
      apply in_seq in Hj. split; [lia|exact Hbad].
Qed.

(** X19.  The builder raises its exception exactly when the similarity
    function returns a value above 1 or below 0 for some element paired
    with itself or with an earlier element; otherwise it returns a
    matrix.  Pairs with the later element second are never looked at. *)
Theorem makeSimMat_raises_iff_out_of_range (data : list D) :
  (makeSimMat D simfunction to_float32 data
   = Raise (Exception range_message)
   <-> exists i j, j <= i /\ pair_bad data i j)
  /\ ((exists m, makeSimMat D simfunction to_float32 data = Ok m)
      \/ makeSimMat D simfunction to_float32 data
         = Raise (Exception range_message)).
Proof.
  unfold makeSimMat.
  destruct (makeSimMat_rows_result data (length data) (seq 0 (length data))
              eq_refl) with (m := zeros2 (length data))
    as [(m' & Hm' & Hall)|(Hr & i & j & Hi & Hj & Hbad)].
  { intros i Hi. apply in_seq in Hi. lia. }
  - split; [|left; eauto]. rewrite Hm'. split; [discriminate|].
    intros (i & j & Hj & x & y & Hx & Hy & Hbad). exfalso.
    apply Hbad. apply (Hall i j); try assumption.
    apply in_seq. split; [lia|]. simpl. apply nth_error_Some. congruence.
  - split; [|right; exact Hr]. rewrite Hr.
    split; [|reflexivity]. intros _. exists i, j. split; assumption.
Qed.

(** X20.  From the builder to the classification: when the similarity
    function returns values between 0 and 1, and 1 for an element with
    itself, and the rounding keeps that range and the value 1, the matrix
    of the builder is well-formed, and creation over it, which compares
    with the threshold under the same rounding, returns for a rounded
    threshold of at most 1 and at most 32767 elements an object whose
    member lists are an exact partition of the elements. *)
Theorem makeSimMat_then_classification (data : list D) (t : Q) (d : nat) :
  (forall i j, j <= i -> i < length data ->
     pair_ok D simfunction data i j) ->
  (forall i x, nth_error data i = Some x -> (simfunction x x == 1)%Q) ->
  (forall q, (0 <= q <= 1)%Q -> (0 <= to_float32 q <= 1)%Q) ->
  (forall q, (q == 1)%Q -> (to_float32 q == 1)%Q) ->
  (to_float32 t <= 1)%Q -> (Z.of_nat (length data) <= int16_max)%Z ->
  exists m st,
    makeSimMat D simfunction to_float32 data = Ok m
    /\ well_formed (length data) m
    /\ __init__ to_float32 (length data) d m t = Ok st
    /\ exact_partition (length data) (members st)
    /\ agrees (length data) (map st) (members st).
Proof.
  intros Hok Hdiag Hround Hone Ht Hsmall.
  pose proof (makeSimMat_ok D simfunction to_float32 data Hok) as Hm.
  set (m := tabulate (length data)
              (fun a b => pair_value D simfunction to_float32 data
                            (Nat.max a b) (Nat.min a b))) in Hm.
  assert (Hsq : square (length data) m) by apply tabulate_square.
  assert (Hsym : forall a b, a < length data -> b < length data ->
                   get m a b = get m b a).
  { intros a b Ha Hb. unfold m. rewrite !get_tabulate by assumption.
    rewrite (Nat.max_comm b a), (Nat.min_comm b a). reflexivity. }
  assert (Hcell : forall a b x y, b <= a ->
                    nth_error data a = Some x -> nth_error data b = Some y ->
                    get m a b = to_float32 (simfunction x y)
                    /\ get m b a = to_float32 (simfunction x y)).
  { intros a b x y Hba Hx Hy.
    assert (Ha : a < length data) by (apply nth_error_Some; congruence).
    assert (Hb : b < length data) by lia.
    rewrite <- (Hsym a b Ha Hb).
    assert (Hab : get m a b = to_float32 (simfunction x y)).
    { unfold m. rewrite get_tabulate by assumption.
      rewrite Nat.max_l, Nat.min_r by lia.
      unfold pair_value. rewrite Hx, Hy. reflexivity. }
    split; exact Hab. }
  assert (Hwf : well_formed (length data) m).
  { constructor.
    - exact Hsq.
    - intros i j Hi Hj. rewrite (Hsym i j Hi Hj). reflexivity.
    - assert (Hlow : forall a b, b <= a -> a < length data ->
                (0 <= get m a b <= 1)%Q /\ (0 <= get m b a <= 1)%Q).
      { intros a b Hba Ha.
        destruct (nth_error data a) as [x|] eqn:Hx;
          [|apply nth_error_None in Hx; lia].
        destruct (nth_error data b) as [y|] eqn:Hy;
          [|apply nth_error_None in Hy; lia].
        destruct (Hcell a b x y Hba Hx Hy) as [-> ->].
        split; apply Hround; apply (Hok a b Hba Ha x y Hx Hy). }
      intros i j Hi Hj.
      destruct (Nat.le_ge_cases j i) as [H|H].
      + apply (Hlow i j H Hi).
      + apply (Hlow j i H Hj).
    - intros i Hi.
      destruct (nth_error data i) as [x|] eqn:Hx;
        [|apply nth_error_None in Hx; lia].
      destruct (Hcell i i x x (Nat.le_refl i) Hx Hx) as [-> _].
      apply Hone. apply (Hdiag i x Hx). }
  destruct (init_total (length data) (length data) d m t Hwf Ht
              (Nat.le_refl _) Hsmall) as [st Hst].
  exists m, st. split; [exact Hm|]. split; [exact Hwf|].
  split; [exact Hst|].
  destruct (init_consistent (length data) (length data) d m t st Hwf Ht Hst)
    as (_ & Hc & _).
  apply consistent_partition. exact Hc.
Qed.

End MakeSimMatErrors.

Definition three_points : list nat := [0; 1; 2].

(** 1 for equal elements, 1/2 otherwise. *)
Definition same_or_half (x y : nat) : Q := if x =? y then 1%Q else (1#2)%Q.

Lemma same_or_half_range (x y : nat) : (0 <= same_or_half x y <= 1)%Q.
Proof.
  unfold same_or_half. destruct (x =? y); split; unfold Qle; simpl; lia.
Qed.

Lemma makeSimMat_builds_symmetric_matrix_witness :
  exists m,
    makeSimMat nat same_or_half (fun q => q) three_points = Ok m
    /\ square (length three_points) m
    /\ (forall a b x y, b <= a ->
          nth_error three_points a = Some x ->
          nth_error three_points b = Some y ->
          get m a b = same_or_half x y /\ get m b a = same_or_half x y)
    /\ (forall a b, a < length three_points -> b < length three_points ->
          get m a b = get m b a).
Proof.
  apply (makeSimMat_builds_symmetric_matrix nat same_or_half (fun q => q)
           three_points).
  intros i j _ _ x y _ _. apply same_or_half_range.
Defined.

Lemma makeSimMat_then_classification_witness :
  exists m st,
    makeSimMat nat same_or_half (fun q => q) three_points = Ok m
    /\ well_formed (length three_points) m
    /\ __init__ (fun q => q) (length three_points) 3 m (3#4) = Ok st
    /\ exact_partition (length three_points) (members st)
    /\ agrees (length three_points) (map st) (members st).
Proof.
  apply (makeSimMat_then_classification nat same_or_half (fun q => q)
           three_points (3#4) 3).
  - intros i j _ _ x y _ _. apply same_or_half_range.
  - intros i x _. unfold same_or_half. rewrite Nat.eqb_refl. reflexivity.
  - intros q Hq. exact Hq.
  - intros q Hq. exact Hq.
  - unfold Qle. simpl. lia.
  - unfold int16_max. simpl. lia.
Defined.

(** * The printer *)

(** A line of output: a fixed text, or the row format applied to the
    values of a class. *)
Inductive line : Type :=
| Text (s : string)
| Formatted (fmt : string) (class : Z) (prototype : nat) (count : nat)
    (fraction : Q) (ncum : nat) (fcum : Q).

Definition header_text : string :=
  "Class Prototype Count  Fraction      Totals".

Definition row_format : string := "%4d %8d %6d %8.3f   %6d %8.3f".

Section Print.

(** The addition of two floats. *)
Variable fadd : Q -> Q -> Q.

(** The loop of [print] from position [i] on; [cs] is what is left of
    the index. *)
Fixpoint print_loop (skip1 skip2 : Z) (i : nat)
    (cs : list (entry (list nat))) (ncum : nat) (fcum : Q)
    (skipflag : bool) : list line :=
  match cs with
  | [] => []
  | c :: rest =>
      let ncum := ncum + entry_count c in
      let fcum := fadd fcum (entry_fraction c) in
      if (Z.of_nat i <? skip1)%Z || (skip2 <? Z.of_nat i)%Z then
        Formatted row_format (entry_class c) (entry_prototype c)
                  (entry_count c) (entry_fraction c) ncum fcum
        :: print_loop skip1 skip2 (S i) rest ncum fcum skipflag
      else if skipflag then
        Text "..." :: print_loop skip1 skip2 (S i) rest ncum fcum false
      else print_loop skip1 skip2 (S i) rest ncum fcum skipflag
  end.

(** [simClassMap.print(maxlines)]: the lines written. *)
Definition print (self : simClassMap) (maxlines : Z) : list line :=
  let nclasses := Z.of_nat (length (index self)) in
  let skip1 :=
    if (maxlines <? nclasses)%Z then (maxlines / 2)%Z
    else (nclasses + 100)%Z in
  let skip2 :=
    if (maxlines <? nclasses)%Z then (nclasses - maxlines / 2)%Z
    else (nclasses + 100)%Z in
  Text header_text :: print_loop skip1 skip2 0 (index self) 0 0%Q true.

(** The rows of the whole table, nothing left out. *)
Fixpoint table_rows (cs : list (entry (list nat))) (ncum : nat) (fcum : Q)
  : list line :=
  match cs with
  | [] => []
  | c :: rest =>
      let ncum := ncum + entry_count c in
      let fcum := fadd fcum (entry_fraction c) in
      Formatted row_format (entry_class c) (entry_prototype c)
                (entry_count c) (entry_fraction c) ncum fcum
      :: table_rows rest ncum fcum
  end.

(** The running totals after the entries [cs]. *)
Definition ncum_after (ncum : nat) (cs : list (entry (list nat))) : nat :=
  fold_left (fun n c => n + entry_count c) cs ncum.

Definition fcum_after (fcum : Q) (cs : list (entry (list nat))) : Q :=
  fold_left (fun f c => fadd f (entry_fraction c)) cs fcum.

Lemma table_rows_app (A R : list (entry (list nat))) : forall n f,
  table_rows (A ++ R) n f
  = table_rows A n f ++ table_rows R (ncum_after n A) (fcum_after f A).
Proof.
  induction A as [|c A IH]; intros n f; simpl; [reflexivity|].
  rewrite IH. reflexivity.
Qed.

Lemma table_rows_length (cs : list (entry (list nat))) : forall n f,
  length (table_rows cs n f) = length cs.
Proof.
  induction cs as [|c cs IH]; intros n f; simpl; [reflexivity|].
  rewrite IH. reflexivity.
Qed.

Lemma print_loop_shown (s1 s2 : Z) (A R : list (entry (list nat))) :
  forall i n f flag,
  (forall k, k < length A ->
     (Z.of_nat (i + k) < s1 \/ s2 < Z.of_nat (i + k))%Z) ->
  print_loop s1 s2 i (A ++ R) n f flag
  = table_rows A n f
    ++ print_loop s1 s2 (i + length A) R (ncum_after n A) (fcum_after f A)
         flag.
Proof.
  induction A as [|c A IH]; intros i n f flag Hshown; simpl.
  - rewrite Nat.add_0_r. reflexivity.
  - replace ((Z.of_nat i <? s1)%Z || (s2 <? Z.of_nat i)%Z) with true.
    2:{ symmetry. apply orb_true_iff.
        specialize (Hshown 0 (Nat.lt_0_succ _)). rewrite Nat.add_0_r in Hshown.
        destruct Hshown; [left; apply Z.ltb_lt|right; apply Z.ltb_lt];
          assumption. }
    rewrite IH.
    + replace (S i + length A) with (i + S (length A)) by lia. reflexivity.
    + intros k Hk. specialize (Hshown (S k)).
      replace (S i + k) with (i + S k) by lia. apply Hshown. simpl. lia.
Qed.

Lemma print_loop_hidden (s1 s2 : Z) (B R : list (entry (list nat))) :
  forall i n f flag,
  (forall k, k < length B -> (s1 <= Z.of_nat (i + k) <= s2)%Z) ->
  print_loop s1 s2 i (B ++ R) n f flag
  = (if flag && negb (length B =? 0) then [Text "..."] else [])
    ++ print_loop s1 s2 (i + length B) R (ncum_after n B) (fcum_after f B)
         (flag && (length B =? 0)).
Proof.
  induction B as [|c B IH]; intros i n f flag Hhidden; simpl.
  - rewrite Nat.add_0_r, !andb_false_r, andb_true_r. reflexivity.
  - replace ((Z.of_nat i <? s1)%Z || (s2 <? Z.of_nat i)%Z) with false.
    2:{ symmetry. apply orb_false_iff.
        specialize (Hhidden 0 (Nat.lt_0_succ _)).
        rewrite Nat.add_0_r in Hhidden.
        split; apply Z.ltb_ge; lia. }
    assert (Hrest : forall k, k < length B ->
              (s1 <= Z.of_nat (S i + k) <= s2)%Z).
    { intros k Hk. specialize (Hhidden (S k)).
      replace (S i + k) with (i + S k) by lia. apply Hhidden. simpl. lia. }
    rewrite andb_true_r, andb_false_r.
    replace (i + S (length B)) with (S i + length B) by lia.
    destruct flag; rewrite (IH (S i) _ _ _ Hrest); simpl; reflexivity.
Qed.

End Print.

Section PrintFacts.

Variable fadd : Q -> Q -> Q.

Lemma table_rows_nth (cs : list (entry (list nat))) : forall n f i e,
  nth_error cs i = Some e ->
  nth_error (table_rows fadd cs n f) i
  = Some (Formatted row_format (entry_class e) (entry_prototype e)
            (entry_count e) (entry_fraction e)
            (ncum_after n (firstn (S i) cs))
            (fcum_after fadd f (firstn (S i) cs))).
Proof.
  induction cs as [|c cs IH]; intros n f i e Hi.
  - destruct i; discriminate.
  - destruct i as [|i]; simpl in Hi.
    + injection Hi as <-. reflexivity.
    + simpl nth_error. rewrite (IH _ _ i e Hi). reflexivity.
Qed.

(** Printed in full, the output is the header and the rows of the table. *)
Lemma print_full (self : simClassMap) (maxlines : Z) :
  (Z.of_nat (length (index self)) <= maxlines)%Z ->
  print fadd self maxlines
  = Text header_text :: table_rows fadd (index self) 0 0%Q.
Proof.
  intros Hn. unfold print.
  replace (maxlines <? Z.of_nat (length (index self)))%Z with false
    by (symmetry; apply Z.ltb_ge; exact Hn).
  f_equal.
  pose proof (print_loop_shown fadd
                (Z.of_nat (length (index self)) + 100)
                (Z.of_nat (length (index self)) + 100)
                (index self) [] 0 0 0%Q true) as Hshown.
  rewrite app_nil_r in Hshown. rewrite Hshown.
  - simpl. apply app_nil_r.
  - intros k Hk. left. simpl. lia.
Qed.

(** X21.  With no more classes than [maxlines], [print] writes the header
    and then one row for every class, in the order of the index; the row
    of a class shows its number, prototype, count and fraction, and the
    running count and running fraction over the classes up to it. *)
Theorem print_shows_every_class (self : simClassMap) (maxlines : Z) :
  (Z.of_nat (length (index self)) <= maxlines)%Z ->
  length (print fadd self maxlines) = S (length (index self))
  /\ nth_error (print fadd self maxlines) 0 = Some (Text header_text)
  /\ forall i e, nth_error (index self) i = Some e ->
       nth_error (print fadd self maxlines) (S i)
       = Some (Formatted row_format (entry_class e) (entry_prototype e)
                 (entry_count e) (entry_fraction e)
                 (ncum_after 0 (firstn (S i) (index self)))
                 (fcum_after fadd 0%Q (firstn (S i) (index self)))).
Proof.
  intros Hn.
  rewrite (print_full self maxlines Hn). split; [|split].
  - simpl. rewrite table_rows_length. reflexivity.
  - reflexivity.
  - intros i e Hi. simpl. apply table_rows_nth. exact Hi.
Qed.

Lemma print_loop_three (s1 s2 : Z) (A B C : list (entry (list nat))) :
  B <> [] ->
  (forall k, k < length A -> (Z.of_nat k < s1)%Z) ->
  (forall k, k < length B -> (s1 <= Z.of_nat (length A + k) <= s2)%Z) ->
  (forall k, k < length C ->
     (s2 < Z.of_nat (length A + length B + k))%Z) ->
  print_loop fadd s1 s2 0 (A ++ B ++ C) 0 0%Q true
  = firstn (length A) (table_rows fadd (A ++ B ++ C) 0 0%Q)
    ++ [Text "..."]
    ++ skipn (length A + length B) (table_rows fadd (A ++ B ++ C) 0 0%Q).
Proof.
  intros HB HA HBh HC.
  rewrite print_loop_shown by (intros k Hk; left; apply HA; exact Hk).
  rewrite print_loop_hidden by (intros k Hk; apply HBh; exact Hk).
  replace (length B =? 0) with false
    by (symmetry; apply Nat.eqb_neq; destruct B; [congruence|discriminate]).
  simpl andb. cbv iota.
  pose proof (print_loop_shown fadd s1 s2 C [] (0 + length A + length B)
                (ncum_after (ncum_after 0 A) B)
                (fcum_after fadd (fcum_after fadd 0%Q A) B) false) as HshownC.
  rewrite app_nil_r in HshownC. rewrite HshownC
    by (intros k Hk; right; apply HC; exact Hk).
  simpl print_loop. rewrite app_nil_r.
  rewrite !table_rows_app.
  rewrite firstn_app, table_rows_length, Nat.sub_diag. simpl firstn.
  rewrite app_nil_r.
  rewrite firstn_all2 by (rewrite table_rows_length; lia).
  f_equal. f_equal.
  rewrite app_assoc.
  rewrite skipn_app, length_app, !table_rows_length, Nat.sub_diag.
  simpl skipn at 2.
  rewrite skipn_all2 by (rewrite length_app, !table_rows_length; lia).
  reflexivity.
Qed.

(** X22.  With more classes than [maxlines], [print] writes the header,
    the first [maxlines // 2] rows of the table, one line ["..."], and
    the rows after position [nclasses - maxlines // 2]: that is
    [maxlines // 2 - 1] rows at the end, one fewer than at the start, and
    when [maxlines] is below 2 no row at all.  The running totals of the
    rows shown count the rows left out as well. *)
Theorem print_elides_the_middle (self : simClassMap) (maxlines : Z) :
  (maxlines < Z.of_nat (length (index self)))%Z ->
  0 < length (index self) ->
  let n := length (index self) in
  let h := Z.to_nat (maxlines / 2) in
  let table := table_rows fadd (index self) 0 0%Q in
  print fadd self maxlines
  = Text header_text
    :: firstn h table ++ [Text "..."] ++ skipn (n - h + 1) table
  /\ length (print fadd self maxlines) = 2 + h + (h - 1).
Proof.
  intros Hmax Hpos n h table.
  assert (Hdiv : (2 * (maxlines / 2) <= maxlines)%Z)
    by (apply Z.mul_div_le; lia).
  assert (Hh : 2 * h < n \/ h = 0) by (unfold h, n; lia).
  assert (Hhn : h < n) by (unfold h, n in *; lia).
  set (A := firstn h (index self)).
  set (B := firstn (n - h + 1 - h) (skipn h (index self))).
  set (C := skipn (n - h + 1 - h) (skipn h (index self))).
  assert (Hsplit : index self = A ++ B ++ C).
  { unfold A, B, C. rewrite firstn_skipn, firstn_skipn. reflexivity. }
  assert (HlA : length A = h).
  { unfold A. rewrite length_firstn. fold n. lia. }
  assert (HlB : length B = Nat.min (n - h + 1 - h) (n - h)).
  { unfold B. rewrite length_firstn, length_skipn. fold n. reflexivity. }
  pose proof (f_equal (@length _) Hsplit) as HlC.
  rewrite !length_app in HlC. fold n in HlC.
  assert (Heq : print fadd self maxlines
                = Text header_text
                  :: firstn h table ++ [Text "..."]
                     ++ skipn (n - h + 1) table).
  { unfold print. fold n.
    replace (maxlines <? Z.of_nat n)%Z with true
      by (symmetry; apply Z.ltb_lt; exact Hmax).
    f_equal. unfold table. rewrite Hsplit.
    rewrite print_loop_three.
    - rewrite HlA. f_equal. f_equal.
      destruct (Nat.eq_dec h 0) as [H0|H0].
      + rewrite !skipn_all2; [reflexivity| |];
          rewrite table_rows_length, <- Hsplit; fold n; lia.
      + replace (h + length B) with (n - h + 1) by lia. reflexivity.
    - intros HB. rewrite HB in HlB. simpl in HlB. lia.
    - intros k Hk. unfold h in *. lia.
    - intros k Hk. unfold h in *. lia.
    - intros k Hk. unfold h in *. lia. }
  split; [exact Heq|].
  rewrite Heq. cbn [length]. rewrite length_app. cbn [length app].
  rewrite length_firstn, length_skipn.
  unfold table. rewrite table_rows_length. fold n. lia.
Qed.

End PrintFacts.

Lemma ncum_after_members (cs : list (entry (list nat))) : forall n,
  (forall e, In e cs -> entry_count e = length (entry_members e)) ->
  ncum_after n cs
  = n + length (concat (List.map (@entry_members _) cs)).
Proof.
  unfold ncum_after.
  induction cs as [|c cs IH]; intros n Hcnt; simpl; [lia|].
  rewrite IH by (intros e He; apply Hcnt; right; exact He).
  rewrite length_app, (Hcnt c (or_introl eq_refl)). lia.
Qed.

(** X23.  On an object produced by the methods over a well-formed [N] by
    [N] matrix and printed in full, the running count of the last row is
    [N]: the counts of the classes add up to the number of points. *)
Theorem print_last_running_count_is_total {cast : Q -> Q}
    (N : nat) (sim : matrix) (t : Q)
    (fadd : Q -> Q -> Q) (st : simClassMap) (maxlines : Z) (e : entry (list nat)) :
  well_formed N sim -> (cast t <= 1)%Q -> reachable cast sim t st ->
  (Z.of_nat (length (index st)) <= maxlines)%Z ->
  nth_error (index st) (length (index st) - 1) = Some e ->
  nth_error (print fadd st maxlines) (length (index st))
  = Some (Formatted row_format (entry_class e) (entry_prototype e)
            (entry_count e) (entry_fraction e) N
            (fcum_after fadd 0%Q (index st))).
Proof.
  intros Hwf Ht Hreach Hmax He.
  destruct (reachable_good N sim t st Hwf Ht Hreach) as (_ & Hc & _).
  assert (Hlen : 0 < length (index st)).
  { destruct (index st); [discriminate|simpl; lia]. }
  rewrite (print_full fadd st maxlines Hmax).
  replace (length (index st)) with (S (length (index st) - 1)) at 1 by lia.
  cbn [nth_error].
  pose proof (table_rows_nth fadd (index st) 0 0%Q
                (length (index st) - 1) e He) as Hrow.
  replace (S (length (index st) - 1)) with (length (index st)) in Hrow
    by lia.
  rewrite firstn_all in Hrow. rewrite Hrow. do 2 f_equal.
  rewrite (ncum_after_members (index st) 0 (co_index_count N st Hc)).
  rewrite (co_index_members N st Hc).
  rewrite (Permutation_length (co_perm N st Hc)), length_seq. reflexivity.
Qed.

(** Three points, each pair similar by one half. *)
Definition sim3 : matrix :=
  [[1; 1#2; 1#2];
   [1#2; 1; 1#2];
   [1#2; 1#2; 1]]%Q.

Definition obj3 : simClassMap :=
  Eval vm_compute in created (__init__ to_float64 3 3 sim3 (3#4)).

Lemma sim3_well_formed : well_formed 3 sim3.
Proof. apply well_formedb_sound. vm_compute. reflexivity. Qed.

Lemma obj3_reachable : reachable to_float64 sim3 (3#4) obj3.
Proof.
  apply (reach_init to_float64 sim3 (3#4) 3 3). vm_compute. reflexivity.
Qed.

Lemma print_shows_every_class_witness :
  length (print Qplus obj3 1000) = S (length (index obj3))
  /\ nth_error (print Qplus obj3 1000) 0 = Some (Text header_text)
  /\ forall i e, nth_error (index obj3) i = Some e ->
       nth_error (print Qplus obj3 1000) (S i)
       = Some (Formatted row_format (entry_class e) (entry_prototype e)
                 (entry_count e) (entry_fraction e)
                 (ncum_after 0 (firstn (S i) (index obj3)))
                 (fcum_after Qplus 0%Q (firstn (S i) (index obj3)))).
Proof.
  apply (print_shows_every_class Qplus obj3 1000). simpl. lia.
Defined.

Lemma print_elides_the_middle_witness :
  length (print Qplus obj3 2) = 2 + 1 + (1 - 1).
Proof.
  apply (proj2 (print_elides_the_middle Qplus obj3 2
                  ltac:(simpl; lia) ltac:(simpl; lia))).
Defined.

Lemma print_last_running_count_is_total_witness :
  nth_error (print Qplus obj3 1000) (length (index obj3))
  = Some (Formatted row_format 3 2 1 (1 / 3) 3
            (fcum_after Qplus 0%Q (index obj3))).
Proof.
  apply (print_last_running_count_is_total (cast:=to_float64)
          3 sim3 (3#4) Qplus obj3 1000
           (mkEntry 3%Z 2 1 [2] (1 / 3)%Q)).
  - apply sim3_well_formed.
  - unfold Qle. simpl. lia.
  - apply obj3_reachable.
  - simpl. lia.
  - reflexivity.
Defined.

Lemma sort_loop_frame (cs : list (entry (list nat))) : forall i p self,
  let r := snd (sort_loop i cs p self) in
  thresh r = thresh self /\ data r = data self /\ simmat r = simmat self
  /\ totalcount r = totalcount self
  /\ length (map r) = length (map self)
  /\ data2 r = data2 self /\ simmat2 r = simmat2 self
  /\ prototypes2 r = prototypes2 self /\ map2 r = map2 self
  /\ totalcount2 r = totalcount2 self /\ members2 r = members2 self
  /\ index2 r = index2 self.
Proof.
  induction cs as [|c rest IH]; intros i p self; simpl.
  - repeat split.
  - destruct (nth_error (prototypes self) i) as [q|]; [|repeat split].
    simpl. unfold Np.store.
    destruct (forallb _ (entry_members c)); [|simpl; repeat split].
    match goal with
    | |- context [sort_loop (S i) rest ?p' ?self'] =>
        pose proof (IH (S i) p' self') as H
    end.
    simpl in H. rewrite length_store_from in H. exact H.
Qed.

(** X24.  However they end, [reassign] and [sort] leave the threshold,
    the data, the matrix, the total and all attributes of the secondary
    result as they were; [reassign] also leaves the prototypes, and [sort]
    the length of the assignment map. *)
Theorem reassign_and_sort_keep_their_inputs (st : simClassMap) :
  (let r := snd (reassign st) in
   thresh r = thresh st /\ data r = data st /\ simmat r = simmat st
   /\ prototypes r = prototypes st /\ totalcount r = totalcount st
   /\ data2 r = data2 st /\ simmat2 r = simmat2 st
   /\ prototypes2 r = prototypes2 st /\ map2 r = map2 st
   /\ totalcount2 r = totalcount2 st /\ members2 r = members2 st
   /\ index2 r = index2 st)
  /\ (let r := snd (sort st) in
      thresh r = thresh st /\ data r = data st /\ simmat r = simmat st
      /\ totalcount r = totalcount st
      /\ length (map r) = length (map st)
      /\ data2 r = data2 st /\ simmat2 r = simmat2 st
      /\ prototypes2 r = prototypes2 st /\ map2 r = map2 st
      /\ totalcount2 r = totalcount2 st /\ members2 r = members2 st
      /\ index2 r = index2 st).
Proof.
  split.
  - unfold reassign.
    destruct (Np.take (simmat st) (prototypes st)); [|simpl; repeat split].
    destruct (argmax_axis0 _); [|simpl; repeat split].
    simpl. destruct (Np.max _); [|simpl; repeat split].
    destruct (index_loop _ _ _ _ _) as [idx out]. simpl. repeat split.
  - unfold sort.
    match goal with
    | |- context [sort_loop 0 ?cs [] ?self] =>
        pose proof (sort_loop_frame cs 0 [] self) as H
    end.
    simpl in H. unfold Np.zeros in H. rewrite repeat_length in H. exact H.
Qed.

(** ** Creation when no two different points are similar *)

Lemma store_from_none (v : list Z) (idx : list nat) (c : Z) : forall k,
  (forall i, In i idx -> i < k) -> Np.store_from k v idx c = v.
Proof.
  induction v as [|x r IH]; intros k H; simpl; [reflexivity|].
  replace (existsb (Nat.eqb k) idx) with false.
  - rewrite IH; [reflexivity|]. intros i Hi. specialize (H i Hi). lia.
  - symmetry. apply not_true_is_false. intros Hex.
    apply existsb_eqb_In in Hex. specialize (H k Hex). lia.
Qed.

Lemma store_from_single (pre : list Z) (x : Z) (suf : list Z) (c : Z) :
  forall k,
  Np.store_from k (pre ++ x :: suf) [k + length pre] c = pre ++ c :: suf.
Proof.
  induction pre as [|a pre IH]; intros k; simpl.
  - rewrite Nat.add_0_r, Nat.eqb_refl. simpl. f_equal.
    apply store_from_none. intros i [<-|[]]. lia.
  - replace (k =? k + S (length pre)) with false
      by (symmetry; apply Nat.eqb_neq; lia).
    simpl. f_equal.
    replace (k + S (length pre)) with (S k + length pre) by lia.
    apply IH.
Qed.

Lemma filter_eqb_seq (n : nat) : forall k i,
  k <= i < k + n -> filter (Nat.eqb i) (seq k n) = [i].
Proof.
  induction n as [|n IH]; intros k i Hi; [lia|]. simpl.
  destruct (Nat.eqb_spec i k) as [->|Hne].
  - f_equal. apply filter_none. intros j Hj. apply in_seq in Hj.
    apply Nat.eqb_neq. lia.
  - apply IH. lia.
Qed.

Lemma filter_neqb_seq (n k : nat) :
  filter (fun j => negb (k =? j)) (seq k (S n)) = seq (S k) n.
Proof.
  simpl. rewrite Nat.eqb_refl. simpl. apply filter_all.
  intros j Hj. apply in_seq in Hj. apply negb_true_iff, Nat.eqb_neq. lia.
Qed.

(** The loop state after [k] turns when every point is similar to itself
    only: the points below [k] are classes of their own. *)
Definition singles (adj : nat -> nat -> bool) (N k : nat) : pass :=
  mkPass (seq 0 k) (List.map (fun i => [i]) (seq 0 k))
         (List.map plus_one (seq 0 k) ++ repeat 0%Z (N - k))
         (seq k (N - k)) (Z.of_nat (N - k)) (Z.of_nat k)
         (sub_mask adj (seq k (N - k))).

Lemma singles_body (adj : nat -> nat -> bool) (N k : nat) :
  (forall i j, i < N -> j < N -> adj i j = (i =? j)) -> k < N ->
  pass_body (singles adj N k)
  = if (Z.of_nat k + 1 <=? int16_max)%Z
    then Ok (singles adj N (S k)) else Raise OverflowError.
Proof.
  intros Hadj Hk.
  destruct (pass_body_ok adj (singles adj N k)) as (cp & p & Hfirst & Hp & Hb).
  { reflexivity. }
  { simpl. destruct (N - k) eqn:E; [lia|discriminate]. }
  { simpl. intros i Hi. apply in_seq in Hi.
    rewrite length_app, length_map, length_seq, repeat_length. lia. }
  cbn [indexMap singles] in Hfirst, Hp.
  assert (Hrow : forall i, In i (seq k (N - k)) ->
            filter (adj i) (seq k (N - k)) = [i]).
  { intros i Hi. apply in_seq in Hi.
    rewrite (filter_ext_in (adj i) (Nat.eqb i)).
    - apply filter_eqb_seq. lia.
    - intros j Hj. apply in_seq in Hj. apply Hadj; lia. }
  assert (Hdeg : forall i, In i (seq k (N - k)) ->
            degree adj (seq k (N - k)) i = 1).
  { intros i Hi. unfold degree. rewrite (Hrow i Hi). reflexivity. }
  assert (Hk0 : nth_error (seq k (N - k)) 0 = Some k).
  { destruct (N - k) eqn:E; [lia|reflexivity]. }
  assert (cp = 0).
  { destruct cp as [|cp]; [reflexivity|]. exfalso.
    destruct (first_max_degree adj (seq k (N - k)) (S cp) p
                Hfirst Hp 0 k Hk0) as [_ Hlt].
    specialize (Hlt (Nat.lt_0_succ cp)).
    rewrite (Hdeg k), (Hdeg p) in Hlt; try lia.
    - eapply nth_error_In; eauto.
    - eapply nth_error_In; eauto. }
  subst cp. rewrite Hk0 in Hp. injection Hp as <-.
  rewrite Hb. cbn [classno singles].
  destruct (Z.leb_spec (Z.of_nat k + 1) int16_max); [|reflexivity].
  f_equal. unfold pass_next. cbn [indexMap singles classPrototypes
    classMembers classAssigned unclassified classno].
  rewrite (Hrow k) by (eapply nth_error_In; eauto).
  rewrite (filter_ext_in (fun j => negb (adj k j))
             (fun j => negb (k =? j))).
  2:{ intros j Hj. apply in_seq in Hj. rewrite Hadj by lia. reflexivity. }
  replace (N - k) with (S (N - S k)) by lia.
  rewrite filter_neqb_seq.
  unfold singles. rewrite !seq_S, !map_app. cbn [List.map app Nat.add].
  f_equal.
  - cbn [repeat].
    pose proof (store_from_single (List.map plus_one (seq 0 k)) 0%Z
                  (repeat 0%Z (N - S k)) (Z.of_nat k + 1)%Z 0) as Hst.
    rewrite length_map, length_seq in Hst. cbn [Nat.add] in Hst.
    rewrite Hst. rewrite <- app_assoc. reflexivity.
  - cbn [length]. lia.
  - lia.
Qed.

Lemma singles_loop (adj : nat -> nat -> bool) (N : nat) :
  (forall i j, i < N -> j < N -> adj i j = (i =? j)) ->
  forall fuel k, k <= N -> N - k <= fuel ->
    (Z.of_nat k <= int16_max)%Z ->
    pass_loop fuel (singles adj N k)
    = if (Z.of_nat N <=? int16_max)%Z
      then Ok (singles adj N N) else Raise OverflowError.
Proof.
  intros Hadj. induction fuel as [|fuel IH]; intros k HkN Hfuel Hsmall.
  - assert (k = N) by lia. subst k. simpl. rewrite Nat.sub_diag. simpl.
    replace (Z.of_nat N <=? int16_max)%Z with true
      by (symmetry; apply Z.leb_le; exact Hsmall).
    reflexivity.
  - cbn [pass_loop]. cbn [unclassified singles].
    destruct (Nat.eq_dec k N) as [->|Hne].
    + rewrite Nat.sub_diag. simpl.
      replace (Z.of_nat N <=? int16_max)%Z with true
        by (symmetry; apply Z.leb_le; exact Hsmall).
      reflexivity.
    + replace (0 <? Z.of_nat (N - k))%Z with true
        by (symmetry; apply Z.ltb_lt; lia).
      rewrite (singles_body adj N k Hadj) by lia.
      destruct (Z.leb_spec (Z.of_nat k + 1) int16_max) as [Hle|Hgt].
      * simpl bind. apply IH; lia.
      * simpl bind.
        destruct (Z.leb_spec (Z.of_nat N) int16_max); [lia|reflexivity].
Qed.

(** X25.  When every point reaches the threshold as it is compared with
    itself and no two different points reach it, creation makes every
    point a class of its own, numbered in the order of the points, as long
    as there are at most 32767 points; with more points it raises
    [OverflowError] when class number 32768 is to be stored into the
    [int16] map. *)
Theorem all_dissimilar_singleton_classes {cast : Q -> Q}
    (N fuel d : nat) (sim : matrix)
    (t : Q) :
  square N sim -> N <= fuel ->
  (forall i, i < N -> (cast t <= get sim i i)%Q) ->
  (forall i j, i < N -> j < N -> i <> j -> (get sim i j < cast t)%Q) ->
  ((Z.of_nat N <= int16_max)%Z ->
   exists st,
     __init__ cast fuel d sim t = Ok st
     /\ prototypes st = seq 0 N
     /\ members st = List.map (fun i => [i]) (seq 0 N)
     /\ map st = List.map plus_one (seq 0 N))
  /\ ((int16_max < Z.of_nat N)%Z ->
      __init__ cast fuel d sim t = Raise OverflowError).
Proof.
  intros Hsq Hfuel Hdiag Hoff.
  set (adj := adjacent sim (cast t)).
  assert (Hadj : forall i j, i < N -> j < N -> adj i j = (i =? j)).
  { intros i j Hi Hj. unfold adj, adjacent.
    destruct (Nat.eqb_spec i j) as [->|Hne].
    - apply Qle_bool_iff, Hdiag, Hj.
    - apply not_true_is_false. intros H. apply Qle_bool_iff in H.
      apply (Qlt_not_le _ _ (Hoff i j Hi Hj Hne)). exact H. }
  assert (Hstart : pass_start cast sim t = singles adj N 0).
  { unfold pass_start, singles, Np.zeros, Np.arange.
    rewrite (proj1 Hsq), Nat.sub_0_r.
    rewrite (threshold_mask_sub_mask N sim t Hsq). reflexivity. }
  pose proof (singles_loop adj N Hadj fuel 0 (Nat.le_0_l N)) as Hloop.
  rewrite Nat.sub_0_r in Hloop. specialize (Hloop Hfuel).
  assert (H0 : (Z.of_nat 0 <= int16_max)%Z) by (unfold int16_max; lia).
  specialize (Hloop H0).
  unfold __init__. rewrite Hstart, Hloop. split.
  - intros Hsmall.
    replace (Z.of_nat N <=? int16_max)%Z with true
      by (symmetry; apply Z.leb_le; exact Hsmall).
    simpl bind. cbn [classPrototypes classMembers classAssigned singles].
    rewrite Nat.sub_diag. cbn [repeat]. rewrite app_nil_r.
    rewrite length_map, length_seq.
    destruct (Nat.eq_dec N 0) as [->|HN].
    + simpl. eexists. split; [reflexivity|]. repeat split.
    + destruct (index_loop_total (seq 0 N) 0
                  (List.map (fun i => [i]) (seq 0 N)) N [] HN) as [idx Hidx].
      { rewrite length_map, length_seq. simpl. lia. }
      rewrite Hidx. eexists. split; [reflexivity|]. repeat split.
  - intros Hbig.
    replace (Z.of_nat N <=? int16_max)%Z with false
      by (symmetry; apply Z.leb_gt; exact Hbig).
    reflexivity.
Qed.

Lemma all_dissimilar_singleton_classes_witness :
  exists st,
    __init__ to_float64 3 0 sim3 (3#4) = Ok st
    /\ prototypes st = seq 0 3
    /\ members st = List.map (fun i => [i]) (seq 0 3)
    /\ map st = List.map plus_one (seq 0 3).
Proof.
  apply (all_dissimilar_singleton_classes (cast:=to_float64) 3 3 0 sim3 (3#4)).
  - apply (wf_square sim3_well_formed).
  - lia.
  - intros i Hi. destruct i as [|[|[|i]]]; try lia; unfold Qle; simpl; lia.
  - intros i j Hi Hj Hne.
    destruct i as [|[|[|i]]]; try lia;
      destruct j as [|[|[|j]]]; try lia; unfold Qlt; simpl; lia.
  - unfold int16_max. simpl. lia.
Defined.

(** ** A threshold that is not a value of the dtype of the matrix *)

(** The [float32] nearest to 0.7; it is below 0.7. *)
Definition seven_tenths_32 : Q := (11744051 # 16777216)%Q.

(** Three points that [makeSimMat] would give similarity 0.7 to each
    other: the cells hold the [float32] value. *)
Definition sim07 : matrix :=
  [[1; seven_tenths_32; seven_tenths_32];
   [seven_tenths_32; 1; seven_tenths_32];
   [seven_tenths_32; seven_tenths_32; 1]]%Q.

(** The rounding to [float32], on the one threshold used below. *)
Definition round_07 (q : Q) : Q :=
  if Qeq_bool q (7#10) then seven_tenths_32 else q.

(** With threshold 0.7 the cells of [sim07] are below the Python float but
    equal to it once it is converted to [float32]: the creation over the
    [float32] matrix makes one class of the three points, where a
    comparison with the unconverted threshold would make three. *)
Lemma threshold_rounded_to_float32 :
  (seven_tenths_32 < 7#10)%Q
  /\ (exists st,
        __init__ round_07 3 0 sim07 (7#10) = Ok st
        /\ thresh st = (7#10)%Q
        /\ prototypes st = [0]
        /\ members st = [[0; 1; 2]]
        /\ map st = [1; 1; 1]%Z)
  /\ (exists st,
        __init__ to_float64 3 0 sim07 (7#10) = Ok st
        /\ prototypes st = [0; 1; 2]
        /\ members st = [[0]; [1]; [2]]
        /\ map st = [1; 2; 3]%Z).
Proof.
  split; [unfold Qlt; simpl; lia|].
  split; (eexists; split; [vm_compute; reflexivity|]); repeat split.
Qed.
